(** * Quantized matrix multiplication and affine quantization (CPU backend)

    A shallow embedding of [mlx/backend/cpu/quantized.cpp]: the bit-width
    arithmetic, the bit codec, the dequantize-and-multiply kernels, the
    dispatch layer with its batched and gathered drivers, and the group-wise
    affine quantizer, followed by the properties established about them.

    Conventions of the embedding.
    - C++ [int], [size_t] and pointer offsets are [Z]; the fixed-width
      unsigned types keep their wrap-around through [u8], [u32] and [u64].
      [/] and [%] on integers are [Z.quot] and [Z.rem] (truncation); a
      zero divisor, undefined in C++, gives the quotient 0.
    - A raw pointer is a buffer together with an offset: a buffer of [A] is
      a total function [Z -> A], a store is [upd].  The callers own the
      allocation of every buffer, so no bounds are attached to them.
    - The packed weights are addressed as bytes ([(const uint8_t* )w]); a
      32-bit word is the little-endian combination of four bytes.
    - The element type [T] of the templates and the [float] of the
      quantizer are instances of the class [Arith]; nothing is assumed of
      the operations unless a statement says so.  Two instances are
      given: binary32, the arithmetic of [float], and the extended
      rationals, an arithmetic without rounding error in which the
      statements are evaluated at concrete inputs.
    - A call that can [throw] returns an [outcome]: [Done] with the
      final state, or [Throw] with the exception and the state reached. *)

From Stdlib Require Import ZArith QArith Qround Qabs List Lia Lqa Bool String
  SpecFloat.
Import ListNotations.
Local Open Scope Z_scope.

(** ** Fixed-width unsigned integers *)

Definition u8 (z : Z) : Z := z mod 2 ^ 8.
Definition u32 (z : Z) : Z := z mod 2 ^ 32.
Definition u64 (z : Z) : Z := z mod 2 ^ 64.

(** ** Buffers and pointers *)

Definition buf (A : Type) : Type := Z -> A.

Definition upd {A : Type} (b : buf A) (i : Z) (v : A) : buf A :=
  fun j => if j =? i then v else b j.

(** [p + off] on a pointer [p] into buffer [b]. *)
Definition shift {A : Type} (b : buf A) (off : Z) : buf A :=
  fun j => b (off + j).

(** ** Loops *)

(** [for (i = start; ...; i += step)] run for [n] iterations. *)
Fixpoint for_from {St : Type} (n : nat) (i step : Z)
    (body : Z -> St -> St) (s : St) : St :=
  match n with
  | O => s
  | S n' => for_from n' (i + step) step body (body i s)
  end.

(** Number of iterations of [for (i = 0; i < hi; i += step)], [step > 0]. *)
Definition trip_count (hi step : Z) : nat :=
  Z.to_nat ((hi + step - 1) / step).

(** [for (int i = 0; i < hi; i++) body] *)
Definition for_lt {St : Type} (hi : Z) (body : Z -> St -> St) (s : St) : St :=
  for_from (Z.to_nat hi) 0 1 body s.

(** [for (int i = 0; i < hi; i += step) body] *)
Definition for_lt_step {St : Type} (hi step : Z)
    (body : Z -> St -> St) (s : St) : St :=
  for_from (trip_count hi step) 0 step body s.

(** ** Bit-width arithmetic *)

Definition get_pack_factor (bits : Z) (wsize : Z) : Z :=
  if (bits =? 3) || (bits =? 5) then 8
  else if bits =? 6 then 4 else Z.quot wsize bits.

Definition get_bytes_per_pack (bits : Z) (wsize : Z) : Z :=
  let power_of_2_bits := Z.land bits (bits - 1) =? 0 in
  if power_of_2_bits then Z.quot wsize 8 else if bits =? 5 then 5 else 3.

(** Modelled from the spec: [is_power_of_2] is declared in [mlx/utils.h],
    which is not part of the sources at hand; the power-of-two widths are
    2, 4 and 8 (a positive integer with a single bit set). *)
Definition is_power_of_2 (bits : Z) : bool :=
  (0 <? bits) && (Z.land bits (bits - 1) =? 0).

Definition valid_bits (bits : Z) : Prop :=
  bits = 2 \/ bits = 3 \/ bits = 4 \/ bits = 5 \/ bits = 6 \/ bits = 8.

Definition valid_group_size (group_size : Z) : Prop :=
  group_size = 32 \/ group_size = 64 \/ group_size = 128.

(** ** Bit codec: decode *)

(** The integer written to [w_out[i]] by [extract_bits<T, bits>], before
    the [static_cast<T>].  [w_in] is the pointer to the packed bytes. *)
Definition extract_bits_int (bits : Z) (w_in : buf Z) : list Z :=
  if bits =? 3 then
    [ Z.land (w_in 0) 0x7;
      Z.shiftr (Z.land (w_in 0) 0x38) 3;
      Z.shiftr (Z.land (w_in 0) 0xc0) 6 + Z.shiftl (Z.land (w_in 1) 0x1) 2;
      Z.shiftr (Z.land (w_in 1) 0xe) 1;
      Z.shiftr (Z.land (w_in 1) 0x70) 4;
      Z.shiftr (Z.land (w_in 1) 0x80) 7 + Z.shiftl (Z.land (w_in 2) 0x3) 1;
      Z.shiftr (Z.land (w_in 2) 0x1c) 2;
      Z.shiftr (Z.land (w_in 2) 0xe0) 5 ]
  else if bits =? 5 then
    [ Z.land (w_in 0) 0x1f;
      Z.shiftr (Z.land (w_in 0) 0xe0) 5 + Z.shiftl (Z.land (w_in 1) 0x3) 3;
      Z.shiftr (Z.land (w_in 1) 0x7c) 2;
      Z.shiftr (Z.land (w_in 1) 0x80) 7 + Z.shiftl (Z.land (w_in 2) 0xf) 1;
      Z.shiftr (Z.land (w_in 2) 0xf0) 4 + Z.shiftl (Z.land (w_in 3) 0x1) 4;
      Z.shiftr (Z.land (w_in 3) 0x3e) 1;
      Z.shiftr (Z.land (w_in 3) 0xc0) 6 + Z.shiftl (Z.land (w_in 4) 0x7) 2;
      Z.shiftr (Z.land (w_in 4) 0xf8) 3 ]
  else if bits =? 6 then
    [ Z.land (w_in 0) 0x3f;
      Z.land (Z.shiftr (w_in 0) 6) 0x03 + Z.shiftl (Z.land (w_in 1) 0x0f) 2;
      Z.land (Z.shiftr (w_in 1) 4) 0x0f + Z.shiftl (Z.land (w_in 2) 0x03) 4;
      Z.land (Z.shiftr (w_in 2) 2) 0x3f ]
  else [].

(** The values [wi & bitmask] met by the unrolled loop over [p] of the
    power-of-two branch of the kernels, [wi] being shifted right by [bits]
    after each step unless [bits = 8]. *)
Fixpoint shift_mask_loop (bits : Z) (n : nat) (wi : Z) : list Z :=
  match n with
  | O => []
  | S n' =>
      Z.land wi (Z.shiftl 1 bits - 1)
      :: shift_mask_loop bits n'
           (if negb (bits =? 8) then u8 (Z.shiftr wi bits) else wi)
  end.

(** The codes of the pack at [w_local], as both scalar kernels decode it. *)
Definition decode_pack (bits : Z) (w_local : buf Z) : list Z :=
  if (bits =? 3) || (bits =? 5) || (bits =? 6)
  then extract_bits_int bits w_local
  else shift_mask_loop bits (Z.to_nat (get_pack_factor bits 8)) (w_local 0).

(** ** Bit codec: encode (the inner loops of [quantize]) *)

(** [out_el |= static_cast<uint64_t>(w_el) << (k * bits)] for
    [k < el_per_int]; [code k] is the [uint64_t] of iteration [k]. *)
Definition pack_el (bits el_per_int : Z) (code : Z -> Z) : Z :=
  for_lt el_per_int
    (fun k out_el => Z.lor out_el (u64 (Z.shiftl (code k) (k * bits)))) 0.

(** The stores of [out_el] into [out], an array of [U]; [castU] is the
    conversion to [U] ([u32] or [u8]). *)
Definition store_el (bits bytes_per_pack : Z) (power_of_2_bits : bool)
    (castU : Z -> Z) (out : buf Z) (out_idx j out_el : Z) : buf Z :=
  if power_of_2_bits then upd out (out_idx + j) (castU out_el)
  else if bits =? 5 then
    let out := upd out (out_idx + bytes_per_pack * j)
                   (castU (Z.land out_el 0xff)) in
    let out := upd out (out_idx + bytes_per_pack * j + 1)
                   (castU (Z.shiftr (Z.land out_el 0xff00) 8)) in
    let out := upd out (out_idx + bytes_per_pack * j + 2)
                   (castU (Z.shiftr (Z.land out_el 0xff0000) 16)) in
    let out := upd out (out_idx + bytes_per_pack * j + 3)
                   (castU (Z.shiftr (Z.land out_el 0xff000000) 24)) in
    upd out (out_idx + bytes_per_pack * j + 4)
        (castU (Z.shiftr (Z.land out_el 0xff00000000) 32))
  else
    let out := upd out (out_idx + bytes_per_pack * j)
                   (castU (Z.land out_el 0xff)) in
    let out := upd out (out_idx + bytes_per_pack * j + 1)
                   (castU (Z.shiftr (Z.land out_el 0xff00) 8)) in
    upd out (out_idx + bytes_per_pack * j + 2)
        (castU (Z.shiftr (Z.land out_el 0xff0000) 16)).

(** The storage type [U] chosen by [AffineQuantize::eval_cpu]. *)
Definition castU_of (bits : Z) : Z -> Z :=
  if is_power_of_2 bits then u32 else u8.

(** Byte [i] of an array of 32-bit words (little-endian). *)
Definition bytes_of_words (wds : buf Z) : buf Z :=
  fun i => Z.land (Z.shiftr (wds (i / 4)) (8 * (i mod 4))) 0xff.

(** The 32-bit word at index [i] of a byte buffer (little-endian). *)
Definition load_u32 (w : buf Z) (i : Z) : Z :=
  w (4 * i) + Z.shiftl (w (4 * i + 1)) 8 + Z.shiftl (w (4 * i + 2)) 16
  + Z.shiftl (w (4 * i + 3)) 24.

(** The packed weights as the matmul kernels address them: the quantizer's
    output array of [U], seen through [(const uint8_t* )]. *)
Definition as_bytes (bits : Z) (out : buf Z) : buf Z :=
  if is_power_of_2 bits then bytes_of_words out else out.

(** One storage unit of the encoder: [el_per_int] codes packed and stored
    at the start of an array of [U]. *)
Definition encode_unit (bits : Z) (codes : list Z) : buf Z :=
  let el_per_int := get_pack_factor bits 32 in
  let bytes_per_pack := get_bytes_per_pack bits 8 in
  store_el bits bytes_per_pack (is_power_of_2 bits) (castU_of bits)
    (fun _ => 0) 0 0
    (pack_el bits el_per_int (fun k => nth (Z.to_nat k) codes 0)).

(** The same unit decoded by the scalar kernels: they consume
    [get_pack_factor bits 8] codes and [get_bytes_per_pack bits 8] bytes
    per step, as many steps as the unit holds. *)
Definition decode_unit (bits : Z) (w : buf Z) : list Z :=
  let el_per_int := get_pack_factor bits 32 in
  let pack_factor := get_pack_factor bits 8 in
  let bytes_per_pack := get_bytes_per_pack bits 8 in
  flat_map (fun i => decode_pack bits (shift w (Z.of_nat i * bytes_per_pack)))
           (seq 0 (Z.to_nat (Z.quot el_per_int pack_factor))).

(** ** Element types

    The operations the templates use on their element type [T] and on
    [float].  [fltb a b] is [a < b], [feqb a b] is [a == b], [frint] is
    [std::rint], [to_u64] is [static_cast<uint64_t>], [of_Z] the conversion
    from an integer, [eps7] the literal [1e-7]. *)
Class Arith (F : Type) : Type := {
  of_Z : Z -> F;
  fadd : F -> F -> F;
  fsub : F -> F -> F;
  fmul : F -> F -> F;
  fdiv : F -> F -> F;
  fneg : F -> F;
  fabs : F -> F;
  frint : F -> F;
  fltb : F -> F -> bool;
  feqb : F -> F -> bool;
  to_u64 : F -> Z;
  infinity : F;
  eps7 : F
}.

(** Conversions between a storage type [T] and the [float] in which the
    quantizer and the SIMD kernel compute. *)
Class Conv (T F : Type) : Type := {
  to_float : T -> F;
  of_float : F -> T
}.

Section StdMinMax.
Context {F : Type} {AF : Arith F}.

(** [std::max(a, b)]: [(a < b) ? b : a]. *)
Definition std_max (a b : F) : F := if fltb a b then b else a.

(** [std::min(a, b)]: [(b < a) ? b : a]. *)
Definition std_min (a b : F) : F := if fltb b a then b else a.
End StdMinMax.

(** ** Errors *)

Inductive exn : Type :=
| invalid_argument (msg : string)
| runtime_error (msg : string).

(** The outcome of a call that mutates a state [St]: normal return, or an
    exception together with the state at the [throw]. *)
Inductive outcome (St : Type) : Type :=
| Done (s : St)
| Throw (e : exn) (s : St).
Arguments Done {St} s.
Arguments Throw {St} e s.

Definition state_of {St : Type} (o : outcome St) : St :=
  match o with Done s => s | Throw _ s => s end.

Definition is_done {St : Type} (o : outcome St) : bool :=
  match o with Done _ => true | Throw _ _ => false end.

(** A loop whose body may throw: the first exception ends it. *)
Fixpoint for_from_o {St : Type} (n : nat) (i step : Z)
    (body : Z -> St -> outcome St) (s : St) : outcome St :=
  match n with
  | O => Done s
  | S n' =>
      match body i s with
      | Done s' => for_from_o n' (i + step) step body s'
      | Throw e s' => Throw e s'
      end
  end.

Definition for_lt_o {St : Type} (hi : Z)
    (body : Z -> St -> outcome St) (s : St) : outcome St :=
  for_from_o (Z.to_nat hi) 0 1 body s.

Definition for_lt_step_o {St : Type} (hi step : Z)
    (body : Z -> St -> outcome St) (s : St) : outcome St :=
  for_from_o (trip_count hi step) 0 step body s.

(** ** Dequantize-multiply kernels *)

(** Cursors of the accumulation loops of [_qmm]: the output buffer,
    [result_local] and [w_local]. *)
Record qmm_acc (T : Type) : Type := mk_qmm_acc {
  qa_res : buf T;
  qa_result_local : Z;
  qa_w_local : Z
}.
Arguments mk_qmm_acc {T}.
Arguments qa_res {T}.
Arguments qa_result_local {T}.
Arguments qa_w_local {T}.

(** State of one row [m] of [_qmm]. *)
Record qmm_row (T : Type) : Type := mk_qmm_row {
  qr_acc : qmm_acc T;
  qr_scales_local : Z;
  qr_biases_local : Z;
  qr_x : Z
}.
Arguments mk_qmm_row {T}.
Arguments qr_acc {T}.
Arguments qr_scales_local {T}.
Arguments qr_biases_local {T}.
Arguments qr_x {T}.

(** State of the dot product of [_qmm_t]: [sum], [x_local], [w_local]. *)
Record qmm_t_dot (T : Type) : Type := mk_qmm_t_dot {
  qd_sum : T;
  qd_x_local : Z;
  qd_w_local : Z
}.
Arguments mk_qmm_t_dot {T}.
Arguments qd_sum {T}.
Arguments qd_x_local {T}.
Arguments qd_w_local {T}.

(** State of one row [m] of [_qmm_t] and of [_qmm_t_simd]. *)
Record qmm_t_row (T : Type) : Type := mk_qmm_t_row {
  qt_res : buf T;
  qt_result : Z;
  qt_w_local : Z;
  qt_scales_local : Z;
  qt_biases_local : Z
}.
Arguments mk_qmm_t_row {T}.
Arguments qt_res {T}.
Arguments qt_result {T}.
Arguments qt_w_local {T}.
Arguments qt_scales_local {T}.
Arguments qt_biases_local {T}.

(** State of the loop over [m] of every kernel: the output buffer and the
    pointers [result] and [x]. *)
Record kernel_m (T : Type) : Type := mk_kernel_m {
  km_res : buf T;
  km_result : Z;
  km_x : Z
}.
Arguments mk_kernel_m {T}.
Arguments km_res {T}.
Arguments km_result {T}.
Arguments km_x {T}.

Section ScalarKernels.
Context {T : Type} {AT : Arith T}.

(** [extract_bits<T, bits>(w_in, w_out)]: the array [w_out]. *)
Definition extract_bits (bits : Z) (w_in : buf Z) : list T :=
  map of_Z (extract_bits_int bits w_in).

(** The template parameters. *)
Variables (bits group_size : Z).

Definition bitmask : Z := Z.shiftl 1 bits - 1.
Definition pack_factor : Z := get_pack_factor bits 8.
Definition bytes_per_pack : Z := get_bytes_per_pack bits 8.
Definition packs_in_group : Z := Z.quot group_size pack_factor.

(** [wi >>= bits] guarded by [bits != 8], on a [uint8_t]. *)
Definition next_wi (wi : Z) : Z :=
  if negb (bits =? 8) then u8 (Z.shiftr wi bits) else wi.

(** [*result_local++ += xi * (scale * v + bias)] *)
Definition qmm_accumulate (xi scale bias v : T) (a : qmm_acc T)
  : qmm_acc T :=
  mk_qmm_acc
    (upd (qa_res a) (qa_result_local a)
       (fadd (qa_res a (qa_result_local a))
          (fmul xi (fadd (fmul scale v) bias))))
    (qa_result_local a + 1) (qa_w_local a).

(** One pack of [_qmm] (the body of the loop over [ng]). *)
Definition qmm_pack (wb : buf Z) (xi scale bias : T) (a : qmm_acc T)
  : qmm_acc T :=
  if (bits =? 3) || (bits =? 5) || (bits =? 6) then
    let wl := extract_bits bits (shift wb (qa_w_local a)) in
    let a :=
      for_lt pack_factor
        (fun p a =>
           qmm_accumulate xi scale bias (nth (Z.to_nat p) wl (of_Z 0)) a)
        a in
    mk_qmm_acc (qa_res a) (qa_result_local a)
      (qa_w_local a + bytes_per_pack)
  else
    let wi := wb (qa_w_local a) in
    let a := mk_qmm_acc (qa_res a) (qa_result_local a) (qa_w_local a + 1) in
    fst
      (for_lt pack_factor
         (fun p '(a, wi) =>
            (qmm_accumulate xi scale bias (of_Z (Z.land wi bitmask)) a,
             next_wi wi))
         (a, wi)).

(** [_qmm<T, bits, group_size>(result, x, w, scales, biases, M, N, K)];
    [result] is the pointer [res + rp]. *)
Definition _qmm (res : buf T) (rp : Z) (x : buf T) (w : buf Z)
    (scales biases : buf T) (M N K : Z) : buf T :=
  let wb := bytes_of_words w in
  km_res
    (for_lt M
       (fun m s =>
          let result := km_result s in
          let res :=
            for_lt N (fun j r => upd r (result + j) (of_Z 0)) (km_res s) in
          let row :=
            for_lt K
              (fun k row =>
                 let xi := x (qr_x row) in
                 let row :=
                   mk_qmm_row
                     (mk_qmm_acc (qa_res (qr_acc row)) result
                        (qa_w_local (qr_acc row)))
                     (qr_scales_local row) (qr_biases_local row)
                     (qr_x row + 1) in
                 for_lt_step N group_size
                   (fun n row =>
                      let scale := scales (qr_scales_local row) in
                      let bias := biases (qr_biases_local row) in
                      mk_qmm_row
                        (for_lt packs_in_group
                           (fun ng a => qmm_pack wb xi scale bias a)
                           (qr_acc row))
                        (qr_scales_local row + 1) (qr_biases_local row + 1)
                        (qr_x row)) row)
              (mk_qmm_row (mk_qmm_acc res result 0) 0 0 (km_x s)) in
          mk_kernel_m (qa_res (qr_acc row)) (result + N) (qr_x row))
       (mk_kernel_m res rp 0)).

(** [sum += xv * (scale * v + bias)] *)
Definition dot_step (xv scale bias v sum : T) : T :=
  fadd sum (fmul xv (fadd (fmul scale v) bias)).

(** One pack of [_qmm_t] (the body of the loop over [kw]). *)
Definition qmm_t_pack (wb : buf Z) (x : buf T) (scale bias : T)
    (d : qmm_t_dot T) : qmm_t_dot T :=
  if (bits =? 3) || (bits =? 5) || (bits =? 6) then
    let wl := extract_bits bits (shift wb (qd_w_local d)) in
    let sum :=
      for_lt pack_factor
        (fun p sum =>
           dot_step (x (qd_x_local d + p)) scale bias
             (nth (Z.to_nat p) wl (of_Z 0)) sum)
        (qd_sum d) in
    mk_qmm_t_dot sum (qd_x_local d + pack_factor)
      (qd_w_local d + bytes_per_pack)
  else
    let wi := wb (qd_w_local d) in
    let d := mk_qmm_t_dot (qd_sum d) (qd_x_local d) (qd_w_local d + 1) in
    fst
      (for_lt pack_factor
         (fun p '(d, wi) =>
            (mk_qmm_t_dot
               (dot_step (x (qd_x_local d)) scale bias
                  (of_Z (Z.land wi bitmask)) (qd_sum d))
               (qd_x_local d + 1) (qd_w_local d),
             next_wi wi))
         (d, wi)).

(** [_qmm_t<T, bits, group_size>(result, x, w, scales, biases, M, N, K)] *)
Definition _qmm_t (res : buf T) (rp : Z) (x : buf T) (w : buf Z)
    (scales biases : buf T) (M N K : Z) : buf T :=
  let wb := bytes_of_words w in
  km_res
    (for_lt M
       (fun m s =>
          let row :=
            for_lt N
              (fun n row =>
                 let '(d, sl, bl) :=
                   for_lt_step K group_size
                     (fun k '(d, sl, bl) =>
                        let scale := scales sl in
                        let bias := biases bl in
                        (for_lt packs_in_group
                           (fun kw d => qmm_t_pack wb x scale bias d) d,
                         sl + 1, bl + 1))
                     (mk_qmm_t_dot (of_Z 0) (km_x s) (qt_w_local row),
                      qt_scales_local row, qt_biases_local row) in
                 mk_qmm_t_row (upd (qt_res row) (qt_result row) (qd_sum d))
                   (qt_result row + 1) (qd_w_local d) sl bl)
              (mk_qmm_t_row (km_res s) (km_result s) 0 0 0) in
          mk_kernel_m (qt_res row) (qt_result row) (km_x s + K))
       (mk_kernel_m res rp 0)).

End ScalarKernels.

(** ** The SIMD kernel *)

(** A value or an exception. *)
Inductive result (A : Type) : Type :=
| Ok (a : A)
| Raise (e : exn).
Arguments Ok {A} a.
Arguments Raise {A} e.

(** Lane-wise binary operation on two SIMD vectors. *)
Fixpoint zip_with {A B C : Type} (f : A -> B -> C) (l : list A) (r : list B)
  : list C :=
  match l, r with
  | a :: l', b :: r' => f a b :: zip_with f l' r'
  | _, _ => []
  end.

(** [extract_bits_simd<bits, S>(w)]: a [Simd<uint32_t, S>] is the list of
    its lanes. *)
Definition extract_bits_simd (bits S : Z) (w : buf Z) : result (list Z) :=
  let bitmask := Z.shiftl 1 bits - 1 in
  if (bits =? 4) && (S =? 8) then
    let shifts := [0; 4; 8; 12; 16; 20; 24; 28] in
    let wi := repeat (w 0) 8 in
    let wi := zip_with Z.shiftr wi shifts in
    Ok (map (fun v => Z.land v bitmask) wi)
  else if (bits =? 8) && (S =? 8) then
    let shifts := [0; 8; 16; 24; 0; 8; 16; 24] in
    let l := repeat (w 0) 4 in
    let r := repeat (w 1) 4 in
    let wi := l ++ r in
    let wi := zip_with Z.shiftr wi shifts in
    Ok (map (fun v => Z.land v bitmask) wi)
  else Raise (runtime_error "Unsupported combination for simd qmm.").

(** State of the dot product of [_qmm_t_simd]: [acc], [x_local],
    [w_local] (in 32-bit words). *)
Record simd_dot (F : Type) : Type := mk_simd_dot {
  sd_acc : list F;
  sd_x_local : Z;
  sd_w_local : Z
}.
Arguments mk_simd_dot {F}.
Arguments sd_acc {F}.
Arguments sd_x_local {F}.
Arguments sd_w_local {F}.

Section SimdKernel.
Context {T F : Type} {AF : Arith F} {CV : Conv T F}.

(** [simd::sum], the horizontal reduction of the SIMD library, and
    [simd::max_size<T>] (the [S] of the source); both are declared in
    [simd/simd.h]. *)
Variable simd_sum : list F -> F.
Variable max_size : Z.

Variables (bits group_size : Z).

(** [simd::load<T, S>(x_local)] converted to [Simd<float, S>]. *)
Definition simd_load (x : buf T) (x_local : Z) : list F :=
  map (fun l => to_float (x (x_local + Z.of_nat l)))
    (seq 0 (Z.to_nat max_size)).

(** The body of the loop over [kw]. *)
Definition qmm_t_simd_step (x : buf T) (w : buf Z) (scale bias : T)
    (packs_per_simd : Z) (d : simd_dot F) : outcome (simd_dot F) :=
  match extract_bits_simd bits max_size (shift w (sd_w_local d)) with
  | Raise e => Throw e d
  | Ok wi =>
      let wf := map of_Z wi in
      let w_local := sd_w_local d + packs_per_simd in
      let wf := map (fun v => fmul v (to_float scale)) wf in
      let wf := map (fun v => fadd v (to_float bias)) wf in
      let x_simd := simd_load x (sd_x_local d) in
      let acc := zip_with fadd (sd_acc d) (zip_with fmul x_simd wf) in
      Done (mk_simd_dot acc (sd_x_local d + max_size) w_local)
  end.

(** [_qmm_t_simd<T, bits, group_size>(result, x, w, scales, biases,
    M, N, K)] *)
Definition _qmm_t_simd (res : buf T) (rp : Z) (x : buf T) (w : buf Z)
    (scales biases : buf T) (M N K : Z) : outcome (buf T) :=
  let pack_factor := Z.quot 32 bits in
  let packs_in_group := Z.quot group_size pack_factor in
  let packs_per_simd := Z.quot max_size pack_factor in
  let run :=
    for_lt_o M
      (fun m s =>
         let rows :=
           for_lt_o N
             (fun n row =>
                let dot :=
                  for_lt_step_o K group_size
                    (fun k '(d, sl, bl) =>
                       let scale := scales sl in
                       let bias := biases bl in
                       match
                         for_lt_step_o packs_in_group packs_per_simd
                           (fun kw d =>
                              qmm_t_simd_step x w scale bias packs_per_simd d)
                           d
                       with
                       | Done d => Done (d, sl + 1, bl + 1)
                       | Throw e d => Throw e (d, sl, bl)
                       end)
                    (mk_simd_dot (repeat (of_Z 0) (Z.to_nat max_size))
                       (km_x s) (qt_w_local row),
                     qt_scales_local row, qt_biases_local row) in
                match dot with
                | Done (d, sl, bl) =>
                    Done
                      (mk_qmm_t_row
                         (upd (qt_res row) (qt_result row)
                            (of_float (simd_sum (sd_acc d))))
                         (qt_result row + 1) (sd_w_local d) sl bl)
                | Throw e _ => Throw e row
                end)
             (mk_qmm_t_row (km_res s) (km_result s) 0 0 0) in
         match rows with
         | Done row =>
             Done (mk_kernel_m (qt_res row) (qt_result row) (km_x s + K))
         | Throw e row =>
             Throw e (mk_kernel_m (qt_res row) (qt_result row) (km_x s))
         end)
      (mk_kernel_m res rp 0) in
  match run with
  | Done s => Done (km_res s)
  | Throw e s => Throw e (km_res s)
  end.

End SimdKernel.

(** ** Dispatch layer *)

Section Dispatch.
Context {T F : Type} {AT : Arith T} {AF : Arith F} {CV : Conv T F}.
Variable simd_sum : list F -> F.
Variable max_size : Z.

(** [_qmm_dispatch_transpose<T, bits, group_size>] *)
Definition _qmm_dispatch_transpose (bits group_size : Z)
    (res : buf T) (rp : Z) (x : buf T) (w : buf Z) (scales biases : buf T)
    (M N K : Z) (transposed_w : bool) : outcome (buf T) :=
  if transposed_w then
    if (Z.rem 32 bits =? 0) && (Z.rem max_size (Z.quot 32 bits) =? 0) then
      _qmm_t_simd simd_sum max_size bits group_size
        res rp x w scales biases M N K
    else Done (_qmm_t bits group_size res rp x w scales biases M N K)
  else Done (_qmm bits group_size res rp x w scales biases M N K).

(** [_qmm_dispatch_group<T, bits>] *)
Definition _qmm_dispatch_group (bits : Z)
    (res : buf T) (rp : Z) (x : buf T) (w : buf Z) (scales biases : buf T)
    (M N K : Z) (group_size : Z) (transposed_w : bool) : outcome (buf T) :=
  match group_size with
  | 32 =>
      _qmm_dispatch_transpose bits 32
        res rp x w scales biases M N K transposed_w
  | 64 =>
      _qmm_dispatch_transpose bits 64
        res rp x w scales biases M N K transposed_w
  | 128 =>
      _qmm_dispatch_transpose bits 128
        res rp x w scales biases M N K transposed_w
  | _ =>
      Throw
        (invalid_argument "Quantization group size must be 32, 64 or 128.")
        res
  end.

(** [_qmm_dispatch_typed<T>], the overload on raw pointers.  Its
    parameters are, in this order, [group_size] and then [bits]. *)
Definition _qmm_dispatch_typed
    (res : buf T) (rp : Z) (x : buf T) (w : buf Z) (scales biases : buf T)
    (M N K : Z) (group_size : Z) (bits : Z) (transposed_w : bool)
  : outcome (buf T) :=
  match bits with
  | 2 =>
      _qmm_dispatch_group 2
        res rp x w scales biases M N K group_size transposed_w
  | 3 =>
      _qmm_dispatch_group 3
        res rp x w scales biases M N K group_size transposed_w
  | 4 =>
      _qmm_dispatch_group 4
        res rp x w scales biases M N K group_size transposed_w
  | 5 =>
      _qmm_dispatch_group 5
        res rp x w scales biases M N K group_size transposed_w
  | 6 =>
      _qmm_dispatch_group 6
        res rp x w scales biases M N K group_size transposed_w
  | 8 =>
      _qmm_dispatch_group 8
        res rp x w scales biases M N K group_size transposed_w
  | _ =>
      Throw (invalid_argument "Quantization bits must be 2, 3, 4, 6 or 8.")
        res
  end.

End Dispatch.

(** ** Arrays

    The tensor abstraction ([array], [Dtype], [elem_to_loc], [copy_cpu])
    is an external collaborator of this file: [mlx/array.h], [mlx/dtype.h]
    and [mlx/utils.h] are not among the sources at hand. *)

(** Modelled from the spec: [Dtype], declared in [mlx/dtype.h]; the tag of
    the element type of an array, three of them the supported floats. *)
Inductive Dtype : Type :=
| bool_ | uint8 | uint16 | uint32 | uint64
| int8 | int16 | int32 | int64
| float16 | float32 | float64 | bfloat16 | complex64.

(** Modelled from the spec: [array], declared in [mlx/array.h]; an array
    is its element type tag, its shape and stride metadata, its
    contiguity flag and its storage, addressed in elements. *)
Record array (A : Type) : Type := mk_array {
  dtype : Dtype;
  shape : list Z;
  strides : list Z;
  row_contiguous : bool;
  data : buf A
}.
Arguments mk_array {A}.
Arguments dtype {A}.
Arguments shape {A}.
Arguments strides {A}.
Arguments row_contiguous {A}.
Arguments data {A}.

(** Modelled from the spec: [a.ndim()], the number of dimensions. *)
Definition ndim {A : Type} (a : array A) : Z :=
  Z.of_nat (List.length (shape a)).

(** Modelled from the spec: [a.size()], the number of elements. *)
Definition size {A : Type} (a : array A) : Z := fold_right Z.mul 1 (shape a).

(** Modelled from the spec: [v[i]] with a negative [i] counted from the
    end, as [a.shape(i)] and [a.strides()[a.ndim() - 1]] read it. *)
Definition at_dim (v : list Z) (i : Z) : Z :=
  nth (Z.to_nat (if i <? 0 then i + Z.of_nat (List.length v) else i)) v 0.

(** Modelled from the spec: [a.shape(i)]. *)
Definition shape_at {A : Type} (a : array A) (i : Z) : Z := at_dim (shape a) i.

(** Modelled from the spec: the primitives [QuantizedMatmul] and
    [GatherQMM] are declared in [mlx/primitives.h]; their members read
    here are [group_size_], [bits_] and [transpose_]. *)
Record quantized_prim : Type := mk_quantized_prim {
  group_size_ : Z;
  bits_ : Z;
  transpose_ : bool
}.

(** Modelled from the spec: [out.set_data(allocator::malloc(out.nbytes()))];
    the storage of the array becomes the fresh allocation [mem]. *)
Definition set_data {A : Type} (a : array A) (mem : buf A) : array A :=
  mk_array (dtype a) (shape a) (strides a) (row_contiguous a) mem.

(** ** Batched and gathered drivers *)

Section Drivers.
(** Every floating array shares the carrier [V]; the element type of a
    template instance fixes the operations on it. *)
Context {V F : Type} {AF : Arith F}.
Variable simd_sum : list F -> F.

(** [elem_to_loc(elem, shape, strides)] of the tensor abstraction. *)
Variable elem_to_loc : Z -> list Z -> list Z -> Z.

Section Typed.
Context {AT : Arith V} {CV : Conv V F}.
Variable max_size : Z.

(** [_qmm_dispatch_typed<T>], the overload on arrays.  The last
    three arguments of the inner call are passed in the order
    [bits, group_size, transposed_w]. *)
Definition _qmm_dispatch_typed_arr
    (out x : array V) (w : array Z) (scales biases : array V)
    (bits group_size : Z) (transposed_w : bool) : outcome (buf V) :=
  let K := shape_at x (-1) in
  let M := if ndim x >? 1 then shape_at x (-2) else 1 in
  let N := shape_at out (-1) in
  let w_els := if ndim w >? 2 then shape_at w (-1) * shape_at w (-2)
               else 0 in
  let g_els := if ndim w >? 2
               then shape_at scales (-1) * shape_at scales (-2) else 0 in
  let batch_size := Z.quot (size x) (K * M) in
  for_lt_o batch_size
    (fun i res =>
       _qmm_dispatch_typed simd_sum max_size
         res (i * M * N)
         (shift (data x) (elem_to_loc (i * M * K) (shape x) (strides x)))
         (shift (data w) (elem_to_loc (i * w_els) (shape w) (strides w)))
         (shift (data scales)
            (elem_to_loc (i * g_els) (shape scales) (strides scales)))
         (shift (data biases)
            (elem_to_loc (i * g_els) (shape biases) (strides biases)))
         M N K bits group_size transposed_w)
    (data out).

(** [_bs_qmm_dispatch_typed<T>] *)
Definition _bs_qmm_dispatch_typed
    (out x : array V) (w : array Z) (scales biases : array V)
    (lhs_indices rhs_indices : array Z)
    (bits group_size : Z) (transposed_w : bool) : outcome (buf V) :=
  let K := shape_at x (-1) in
  let M := shape_at x (-2) in
  let N := shape_at out (-1) in
  let w_els := shape_at w (-1) * shape_at w (-2) in
  let g_els := shape_at scales (-1) * shape_at scales (-2) in
  for_lt_o (size lhs_indices)
    (fun i res =>
       let x_idx :=
         data lhs_indices
           (elem_to_loc i (shape lhs_indices) (strides lhs_indices)) in
       let w_idx :=
         data rhs_indices
           (elem_to_loc i (shape rhs_indices) (strides rhs_indices)) in
       _qmm_dispatch_typed simd_sum max_size
         res (i * M * N)
         (shift (data x)
            (elem_to_loc (x_idx * M * K) (shape x) (strides x)))
         (shift (data w)
            (elem_to_loc (w_idx * w_els) (shape w) (strides w)))
         (shift (data scales)
            (elem_to_loc (w_idx * g_els) (shape scales) (strides scales)))
         (shift (data biases)
            (elem_to_loc (w_idx * g_els) (shape biases) (strides biases)))
         M N K bits group_size transposed_w)
    (data out).
End Typed.

(** The operations of [float], [float16_t] and [bfloat16_t] on the
    carrier, and [simd::max_size] of each. *)
Variable arith_of : Dtype -> Arith V.
Variable conv_of : Dtype -> Conv V F.
Variable max_size_of : Dtype -> Z.

Definition only_floating : exn :=
  invalid_argument "[quantized_matmul] only floating types are supported".

(** [_qmm_dispatch] *)
Definition _qmm_dispatch
    (out x : array V) (w : array Z) (scales biases : array V)
    (bits group_size : Z) (transposed_w : bool) : outcome (buf V) :=
  match dtype x with
  | float32 =>
      _qmm_dispatch_typed_arr (AT := arith_of float32)
        (CV := conv_of float32) (max_size_of float32)
        out x w scales biases bits group_size transposed_w
  | float16 =>
      _qmm_dispatch_typed_arr (AT := arith_of float16)
        (CV := conv_of float16) (max_size_of float16)
        out x w scales biases bits group_size transposed_w
  | bfloat16 =>
      _qmm_dispatch_typed_arr (AT := arith_of bfloat16)
        (CV := conv_of bfloat16) (max_size_of bfloat16)
        out x w scales biases bits group_size transposed_w
  | _ => Throw only_floating (data out)
  end.

(** [_bs_qmm_dispatch] *)
Definition _bs_qmm_dispatch
    (out x : array V) (w : array Z) (scales biases : array V)
    (lhs_indices rhs_indices : array Z)
    (bits group_size : Z) (transposed_w : bool) : outcome (buf V) :=
  match dtype x with
  | float32 =>
      _bs_qmm_dispatch_typed (AT := arith_of float32)
        (CV := conv_of float32) (max_size_of float32)
        out x w scales biases lhs_indices rhs_indices
        bits group_size transposed_w
  | float16 =>
      _bs_qmm_dispatch_typed (AT := arith_of float16)
        (CV := conv_of float16) (max_size_of float16)
        out x w scales biases lhs_indices rhs_indices
        bits group_size transposed_w
  | bfloat16 =>
      _bs_qmm_dispatch_typed (AT := arith_of bfloat16)
        (CV := conv_of bfloat16) (max_size_of bfloat16)
        out x w scales biases lhs_indices rhs_indices
        bits group_size transposed_w
  | _ => Throw only_floating (data out)
  end.

(** [copy_cpu(arr, dst, CopyType::General, s)] gives the contents of
    the destination; [default_strides] are the strides the constructor
    [array(shape, dtype, nullptr, {})] gives it. *)
Variable copy_cpu : forall A : Type, array A -> buf A.
Variable default_strides : list Z -> list Z.

(** [temps.push_back(array(arr.shape(), arr.dtype(), nullptr, {}));
    copy_cpu(arr, temps.back(), CopyType::General, s)] *)
Definition contiguous_copy {A : Type} (arr : array A) : array A :=
  mk_array (dtype arr) (shape arr) (default_strides (shape arr)) true
    (copy_cpu A arr).

Definition ensure_row_contiguous {A : Type} (arr : array A) : array A :=
  if row_contiguous arr then arr else contiguous_copy arr.

Definition ensure_row_contiguous_last_dims {A : Type} (arr : array A)
  : array A :=
  let stride_0 := at_dim (strides arr) (ndim arr - 2) in
  let stride_1 := at_dim (strides arr) (ndim arr - 1) in
  if (stride_0 =? shape_at arr (-1)) && (stride_1 =? 1) then arr
  else contiguous_copy arr.

(** [QuantizedMatmul::eval_cpu(inputs, out)]; [inputs] is
    [x_pre; w_pre; scales_pre; biases_pre], [mem] the allocation given
    to [out], and the task handed to the encoder is run.  The call of
    [_qmm_dispatch] passes [group_size_] before [bits_]. *)
Definition QuantizedMatmul_eval_cpu (prim : quantized_prim)
    (x_pre : array V) (w_pre : array Z) (scales_pre biases_pre : array V)
    (out : array V) (mem : buf V) : outcome (buf V) :=
  let x := ensure_row_contiguous x_pre in
  let w := ensure_row_contiguous w_pre in
  let scales := ensure_row_contiguous scales_pre in
  let biases := ensure_row_contiguous biases_pre in
  let out := set_data out mem in
  _qmm_dispatch out x w scales biases
    (group_size_ prim) (bits_ prim) (transpose_ prim).

(** [GatherQMM::eval_cpu(inputs, out)] *)
Definition GatherQMM_eval_cpu (prim : quantized_prim)
    (x_pre : array V) (w_pre : array Z) (scales_pre biases_pre : array V)
    (lhs_indices rhs_indices : array Z)
    (out : array V) (mem : buf V) : outcome (buf V) :=
  let x := ensure_row_contiguous_last_dims x_pre in
  let w := ensure_row_contiguous_last_dims w_pre in
  let scales := ensure_row_contiguous_last_dims scales_pre in
  let biases := ensure_row_contiguous_last_dims biases_pre in
  let out := set_data out mem in
  _bs_qmm_dispatch out x w scales biases lhs_indices rhs_indices
    (group_size_ prim) (bits_ prim) (transpose_ prim).

End Drivers.

(** ** Group-wise affine quantizer *)

(** The three outputs of [quantize]. *)
Record quantized (T : Type) : Type := mk_quantized {
  q_out : buf Z;
  q_scales : buf T;
  q_biases : buf T
}.
Arguments mk_quantized {T}.
Arguments q_out {T}.
Arguments q_scales {T}.
Arguments q_biases {T}.

Section Quantizer.
Context {T F : Type} {AF : Arith F} {CV : Conv T F}.

(** [float n_bins = (1 << bits) - 1] *)
Definition n_bins (bits : Z) : F := of_Z (Z.shiftl 1 bits - 1).

(** The loop computing [w_min] and [w_max] of the group at [w_idx]. *)
Definition group_min_max (w : buf T) (w_idx group_size : Z) : F * F :=
  for_lt group_size
    (fun j '(w_min, w_max) =>
       let w_max := std_max w_max (to_float (w (w_idx + j))) in
       let w_min := std_min w_min (to_float (w (w_idx + j))) in
       (w_min, w_max))
    (infinity, fneg infinity).

(** The [scale] and [bias] of a group with extrema [w_min], [w_max]. *)
Definition group_scale_bias (bits : Z) (w_min w_max : F) : F * F :=
  let mask := fltb (fabs w_max) (fabs w_min) in
  let scale := std_max (fdiv (fsub w_max w_min) (n_bins bits)) eps7 in
  let scale := if mask then scale else fneg scale in
  let edge := if mask then w_min else w_max in
  let q0 := frint (fdiv edge scale) in
  if negb (feqb q0 (of_Z 0)) then (fdiv edge q0, edge)
  else (scale, of_Z 0).

(** The code of one element: [w_el] after the rounding and the clamp,
    converted to [uint64_t]. *)
Definition quantize_el (bits : Z) (scale bias : F) (v : T) : Z :=
  let w_el := to_float v in
  let w_el := frint (fdiv (fsub w_el bias) scale) in
  let w_el := std_min (std_max w_el (of_Z 0)) (n_bins bits) in
  to_u64 w_el.

(** [quantize<T, U>(w, out, scales, biases, bits, group_size, w_size)];
    [castU] is the conversion to [U]. *)
Definition quantize (castU : Z -> Z) (w : buf T) (out : buf Z)
    (scales biases : buf T) (bits group_size w_size : Z) : quantized T :=
  let power_of_2_bits := is_power_of_2 bits in
  let el_per_int := get_pack_factor bits 32 in
  let bytes_per_pack := get_bytes_per_pack bits 8 in
  let int_per_group := Z.quot (group_size * bytes_per_pack) el_per_int in
  let n_groups := Z.quot w_size group_size in
  for_lt n_groups
    (fun i q =>
       let w_idx := i * group_size in
       let '(w_min, w_max) := group_min_max w w_idx group_size in
       let '(scale, bias) := group_scale_bias bits w_min w_max in
       let out_idx := i * int_per_group in
       let out :=
         for_lt (Z.quot int_per_group bytes_per_pack)
           (fun j out =>
              let out_el :=
                pack_el bits el_per_int
                  (fun k =>
                     quantize_el bits scale bias
                       (w (w_idx + j * el_per_int + k))) in
              store_el bits bytes_per_pack power_of_2_bits castU
                out out_idx j out_el)
           (q_out q) in
       mk_quantized out
         (upd (q_scales q) i (of_float scale))
         (upd (q_biases q) i (of_float bias)))
    (mk_quantized out scales biases).

(** [code * scale + bias], the value a kernel multiplies with. *)
Definition dequantize (scale bias : F) (code : Z) : F :=
  fadd (fmul scale (of_Z code)) bias.

End Quantizer.

(** ** Exact arithmetic

    The extended rationals: the arithmetic of [float] without rounding
    error, with the infinities the quantizer starts its extrema from and
    a [XNaN] for the undefined forms. *)

Inductive xreal : Type :=
| XFin (q : Q)
| XPinf
| XNinf
| XNaN.

Module Exact.

(** [std::rint] under the default rounding mode: to the nearest
    integer, ties to even. *)
Definition rint_Q (q : Q) : Z :=
  let f := Qfloor q in
  match Qcompare (q - inject_Z f) (1 # 2) with
  | Lt => f
  | Gt => f + 1
  | Eq => if Z.even f then f else f + 1
  end.

Definition is_zero (q : Q) : bool := Qeq_bool q 0.
Definition is_neg (q : Q) : bool := negb (Qle_bool 0 q).

Definition neg (a : xreal) : xreal :=
  match a with
  | XFin q => XFin (- q)
  | XPinf => XNinf
  | XNinf => XPinf
  | XNaN => XNaN
  end.

Definition abs (a : xreal) : xreal :=
  match a with
  | XFin q => XFin (Qabs q)
  | XPinf | XNinf => XPinf
  | XNaN => XNaN
  end.

Definition add (a b : xreal) : xreal :=
  match a, b with
  | XFin p, XFin q => XFin (p + q)
  | XNaN, _ | _, XNaN => XNaN
  | XPinf, XNinf | XNinf, XPinf => XNaN
  | XPinf, _ | _, XPinf => XPinf
  | XNinf, _ | _, XNinf => XNinf
  end.

Definition sub (a b : xreal) : xreal := add a (neg b).

(** The infinity of the sign of [q] times the sign of [pos]. *)
Definition signed_inf (negative : bool) : xreal :=
  if negative then XNinf else XPinf.

Definition mul (a b : xreal) : xreal :=
  match a, b with
  | XFin p, XFin q => XFin (p * q)
  | XNaN, _ | _, XNaN => XNaN
  | XFin p, XPinf | XPinf, XFin p =>
      if is_zero p then XNaN else signed_inf (is_neg p)
  | XFin p, XNinf | XNinf, XFin p =>
      if is_zero p then XNaN else signed_inf (negb (is_neg p))
  | XPinf, XPinf | XNinf, XNinf => XPinf
  | XPinf, XNinf | XNinf, XPinf => XNinf
  end.

Definition div (a b : xreal) : xreal :=
  match a, b with
  | XFin p, XFin q =>
      if is_zero q
      then if is_zero p then XNaN else signed_inf (is_neg p)
      else XFin (p / q)
  | XNaN, _ | _, XNaN => XNaN
  | XFin _, _ => XFin 0
  | XPinf, XFin q => signed_inf (is_neg q)
  | XNinf, XFin q => signed_inf (negb (is_neg q))
  | _, _ => XNaN
  end.

Definition rint (a : xreal) : xreal :=
  match a with
  | XFin q => XFin (inject_Z (rint_Q q))
  | _ => a
  end.

Definition ltb (a b : xreal) : bool :=
  match a, b with
  | XFin p, XFin q => negb (Qle_bool q p)
  | XNaN, _ | _, XNaN => false
  | XNinf, XNinf | XPinf, _ => false
  | XNinf, _ => true
  | XFin _, XPinf => true
  | XFin _, XNinf => false
  end.

Definition eqb (a b : xreal) : bool :=
  match a, b with
  | XFin p, XFin q => Qeq_bool p q
  | XPinf, XPinf | XNinf, XNinf => true
  | _, _ => false
  end.

(** [static_cast<uint64_t>]: truncation; the conversion of a value out
    of range, undefined in the source, is [0] here. *)
Definition to_u64 (a : xreal) : Z :=
  match a with
  | XFin q =>
      let t := Qfloor q in
      if (0 <=? t) && (t <? 2 ^ 64) then t else 0
  | _ => 0
  end.

End Exact.

#[export] Instance exact_arith : Arith xreal := {|
  of_Z := fun z => XFin (inject_Z z);
  fadd := Exact.add;
  fsub := Exact.sub;
  fmul := Exact.mul;
  fdiv := Exact.div;
  fneg := Exact.neg;
  fabs := Exact.abs;
  frint := Exact.rint;
  fltb := Exact.ltb;
  feqb := Exact.eqb;
  to_u64 := Exact.to_u64;
  infinity := XPinf;
  eps7 := XFin (1 # 10000000)
|}.

(** ** Binary32

    [float] as the binary32 format of IEEE 754: the numbers of
    [SpecFloat] with a precision of 24 bits and the infinities at the
    exponent 128, every operation rounded to nearest, ties to even.  A
    finite number [S754_finite s m e] is [(-1)^s * m * 2^e]. *)

Module B32.

Definition prec : Z := 24.
Definition emax : Z := 128.

(** The conversion of an integer, rounded. *)
Definition of_int (z : Z) : spec_float := binary_normalize prec emax z 0 false.

(** [m * 2^e], rounded. *)
Definition of_dyadic (m e : Z) : spec_float :=
  binary_normalize prec emax m e false.

(** [m / d] rounded to the nearest integer, ties to even. *)
Definition nearest_even (m d : Z) : Z :=
  let q := m / d in
  let r := m mod d in
  match 2 * r ?= d with
  | Lt => q
  | Gt => q + 1
  | Eq => if Z.even q then q else q + 1
  end.

(** [std::rint] under the default rounding mode: to the nearest
    integer, ties to even.  A number with a non-negative exponent is an
    integer; zeros, infinities and NaN are returned as they are; a zero
    result has the sign of the argument. *)
Definition rint (x : spec_float) : spec_float :=
  match x with
  | S754_finite s m (Zneg k) =>
      binary_normalize prec emax
        (cond_Zopp s (nearest_even (Zpos m) (2 ^ Zpos k))) 0 s
  | _ => x
  end.

(** [static_cast<uint64_t>]: truncation; the conversion of a value out
    of range, undefined in the source, is [0] here. *)
Definition to_u64 (x : spec_float) : Z :=
  match x with
  | S754_finite false m e =>
      let t := match e with
               | Zneg k => Zpos m / 2 ^ Zpos k
               | _ => Zpos m * 2 ^ e
               end in
      if t <? 2 ^ 64 then t else 0
  | _ => 0
  end.

(** The literal [1e-7] as a [float]: [14073749 * 2^-47], the binary32
    number nearest to it. *)
Definition eps : spec_float := S754_finite false 14073749 (-47).

End B32.

#[export] Instance binary32_arith : Arith spec_float := {|
  of_Z := B32.of_int;
  fadd := SFadd B32.prec B32.emax;
  fsub := SFsub B32.prec B32.emax;
  fmul := SFmul B32.prec B32.emax;
  fdiv := SFdiv B32.prec B32.emax;
  fneg := SFopp;
  fabs := SFabs;
  frint := B32.rint;
  fltb := SFltb;
  feqb := SFeqb;
  to_u64 := B32.to_u64;
  infinity := S754_infinity false;
  eps7 := B32.eps
|}.

(** [T = float]: both conversions are the identity. *)
#[export] Instance conv_id (F : Type) : Conv F F := {|
  to_float := fun v => v;
  of_float := fun v => v
|}.

(** A horizontal reduction: the lanes added from the first to the last. *)
Definition lane_sum {F : Type} {AF : Arith F} (lanes : list F) : F :=
  fold_left fadd lanes (of_Z 0).

(** Modelled from the spec: [elem_to_loc] belongs to the tensor
    abstraction, whose sources are not at hand.  It is the
    element-offset-from-multi-index computation over shape and stride
    metadata: the index [elem] is split into its coordinates, innermost
    dimension first, and each coordinate is multiplied by its stride. *)
Fixpoint elem_to_loc_rev (elem : Z) (shape_rev strides_rev : list Z) : Z :=
  match shape_rev, strides_rev with
  | d :: ds, s :: ss =>
      Z.rem elem d * s + elem_to_loc_rev (Z.quot elem d) ds ss
  | _, _ => 0
  end.

Definition elem_to_loc_std (elem : Z) (shape strides : list Z) : Z :=
  elem_to_loc_rev elem (rev shape) (rev strides).

(** The carrier of every floating array is [xreal]; the three element
    types compute exactly. *)
Definition exact_arith_of (d : Dtype) : Arith xreal := exact_arith.
Definition exact_conv_of (d : Dtype) : Conv xreal xreal := conv_id xreal.

(** SIMD widths: eight lanes for [float], none for the others. *)
Definition max_size_example (d : Dtype) : Z :=
  match d with
  | float32 => 8
  | _ => 1
  end.

(** The copy of an array that is already row contiguous: its own
    contents.  The example inputs are all of this kind. *)
Definition copy_example (A : Type) (arr : array A) : buf A := data arr.

(** Row-major strides of a shape. *)
Fixpoint row_major (shape : list Z) : list Z :=
  match shape with
  | [] => []
  | _ :: rest => fold_right Z.mul 1 rest :: row_major rest
  end.

(** ** Proof support: bit operations as arithmetic *)

(** Number of trailing zero bits of a mask. *)
Fixpoint ctz_pos (p : positive) : Z :=
  match p with
  | xO p' => 1 + ctz_pos p'
  | _ => 0
  end.

Definition ctz (m : Z) : Z :=
  match m with
  | Zpos p => ctz_pos p
  | _ => 0
  end.

Ltac is_pos_cst p :=
  match p with
  | xH => idtac
  | xO ?q => is_pos_cst q
  | xI ?q => is_pos_cst q
  end.

Ltac is_Z_cst t :=
  match t with
  | Z0 => idtac
  | Zpos ?p => is_pos_cst p
  | Zneg ?p => is_pos_cst p
  end.

(** Evaluate the closed powers of two of the goal. *)
Ltac eval_pow2 :=
  repeat match goal with
  | |- context [Z.pow 2 ?e] =>
      let v := eval vm_compute in (Z.pow 2 e) in
      is_Z_cst v; change (Z.pow 2 e) with v
  end.

(** Rewrite [Z.land] with a constant mask of contiguous ones, and
    constant shifts, into division, remainder and multiplication;
    [land_mask] is the lemma relating a mask to its quotient form. *)
Ltac land_to_mod land_mask :=
  repeat match goal with
  | |- context [Z.land ?x ?m] =>
      is_Z_cst m;
      let s := eval vm_compute in (ctz m) in
      let k := eval vm_compute in (Z.log2 (Z.shiftr m s) + 1) in
      let p := eval vm_compute in (2 ^ s) in
      let q := eval vm_compute in (2 ^ k) in
      replace (Z.land x m) with (((x / p) mod q) * p)
        by (symmetry; apply (land_mask x m k s); [reflexivity | lia | lia])
  end.

Ltac shifts_to_arith :=
  repeat match goal with
  | |- context [Z.shiftr ?x ?n] =>
      is_Z_cst n;
      let p := eval vm_compute in (2 ^ n) in
      replace (Z.shiftr x n) with (x / p)
        by (symmetry; apply (Z.shiftr_div_pow2 x n); lia)
  | |- context [Z.shiftl ?x ?n] =>
      is_Z_cst n;
      let p := eval vm_compute in (2 ^ n) in
      replace (Z.shiftl x n) with (x * p)
        by (symmetry; apply (Z.shiftl_mul_pow2 x n); lia)
  end.

Ltac bits_to_arith land_mask := land_to_mod land_mask; shifts_to_arith.

Ltac divmod_lia := Z.to_euclidean_division_equations; lia.

(** Evaluate the closed integer operations of the goal. *)
Ltac eval_closed :=
  repeat match goal with
  | |- context [?op ?a ?b] =>
      is_Z_cst a; is_Z_cst b;
      lazymatch op with
      | Z.add => idtac | Z.mul => idtac | Z.sub => idtac
      | Z.div => idtac | Z.modulo => idtac | Z.quot => idtac | Z.rem => idtac
      | Z.land => idtac | Z.pow => idtac | Z.shiftl => idtac
      | Z.shiftr => idtac
      | Z.eqb => idtac | Z.ltb => idtac | Z.gtb => idtac | Z.leb => idtac
      end;
      let v := eval vm_compute in (op a b) in
      change (op a b) with v
  end.

(** Unfold the codec on a concrete bit width, leaving the arithmetic on
    the packed value untouched. *)
Ltac codec_eval :=
  repeat (progress
    (cbv -[Z.add Z.mul Z.sub Z.div Z.modulo Z.quot Z.rem Z.land Z.lor Z.pow
           Z.shiftl Z.shiftr Z.eqb Z.ltb Z.gtb Z.leb];
     eval_closed)).

(** Split an equation between two explicit lists of the same length. *)
Ltac list_eq tac :=
  repeat match goal with
  | |- cons _ _ = cons _ _ => apply (f_equal2 cons); [solve [tac] |]
  end; try reflexivity.

(** ** Reference notions the properties are stated against *)

(** The [n] low digits of [E] in base [2 ^ bits], least significant
    first. *)
Definition digits (bits : Z) (n : nat) (E : Z) : list Z :=
  map (fun k => (E / 2 ^ (bits * Z.of_nat k)) mod 2 ^ bits) (seq 0 n).

(** The integer whose digits in base [2 ^ bits] are [codes]. *)
Definition pack_value (bits : Z) (codes : list Z) : Z :=
  fold_right (fun c acc => c + 2 ^ bits * acc) 0 codes.

(** A code of [bits] bits. *)
Definition in_range (bits : Z) (c : Z) : Prop := 0 <= c <= 2 ^ bits - 1.

(** Two buffers agree on the positions [S] of the second, the first
    being read [delta] further. *)
Definition agree_on {A : Type} (S : Z -> Prop) (delta : Z) (r1 r2 : buf A)
  : Prop :=
  forall p, S p -> r1 (p + delta) = r2 p.

(** [r] still holds what [r0] held at every position below [lo]. *)
Definition unchanged_below {A : Type} (lo : Z) (r r0 : buf A) : Prop :=
  forall p, p < lo -> r p = r0 p.

(** Relations between the states of two runs of a kernel.  The second
    run writes at [p] what the first writes at [p + delta]; the first
    run started at [rp1] on the buffer [init1]; [S] is the set of
    positions on which the two output buffers are known to agree. *)
Section RunRelations.
Context {T : Type}.
Variables (delta rp1 : Z) (init1 : buf T) (S : Z -> Prop).

Definition acc_rel (a1 a2 : qmm_acc T) : Prop :=
  qa_result_local a1 = qa_result_local a2 + delta
  /\ qa_w_local a1 = qa_w_local a2
  /\ agree_on S delta (qa_res a1) (qa_res a2)
  /\ rp1 <= qa_result_local a1
  /\ unchanged_below rp1 (qa_res a1) init1.

Definition row_rel (r1 r2 : qmm_row T) : Prop :=
  acc_rel (qr_acc r1) (qr_acc r2)
  /\ qr_scales_local r1 = qr_scales_local r2
  /\ qr_biases_local r1 = qr_biases_local r2
  /\ qr_x r1 = qr_x r2.
End RunRelations.

(** The same for the loops over [m] and [n], where the buffers agree on
    everything written so far: the positions from [rp2] up to the
    cursor of the second run. *)
Section RowRelations.
Context {T : Type}.
Variables (delta rp1 rp2 : Z) (init1 : buf T).

Definition kernel_rel (s1 s2 : kernel_m T) : Prop :=
  km_result s1 = km_result s2 + delta
  /\ km_x s1 = km_x s2
  /\ rp1 <= km_result s1
  /\ agree_on (fun p => rp2 <= p < km_result s2) delta
       (km_res s1) (km_res s2)
  /\ unchanged_below rp1 (km_res s1) init1.

Definition t_row_rel (r1 r2 : qmm_t_row T) : Prop :=
  qt_result r1 = qt_result r2 + delta
  /\ qt_w_local r1 = qt_w_local r2
  /\ qt_scales_local r1 = qt_scales_local r2
  /\ qt_biases_local r1 = qt_biases_local r2
  /\ rp1 <= qt_result r1
  /\ agree_on (fun p => rp2 <= p < qt_result r2) delta
       (qt_res r1) (qt_res r2)
  /\ unchanged_below rp1 (qt_res r1) init1.
End RowRelations.

(** Two outcomes are related when both return, in related states, or
    both throw the same exception. *)
Definition outcome_rel {St1 St2 : Type} (R : St1 -> St2 -> Prop)
    (o1 : outcome St1) (o2 : outcome St2) : Prop :=
  match o1, o2 with
  | Done a, Done b => R a b
  | Throw e1 _, Throw e2 _ => e1 = e2
  | _, _ => False
  end.

(** The pairs [(bits, S)] the SIMD decoder is written for. *)
Definition simd_supported (bits max_size : Z) : Prop :=
  (bits = 4 \/ bits = 8) /\ max_size = 8.

(** ** Reference semantics of the quantized matmul *)

(** The code of the element with linear index [e] of the packed
    weights: element [e mod pack_factor] of pack [e / pack_factor]. *)
Definition code_at (bits : Z) (wb : buf Z) (e : Z) : Z :=
  let pf := get_pack_factor bits 8 in
  nth (Z.to_nat (e mod pf))
      (decode_pack bits (shift wb (e / pf * get_bytes_per_pack bits 8))) 0.

Section MatmulSpec.
Context {T : Type} {AT : Arith T}.

(** [scale * code + bias] with the scale and bias of the group of
    element [e]. *)
Definition dequant_at (bits group_size : Z) (wb : buf Z)
    (scales biases : buf T) (e : Z) : T :=
  fadd (fmul (scales (e / group_size)) (of_Z (code_at bits wb e)))
       (biases (e / group_size)).

(** [init + term 0 + term 1 + ... + term (n - 1)], added in this
    order. *)
Definition sum_from (init : T) (n : nat) (term : Z -> T) : T :=
  fold_left (fun acc k => fadd acc (term (Z.of_nat k))) (seq 0 n) init.

(** Element [(m, n)] of the product: the sum over [k] of
    [x[m,k] * dequant(pos k)], from zero. *)
Definition matmul_entry (bits group_size : Z) (x : buf T) (wb : buf Z)
    (scales biases : buf T) (K m : Z) (pos : Z -> Z) : T :=
  sum_from (of_Z 0) (Z.to_nat K)
    (fun k =>
       fmul (x (m * K + k))
            (dequant_at bits group_size wb scales biases (pos k))).

(** The term of the element [i] places after pack [q0], multiplied
    with [x[xl + i]]; [scale i] and [bias i] are its scale and bias. *)
Definition t_term (bits : Z) (x : buf T) (wb : buf Z) (xl q0 : Z)
    (scale bias : Z -> T) (i : Z) : T :=
  fmul (x (xl + i))
    (fadd
       (fmul (scale i)
          (of_Z (code_at bits wb (q0 * get_pack_factor bits 8 + i))))
       (bias i)).

(** [res] is [res0] with [V (p - lo)] added to each position [p] of
    [lo, lo + len). *)
Definition added (res0 : buf T) (lo len : Z) (V : Z -> T) (res : buf T)
  : Prop :=
  forall p,
    res p = if (lo <=? p) && (p <? lo + len)
            then fadd (res0 p) (V (p - lo)) else res0 p.
End MatmulSpec.

(** The SIMD widths for which every selection of the SIMD kernel falls
    on a pair its decoder is written for: a width that is a multiple of
    four is eight. *)
Definition simd_width_ok (max_size : Z) : Prop :=
  Z.rem max_size 4 = 0 -> max_size = 8.

(** The outcome relation of two runs of a matmul on the output buffers
    [res1] (at [rp1]) and a second one (at [rp2]): the [len] elements
    written are the same, and the first run leaves the positions below
    [rp1] untouched. *)
Definition same_output {T : Type} (rp1 rp2 len : Z) (res1 : buf T)
    (o1 o2 : outcome (buf T)) : Prop :=
  outcome_rel
    (fun b1 b2 =>
       agree_on (fun p => rp2 <= p < rp2 + len) (rp1 - rp2) b1 b2
       /\ unchanged_below rp1 b1 res1)
    o1 o2.

(** ** Reference notions for the drivers *)

Section DriverSpec.
Context {V F : Type} {AF : Arith F} {AT : Arith V} {CV : Conv V F}.
Variable simd_sum : list F -> F.
Variable elem_to_loc : Z -> list Z -> list Z -> Z.
Variable max_size : Z.

(** The value of an index array at position [i]. *)
Definition index_at (indices : array Z) (i : Z) : Z :=
  data indices (elem_to_loc i (shape indices) (strides indices)).

(** The sub-buffer of batch [idx] of an array whose batches hold [els]
    elements, located through the array's shape and strides. *)
Definition batch_of {A : Type} (a : array A) (els idx : Z) : buf A :=
  shift (data a) (elem_to_loc (idx * els) (shape a) (strides a)).

(** The matmul of activation batch [x_idx] against the weight, scales
    and biases of batch [w_idx], written at the start of [ref]. *)
Definition batch_matmul (ref : buf V) (x : array V) (w : array Z)
    (scales biases : array V) (N x_idx w_idx : Z)
    (group_size bits : Z) (transposed_w : bool) : outcome (buf V) :=
  let K := shape_at x (-1) in
  let M := shape_at x (-2) in
  let w_els := shape_at w (-1) * shape_at w (-2) in
  let g_els := shape_at scales (-1) * shape_at scales (-2) in
  _qmm_dispatch_typed simd_sum max_size ref 0
    (batch_of x (M * K) x_idx) (batch_of w w_els w_idx)
    (batch_of scales g_els w_idx) (batch_of biases g_els w_idx)
    M N K group_size bits transposed_w.
End DriverSpec.

(** The drivers with the call made for each batch left open: [kernel]
    receives the output buffer and offset, the four input pointers and
    the sizes [M], [N], [K]. *)
Section DriverShapes.
Context {V : Type}.
Variable elem_to_loc : Z -> list Z -> list Z -> Z.
Variable kernel :
  buf V -> Z -> buf V -> buf Z -> buf V -> buf V -> Z -> Z -> Z ->
  outcome (buf V).

Definition dense_with (out x : array V) (w : array Z)
    (scales biases : array V) : outcome (buf V) :=
  let K := shape_at x (-1) in
  let M := if ndim x >? 1 then shape_at x (-2) else 1 in
  let N := shape_at out (-1) in
  let w_els := if ndim w >? 2 then shape_at w (-1) * shape_at w (-2)
               else 0 in
  let g_els := if ndim w >? 2
               then shape_at scales (-1) * shape_at scales (-2) else 0 in
  for_lt_o (Z.quot (size x) (K * M))
    (fun i res =>
       kernel res (i * M * N)
         (batch_of elem_to_loc x (M * K) i)
         (batch_of elem_to_loc w w_els i)
         (batch_of elem_to_loc scales g_els i)
         (batch_of elem_to_loc biases g_els i) M N K)
    (data out).

Definition gathered_with (out x : array V) (w : array Z)
    (scales biases : array V) (lhs_indices rhs_indices : array Z)
  : outcome (buf V) :=
  let K := shape_at x (-1) in
  let M := shape_at x (-2) in
  let N := shape_at out (-1) in
  let w_els := shape_at w (-1) * shape_at w (-2) in
  let g_els := shape_at scales (-1) * shape_at scales (-2) in
  for_lt_o (size lhs_indices)
    (fun i res =>
       kernel res (i * M * N)
         (batch_of elem_to_loc x (M * K)
            (index_at elem_to_loc lhs_indices i))
         (batch_of elem_to_loc w w_els
            (index_at elem_to_loc rhs_indices i))
         (batch_of elem_to_loc scales g_els
            (index_at elem_to_loc rhs_indices i))
         (batch_of elem_to_loc biases g_els
            (index_at elem_to_loc rhs_indices i)) M N K)
    (data out).
End DriverShapes.

(** The element types the matmul accepts. *)
Definition is_floating (d : Dtype) : Prop :=
  d = float32 \/ d = float16 \/ d = bfloat16.

(** ** Reference notions for the quantizer *)

Section QuantizerSpec.
Context {F : Type} {AF : Arith F}.

(** The scale and bias of a group with extrema [w_min] and [w_max],
    in the words of the specification: [scale = max((w_max - w_min) /
    (2^bits - 1), 1e-7)]; if [|w_min| > |w_max|] the scale stays
    positive and the edge is [w_min], otherwise the scale is negated
    and the edge is [w_max]; with [q0 = round(edge / scale)], if
    [q0 != 0] then [scale = edge / q0] and [bias = edge], otherwise
    [bias = 0]. *)
Definition spec_scale_bias (bits : Z) (w_min w_max : F) : F * F :=
  let n_bins := of_Z (2 ^ bits - 1) in
  let scale := std_max (fdiv (fsub w_max w_min) n_bins) eps7 in
  let magnitude_of_min_larger := fltb (fabs w_max) (fabs w_min) in
  let scale := if magnitude_of_min_larger then scale else fneg scale in
  let edge := if magnitude_of_min_larger then w_min else w_max in
  let q0 := frint (fdiv edge scale) in
  if feqb q0 (of_Z 0) then (scale, of_Z 0) else (fdiv edge q0, edge).

(** The extremum the quantizer anchors the bias at. *)
Definition edge_of (w_min w_max : F) : F :=
  if fltb (fabs w_max) (fabs w_min) then w_min else w_max.

(** [q0], the rounded quotient of the edge by the first scale. *)
Definition q0_of (bits : Z) (w_min w_max : F) : F :=
  let scale := std_max (fdiv (fsub w_max w_min) (n_bins bits)) eps7 in
  let scale := if fltb (fabs w_max) (fabs w_min) then scale
               else fneg scale in
  frint (fdiv (edge_of w_min w_max) scale).

(** Quantizing [v] with [scale] and [bias] and dequantizing the code. *)
Definition round_trip (bits : Z) (scale bias v : F) : F :=
  dequantize scale bias
    (quantize_el (CV := conv_id F) bits scale bias v).

(** [|a - b| <= |scale| / 2], decided with the comparisons of [F]. *)
Definition within_half_step (scale a b : F) : Prop :=
  fltb (fdiv (fabs scale) (of_Z 2)) (fabs (fsub a b)) = false.

(** The round-trip property as the specification words it, for the
    group of [group_size] values at the start of [w]: the extremum of
    larger magnitude comes back exactly, every value comes back within
    half a step. *)
Definition round_trip_claim (bits group_size : Z) (w : buf F) : Prop :=
  let '(w_min, w_max) :=
    group_min_max (CV := conv_id F) w 0 group_size in
  let '(scale, bias) := group_scale_bias bits w_min w_max in
  feqb (round_trip bits scale bias (edge_of w_min w_max))
       (edge_of w_min w_max) = true
  /\ forall j, 0 <= j < group_size ->
       within_half_step scale (round_trip bits scale bias (w j)) (w j).

(** The code of [v] before the clamp to [0, n_bins]. *)
Definition raw_code (scale bias v : F) : F :=
  frint (fdiv (fsub v bias) scale).

(** The clamp leaves the code of [v] as it is. *)
Definition unclamped (bits : Z) (scale bias v : F) : Prop :=
  fltb (raw_code scale bias v) (of_Z 0) = false
  /\ fltb (n_bins bits) (raw_code scale bias v) = false.
End QuantizerSpec.

Section QuantizerAmended.
Context {F : Type} {AF : Arith F}.

(** The round-trip property that holds: when [q0] is not zero the
    extremum of larger magnitude comes back exactly, and every value
    whose code the clamp leaves alone comes back within half a step. *)
Definition round_trip_amended (bits group_size : Z) (w : buf F) : Prop :=
  let '(w_min, w_max) :=
    group_min_max (CV := conv_id F) w 0 group_size in
  let '(scale, bias) := group_scale_bias bits w_min w_max in
  (feqb (q0_of bits w_min w_max) (of_Z 0) = false ->
   feqb (round_trip bits scale bias (edge_of w_min w_max))
        (edge_of w_min w_max) = true)
  /\ forall j, 0 <= j < group_size ->
       unclamped bits scale bias (w j) ->
       within_half_step scale (round_trip bits scale bias (w j)) (w j).
End QuantizerAmended.

(** ** The round trip in binary32 *)

(** The rational a finite binary32 number stands for. *)
Definition b32_value (x : spec_float) : Q :=
  match x with
  | S754_finite s m (Zneg k) => cond_Zopp s (Zpos m) # 2 ^ k
  | S754_finite s m e => inject_Z (cond_Zopp s (Zpos m) * 2 ^ e)
  | _ => 0
  end.

(** A binary32 number: a zero, or a finite number in the canonical
    form of the format (a mantissa of at most 24 bits). *)
Definition b32_number (x : spec_float) : Prop :=
  valid_binary B32.prec B32.emax x = true
  /\ match x with
     | S754_zero _ | S754_finite _ _ _ => True
     | _ => False
     end.

(** A finite number other than zero. *)
Definition b32_nonzero (x : spec_float) : Prop :=
  exists s m e, x = S754_finite s m e.

(** The round-trip property that holds of the quantizer, whose
    arithmetic is that of [float], on weights of a type [T]: when [q0]
    is not zero and the scale is a finite number other than zero, the
    extremum of larger magnitude comes back exactly; and the code of
    every value the clamp leaves alone is within one half of the
    quotient [(w - bias) / scale] as [float] computes it. *)
Definition round_trip_kept {T : Type} {CV : Conv T spec_float}
    (bits group_size : Z) (w : buf T) : Prop :=
  let '(w_min, w_max) := group_min_max w 0 group_size in
  let '(scale, bias) := group_scale_bias bits w_min w_max in
  (feqb (q0_of bits w_min w_max) (of_Z 0) = false ->
   b32_nonzero scale ->
   round_trip bits scale bias (edge_of w_min w_max) = edge_of w_min w_max)
  /\ forall j, 0 <= j < group_size ->
       let y := fdiv (fsub (to_float (w j)) bias) scale in
       b32_number y -> unclamped bits scale bias (to_float (w j)) ->
       (Qabs (inject_Z (quantize_el bits scale bias (w j)) - b32_value y)
        <= 1 # 2)%Q.

(** The group of 32 copies of [2^-30] and the group [-7.625], [7.375]
    and zeros, as [float]s. *)
Definition tiny_floats : buf spec_float := fun _ => B32.of_dyadic 1 (-30).

Definition skewed_floats : buf spec_float :=
  fun i =>
    if i =? 0 then B32.of_dyadic (-61) (-3)
    else if i =? 1 then B32.of_dyadic 59 (-3) else S754_zero false.

(** A group with a value whose quotient [(w - bias) / scale] is rounded
    by [float] onto a tie: [-7.625], [7.375], [1.4296875 - 2^-23] and
    zeros. *)
Definition near_tie_group : buf spec_float :=
  fun i =>
    if i =? 0 then B32.of_dyadic (-61) (-3)
    else if i =? 1 then B32.of_dyadic 59 (-3)
    else if i =? 2 then B32.of_dyadic 11993087 (-23)
    else S754_zero false.

(** A finite value of the exact arithmetic. *)
Definition finite (v : xreal) : Prop := exists q, v = XFin q.

(** A group whose two extrema are within half of [1e-7] of zero: 32
    copies of [2^-30]. *)
Definition tiny_group : buf xreal := fun _ => XFin (1 # 1073741824).

(** A group whose maximum is clamped: [-7.625], [7.375] and zeros. *)
Definition skewed_group : buf xreal :=
  fun i =>
    if i =? 0 then XFin (-61 # 8)
    else if i =? 1 then XFin (59 # 8) else XFin 0.

(** ** Example data

    Two activation batches of one row of 32 values, two weight batches
    of one row of 32 four-bit codes (four words), one group per row, and
    the index arrays [0; 0; 1] and [1; 0; 0]. *)
Definition ex_x : array xreal :=
  mk_array float32 [2; 1; 32] [32; 32; 1] true
    (fun i => XFin (inject_Z (i + 1))).

Definition ex_w : array Z :=
  mk_array uint32 [2; 1; 4] [4; 4; 1] true
    (fun i => if i <? 4 then 0x76543210 else 0xfedcba98).

Definition ex_scales : array xreal :=
  mk_array float32 [2; 1; 1] [1; 1; 1] true
    (fun i => if i =? 0 then XFin (1 # 2) else XFin (1 # 4)).

Definition ex_biases : array xreal :=
  mk_array float32 [2; 1; 1] [1; 1; 1] true
    (fun i => if i =? 0 then XFin (-1) else XFin 3).

Definition ex_out : array xreal :=
  mk_array float32 [3; 1; 1] [1; 1; 1] true (fun _ => XNaN).

Definition ex_lhs : array Z :=
  mk_array uint32 [3] [1] true (fun i => nth (Z.to_nat i) [0; 0; 1] 0).

Definition ex_rhs : array Z :=
  mk_array uint32 [3] [1] true (fun i => nth (Z.to_nat i) [1; 0; 0] 0).

Definition ex_prim : quantized_prim := mk_quantized_prim 32 4 true.

(** ** The entry point of the quantizer *)

Section QuantizeEntry.
Context {V F : Type} {AF : Arith F}.

(** The conversions between [float] and each of [float16_t],
    [bfloat16_t] and [float]. *)
Variable conv_of : Dtype -> Conv V F.
Variable copy_cpu : forall A : Type, array A -> buf A.
Variable default_strides : list Z -> list Z.

(** [dispatch_quantize<T, U>(w, out, scales, biases, bits, group_size)];
    [castU] is the conversion to [U]. *)
Definition dispatch_quantize (CV : Conv V F) (castU : Z -> Z)
    (w : array V) (out : array Z) (scales biases : array V)
    (bits group_size : Z) : quantized V :=
  quantize (CV := CV) castU (data w) (data out) (data scales) (data biases)
    bits group_size (size w).

Definition only_floating_inputs : exn :=
  runtime_error
    "[fast::AffineQuantize::eval_cpu] Only supports floating point inputs".

(** [fast::AffineQuantize::eval_cpu(inputs, outputs)]: [inputs[0]] is
    [w_pre], [outputs] are [out], [scales] and [biases], which receive
    the allocations [mem_out], [mem_scales] and [mem_biases]; [bits_]
    and [group_size_] are the members of the primitive, and the task
    handed to the encoder is run. *)
Definition AffineQuantize_eval_cpu (group_size_ bits_ : Z)
    (w_pre : array V) (out : array Z) (scales biases : array V)
    (mem_out : buf Z) (mem_scales mem_biases : buf V)
  : outcome (quantized V) :=
  let w := ensure_row_contiguous copy_cpu default_strides w_pre in
  let out := set_data out mem_out in
  let scales := set_data scales mem_scales in
  let biases := set_data biases mem_biases in
  match dtype w with
  | float16 =>
      if is_power_of_2 bits_
      then Done (dispatch_quantize (conv_of float16) u32
                   w out scales biases bits_ group_size_)
      else Done (dispatch_quantize (conv_of float16) u8
                   w out scales biases bits_ group_size_)
  | bfloat16 =>
      if is_power_of_2 bits_
      then Done (dispatch_quantize (conv_of bfloat16) u32
                   w out scales biases bits_ group_size_)
      else Done (dispatch_quantize (conv_of bfloat16) u8
                   w out scales biases bits_ group_size_)
  | float32 =>
      if is_power_of_2 bits_
      then Done (dispatch_quantize (conv_of float32) u32
                   w out scales biases bits_ group_size_)
      else Done (dispatch_quantize (conv_of float32) u8
                   w out scales biases bits_ group_size_)
  | _ =>
      Throw only_floating_inputs
        (mk_quantized (data out) (data scales) (data biases))
  end.
End QuantizeEntry.

(** ** Reference semantics of the SIMD kernel *)

Section SimdSpec.
Context {T F : Type} {AF : Arith F} {CV : Conv T F}.
Variables (bits group_size : Z).
Variables (x : buf T) (wb : buf Z) (scales biases : buf T).

(** The product a lane adds for the activation at [xi] and the weight
    element [e], with the scale and bias [scale] and [bias]:
    [x * (code * scale + bias)], computed in [float]. *)
Definition lane_term (scale bias : T) (xi e : Z) : F :=
  fmul (to_float (x xi))
       (fadd (fmul (of_Z (code_at bits wb e)) (to_float scale))
             (to_float bias)).

(** Lane [l] of the accumulator of output element [(m, n)]: the sum,
    from zero and in increasing [c], of the products of the elements
    [8 * c + l] of row [m] of the activation and of row [n] of the
    weights, each with the scale and bias of its group. *)
Definition simd_lane (K m n l : Z) : F :=
  sum_from (of_Z 0) (Z.to_nat (K / 8))
    (fun c =>
       let e := n * K + 8 * c + l in
       lane_term (scales (e / group_size)) (biases (e / group_size))
         (m * K + 8 * c + l) e).

(** The eight lanes of output element [(m, n)]. *)
Definition simd_lanes (K m n : Z) : list F :=
  map (simd_lane K m n) [0; 1; 2; 3; 4; 5; 6; 7].
End SimdSpec.

(** ** Reference notions for the output of the quantizer *)

Section QuantizerLayout.
Context {T F : Type} {AF : Arith F} {CV : Conv T F}.
Variables (bits group_size : Z) (w : buf T).

(** The scale and the bias [quantize] computes for group [g]. *)
Definition group_params (g : Z) : F * F :=
  let '(w_min, w_max) := group_min_max w (g * group_size) group_size in
  group_scale_bias bits w_min w_max.

(** The code [quantize] gives element [e]: the one of [quantize_el]
    with the scale and bias of the group of [e]. *)
Definition element_code (e : Z) : Z :=
  let '(scale, bias) := group_params (e / group_size) in
  quantize_el bits scale bias (w e).

(** The value [out_el] of storage unit [u]: the codes of the elements
    [u * el_per_int + k] packed by [pack_el]. *)
Definition unit_value (u : Z) : Z :=
  pack_el bits (get_pack_factor bits 32)
    (fun k => element_code (u * get_pack_factor bits 32 + k)).
End QuantizerLayout.

(** A storage unit holding [E], stored alone at the start of an array of
    zeros. *)
Definition unit_store (bits E : Z) : buf Z :=
  store_el bits (get_bytes_per_pack bits 8) (is_power_of_2 bits)
    (castU_of bits) (fun _ => 0) 0 0 E.

(** The number of elements of [out] a storage unit takes: one word, or
    [bytes_per_pack] bytes. *)
Definition unit_stride (bits : Z) : Z :=
  if is_power_of_2 bits then 1 else get_bytes_per_pack bits 8.

(** Evaluate the layout constants of a concrete bit width. *)
Ltac eval_layout :=
  repeat match goal with
  | |- context [get_bytes_per_pack ?a ?b] =>
      is_Z_cst a; is_Z_cst b;
      let v := eval vm_compute in (get_bytes_per_pack a b) in
      change (get_bytes_per_pack a b) with v
  | |- context [get_pack_factor ?a ?b] =>
      is_Z_cst a; is_Z_cst b;
      let v := eval vm_compute in (get_pack_factor a b) in
      change (get_pack_factor a b) with v
  | |- context [is_power_of_2 ?a] =>
      is_Z_cst a;
      let v := eval vm_compute in (is_power_of_2 a) in
      change (is_power_of_2 a) with v
  | |- context [unit_stride ?a] =>
      is_Z_cst a;
      let v := eval vm_compute in (unit_stride a) in
      change (unit_stride a) with v
  end.

(** The quantizer's output array of [U] as the matmul kernels receive
    it, through [(const uint32_t* )]: the words themselves, or the bytes
    assembled four by four. *)
Definition as_words (bits : Z) (out : buf Z) : buf Z :=
  if is_power_of_2 bits then out else load_u32 out.

Section StoredWeights.
Context {T F : Type} {AT : Arith T} {AF : Arith F} {CV : Conv T F}.
Variables (bits group_size : Z) (w : buf T).

(** The weight the kernels reconstruct for element [e]: its code times
    the stored scale plus the stored bias, in the arithmetic of [T]. *)
Definition stored_weight (e : Z) : T :=
  let '(scale, bias) := group_params bits group_size w (e / group_size) in
  fadd (fmul (of_float scale) (of_Z (element_code bits group_size w e)))
       (of_float bias).
End StoredWeights.

(** ** Further example data

    The activation of the example with 32-bit integers as its element
    type, an activation and an index array with no element, primitives
    with a bit width and a group size that are not supported, a weight
    row whose values past the first group differ from the skewed group,
    the skewed group as a one-row array of floats and of integers, and
    the index array [0; 1]. *)
Definition ex_x_int : array xreal :=
  mk_array int32 [2; 1; 32] [32; 32; 1] true (data ex_x).

Definition ex_x_empty : array xreal :=
  mk_array float32 [0; 1; 32] [32; 32; 1] true (data ex_x).

Definition ex_idx_empty : array Z :=
  mk_array uint32 [0] [1] true (fun _ => 0).

Definition ex_prim_bits7 : quantized_prim := mk_quantized_prim 32 7 true.

Definition ex_prim_group100 : quantized_prim := mk_quantized_prim 100 4 true.

Definition skewed_tail : buf xreal :=
  fun i => if i <? 32 then skewed_group i else XFin 100.

Definition ex_w_float : array xreal :=
  mk_array float32 [1; 32] [32; 1] true skewed_group.

Definition ex_w_int : array xreal :=
  mk_array int32 [1; 32] [32; 1] true skewed_group.

Definition ex_arange : array Z :=
  mk_array uint32 [2] [1] true (fun i => i).

(** ** Reasoning about loops *)

Section LoopLemmas.
Context {St : Type}.

(** Invariant indexed by the number of completed iterations. *)
Lemma for_from_inv (P : nat -> St -> Prop) (body : Z -> St -> St)
    (n : nat) (i0 step : Z) (s0 : St) :
  P O s0 ->
  (forall k s, (k < n)%nat -> P k s ->
               P (S k) (body (i0 + Z.of_nat k * step) s)) ->
  P n (for_from n i0 step body s0).
Proof.
  revert P i0 s0. induction n as [| n IH]; intros P i0 s0 H0 Hstep.
  - exact H0.
  - cbn [for_from].
    apply (IH (fun k s => P (S k) s)).
    + specialize (Hstep O s0). cbn in Hstep.
      rewrite Z.add_0_r in Hstep. apply Hstep; [lia | exact H0].
    + intros k s Hk HP.
      replace (i0 + step + Z.of_nat k * step)
        with (i0 + Z.of_nat (S k) * step) by lia.
      apply Hstep; [lia | exact HP].
Qed.

Lemma for_from_ext (body1 body2 : Z -> St -> St) (n : nat) (i0 step : Z)
    (s0 : St) :
  (forall i s, body1 i s = body2 i s) ->
  for_from n i0 step body1 s0 = for_from n i0 step body2 s0.
Proof.
  intros Hb. revert i0 s0. induction n as [| n IH]; intros i0 s0.
  - reflexivity.
  - cbn [for_from]. rewrite Hb. apply IH.
Qed.

Lemma for_from_o_ext (body1 body2 : Z -> St -> outcome St) (n : nat)
    (i0 step : Z) (s0 : St) :
  (forall i s, body1 i s = body2 i s) ->
  for_from_o n i0 step body1 s0 = for_from_o n i0 step body2 s0.
Proof.
  intros Hb. revert i0 s0. induction n as [| n IH]; intros i0 s0.
  - reflexivity.
  - cbn [for_from_o]. rewrite Hb.
    destruct (body2 i0 s0); [apply IH | trivial].
Qed.

(** A loop whose body never throws runs like the pure loop. *)
Lemma for_from_o_pure (body : Z -> St -> outcome St) (f : Z -> St -> St)
    (n : nat) (i0 step : Z) (s0 : St) :
  (forall i s, body i s = Done (f i s)) ->
  for_from_o n i0 step body s0 = Done (for_from n i0 step f s0).
Proof.
  intros Hb. revert i0 s0. induction n as [| n IH]; intros i0 s0.
  - reflexivity.
  - cbn [for_from_o for_from]. rewrite Hb. apply IH.
Qed.

(** A body that throws at once, without touching the state, ends a
    loop of at least one iteration with the initial state. *)
Lemma for_from_o_throw (body : Z -> St -> outcome St) (e : exn)
    (n : nat) (i0 step : Z) (s0 : St) :
  (0 < n)%nat -> body i0 s0 = Throw e s0 ->
  for_from_o n i0 step body s0 = Throw e s0.
Proof.
  intros Hn Hb. destruct n as [| n]; [lia |].
  cbn [for_from_o]. now rewrite Hb.
Qed.
End LoopLemmas.

(** Two runs of a loop keep a relation between their states. *)
Lemma for_from_rel {St1 St2 : Type} (R : nat -> St1 -> St2 -> Prop)
    (body1 : Z -> St1 -> St1) (body2 : Z -> St2 -> St2)
    (n : nat) (i0 step : Z) (s1 : St1) (s2 : St2) :
  R O s1 s2 ->
  (forall k a b, (k < n)%nat -> R k a b ->
     R (S k) (body1 (i0 + Z.of_nat k * step) a)
             (body2 (i0 + Z.of_nat k * step) b)) ->
  R n (for_from n i0 step body1 s1) (for_from n i0 step body2 s2).
Proof.
  revert R i0 s1 s2. induction n as [| n IH]; intros R i0 s1 s2 H0 Hstep.
  - exact H0.
  - cbn [for_from].
    apply (IH (fun k a b => R (S k) a b)).
    + specialize (Hstep O s1 s2). cbn in Hstep.
      rewrite Z.add_0_r in Hstep. apply Hstep; [lia | exact H0].
    + intros k a b Hk HR.
      replace (i0 + step + Z.of_nat k * step)
        with (i0 + Z.of_nat (S k) * step) by lia.
      apply Hstep; [lia | exact HR].
Qed.

(** Invariant of a loop whose body returns. *)
Lemma for_from_o_inv {St : Type} (P : nat -> St -> Prop)
    (body : Z -> St -> outcome St) (n : nat) (i0 step : Z) (s0 : St) :
  P O s0 ->
  (forall k s, (k < n)%nat -> P k s ->
     exists s', body (i0 + Z.of_nat k * step) s = Done s' /\ P (S k) s') ->
  exists s', for_from_o n i0 step body s0 = Done s' /\ P n s'.
Proof.
  revert P i0 s0. induction n as [| n IH]; intros P i0 s0 H0 Hstep.
  - exists s0. split; [reflexivity | exact H0].
  - cbn [for_from_o].
    destruct (Hstep O s0 ltac:(lia) H0) as (s1 & Hb & H1).
    cbn [Z.of_nat] in Hb. rewrite Z.mul_0_l, Z.add_0_r in Hb. rewrite Hb.
    apply (IH (fun k s => P (S k) s)); trivial.
    intros k s Hk HP.
    replace (i0 + step + Z.of_nat k * step)
      with (i0 + Z.of_nat (S k) * step) by lia.
    apply Hstep; [lia | exact HP].
Qed.

(** * Properties *)

(** ** Bit operations with constant masks and shifts *)

Lemma land_mask (x m k s : Z) :
  m = Z.shiftl (Z.ones k) s -> 0 <= k -> 0 <= s ->
  Z.land x m = ((x / 2 ^ s) mod 2 ^ k) * 2 ^ s.
Proof.
  intros -> Hk Hs.
  rewrite <- Z.shiftl_mul_pow2, <- Z.shiftr_div_pow2, <- Z.land_ones by lia.
  apply Z.bits_inj'. intros n Hn.
  rewrite Z.land_spec.
  destruct (Z.lt_ge_cases n s).
  - rewrite !Z.shiftl_spec_low by lia. apply andb_false_r.
  - rewrite !Z.shiftl_spec by lia.
    rewrite Z.land_spec, Z.shiftr_spec by lia.
    f_equal. f_equal. lia.
Qed.

(** ** The decoder writes [pack_factor] codes, all in range *)

Lemma extract_bits_int_length (bits : Z) (w_in : buf Z) :
  bits = 3 \/ bits = 5 \/ bits = 6 ->
  List.length (extract_bits_int bits w_in)
  = Z.to_nat (get_pack_factor bits 8).
Proof. intros [-> | [-> | ->]]; reflexivity. Qed.

Lemma extract_bits_int_range (bits : Z) (w_in : buf Z) :
  bits = 3 \/ bits = 5 \/ bits = 6 ->
  Forall (fun v => 0 <= v <= 2 ^ bits - 1) (extract_bits_int bits w_in).
Proof.
  intros [-> | [-> | ->]]; unfold extract_bits_int;
    cbn [Z.eqb Pos.eqb]; eval_pow2;
    repeat (apply Forall_cons; [bits_to_arith land_mask; divmod_lia |]);
    apply Forall_nil.
Qed.

(** ** Packing is positional notation in base [2 ^ bits] *)

Lemma lor_disjoint (a b n : Z) :
  0 <= n -> 0 <= a < 2 ^ n -> Z.lor a (b * 2 ^ n) = a + b * 2 ^ n.
Proof.
  intros Hn Ha.
  rewrite <- Z.lxor_lor, <- Z.add_nocarry_lxor; trivial;
    rewrite <- Z.shiftl_mul_pow2 by lia;
    apply Z.bits_inj'; intros k Hk; rewrite Z.land_spec, Z.bits_0;
    (destruct (Z.lt_ge_cases k n);
     [ rewrite Z.shiftl_spec_low by lia; apply andb_false_r
     | replace (Z.testbit a k) with false; trivial;
       symmetry; destruct (Z.eq_dec a 0) as [-> | Hne];
       [ apply Z.bits_0
       | apply Z.bits_above_log2; [lia |];
         apply Z.lt_le_trans with n; [| lia];
         apply Z.log2_lt_pow2; lia ] ]).
Qed.

Lemma pack_value_range (bits : Z) (codes : list Z) :
  0 <= bits -> Forall (in_range bits) codes ->
  0 <= pack_value bits codes < 2 ^ (bits * Z.of_nat (List.length codes)).
Proof.
  intros Hb H. induction H as [| c cs Hc _ IH].
  - cbn. lia.
  - cbn [pack_value fold_right List.length].
    fold (pack_value bits cs).
    replace (bits * Z.of_nat (S (List.length cs)))
      with (bits + bits * Z.of_nat (List.length cs)) by lia.
    rewrite Z.pow_add_r by lia.
    unfold in_range in Hc.
    assert (0 < 2 ^ bits) by (apply Z.pow_pos_nonneg; lia).
    nia.
Qed.

Lemma for_from_pack (bits : Z) (code : Z -> Z) (codes : list Z) :
  0 <= bits -> Forall (in_range bits) codes ->
  forall (i acc : Z),
    0 <= i -> 0 <= acc < 2 ^ (i * bits) ->
    (i + Z.of_nat (List.length codes)) * bits <= 64 ->
    (forall j, (j < List.length codes)%nat ->
               code (i + Z.of_nat j) = nth j codes 0) ->
    for_from (List.length codes) i 1
      (fun k out_el => Z.lor out_el (u64 (Z.shiftl (code k) (k * bits)))) acc
    = acc + 2 ^ (i * bits) * pack_value bits codes.
Proof.
  intros Hb H.
  induction H as [| c cs Hc Hcs IH]; intros i acc Hi Hacc Hlen Hcode.
  - cbn. lia.
  - cbn [List.length for_from pack_value fold_right].
    fold (pack_value bits cs).
    cbn [List.length] in Hlen.
    assert (Hci : code i = c).
    { specialize (Hcode 0%nat). cbn [nth List.length Z.of_nat] in Hcode.
      rewrite Z.add_0_r in Hcode. apply Hcode. lia. }
    rewrite Hci.
    unfold in_range in Hc.
    assert (HP : 0 < 2 ^ (i * bits)) by (apply Z.pow_pos_nonneg; lia).
    assert (HB : 0 < 2 ^ bits) by (apply Z.pow_pos_nonneg; lia).
    assert (Hnext : 2 ^ ((i + 1) * bits) = 2 ^ (i * bits) * 2 ^ bits).
    { rewrite <- Z.pow_add_r by lia. f_equal. lia. }
    assert (Hle : 2 ^ ((i + 1) * bits) <= 2 ^ 64).
    { apply Z.pow_le_mono_r; lia. }
    assert (Hstep : Z.lor acc (u64 (Z.shiftl c (i * bits)))
                    = acc + c * 2 ^ (i * bits)).
    { rewrite Z.shiftl_mul_pow2 by lia.
      unfold u64. rewrite Z.mod_small by nia.
      apply lor_disjoint; lia. }
    rewrite Hstep.
    assert (Hacc' : 0 <= acc + c * 2 ^ (i * bits) < 2 ^ ((i + 1) * bits)).
    { rewrite Hnext. nia. }
    assert (Hcode' : forall j, (j < List.length cs)%nat ->
                               code (i + 1 + Z.of_nat j) = nth j cs 0).
    { intros j Hj. specialize (Hcode (S j)).
      cbn [nth List.length] in Hcode. rewrite <- Hcode by lia.
      f_equal. lia. }
    assert (Hlen' : (i + 1 + Z.of_nat (List.length cs)) * bits <= 64).
    { rewrite Nat2Z.inj_succ in Hlen.
      replace (i + 1 + Z.of_nat (List.length cs))
        with (i + Z.succ (Z.of_nat (List.length cs))) by lia.
      exact Hlen. }
    rewrite (IH (i + 1) _ ltac:(lia) Hacc' Hlen' Hcode').
    rewrite Hnext. ring.
Qed.

Lemma pack_el_value (bits : Z) (codes : list Z) :
  0 <= bits -> Forall (in_range bits) codes ->
  Z.of_nat (List.length codes) * bits <= 64 ->
  pack_el bits (Z.of_nat (List.length codes))
    (fun k => nth (Z.to_nat k) codes 0)
  = pack_value bits codes.
Proof.
  intros Hb H Hlen. unfold pack_el, for_lt.
  rewrite Nat2Z.id.
  rewrite (for_from_pack bits _ codes Hb H 0 0).
  - rewrite Z.mul_0_l, Z.pow_0_r. lia.
  - lia.
  - rewrite Z.mul_0_l, Z.pow_0_r. lia.
  - rewrite Z.add_0_l. exact Hlen.
  - intros j _. rewrite Z.add_0_l. now rewrite Nat2Z.id.
Qed.

Lemma digits_pack_value (bits : Z) (codes : list Z) :
  0 <= bits -> Forall (in_range bits) codes ->
  digits bits (List.length codes) (pack_value bits codes) = codes.
Proof.
  intros Hb H. induction H as [| c cs Hc Hcs IH].
  - reflexivity.
  - unfold digits in *. cbn [List.length seq map pack_value fold_right].
    fold (pack_value bits cs).
    assert (HB : 0 < 2 ^ bits) by (apply Z.pow_pos_nonneg; lia).
    unfold in_range in Hc.
    f_equal.
    + rewrite Z.mul_0_r, Z.pow_0_r, Z.div_1_r.
      rewrite (Z.mul_comm (2 ^ bits)), Z.mod_add by lia.
      apply Z.mod_small. lia.
    + rewrite <- seq_shift, map_map. rewrite <- IH at 2.
      apply map_ext. intros k.
      replace (bits * Z.of_nat (S k)) with (bits + bits * Z.of_nat k) by lia.
      rewrite Z.pow_add_r, <- Z.div_div by lia.
      do 2 f_equal.
      rewrite (Z.mul_comm (2 ^ bits)), Z.div_add by lia.
      rewrite Z.div_small by lia. lia.
Qed.

(** ** Decoding a stored unit yields the digits of the packed value *)

Lemma decode_store (bits E : Z) :
  valid_bits bits ->
  0 <= E < 2 ^ (bits * get_pack_factor bits 32) ->
  decode_unit bits
    (as_bytes bits
       (store_el bits (get_bytes_per_pack bits 8) (is_power_of_2 bits)
          (castU_of bits) (fun _ => 0) 0 0 E))
  = digits bits (Z.to_nat (get_pack_factor bits 32)) E.
Proof.
  intros Hb HE.
  destruct Hb as [-> | [-> | [-> | [-> | [-> | ->]]]]];
    match type of HE with
    | context [Z.pow 2 ?e] =>
        let v := eval vm_compute in (Z.pow 2 e) in
        change (Z.pow 2 e) with v in HE
    end;
    codec_eval; bits_to_arith land_mask;
    rewrite ?Z.div_1_r, ?Z.mul_1_r;
    rewrite ?Z.div_mul by lia;
    rewrite ?Z.mod_mod by lia;
    list_eq divmod_lia.
Qed.

(** C5.  For every bit width in {2,3,4,5,6,8}, packing as many codes as
    one storage unit of the quantizer holds, each in [0, 2^bits - 1],
    through the quantizer's encode path ([pack_el] then [store_el]) and
    decoding the stored bytes through the kernels' decode path
    ([extract_bits] for 3, 5 and 6, the shift-and-mask loop for 2, 4 and
    8) returns the same codes in the same order. *)
Theorem pack_unpack_inverse (bits : Z) (codes : list Z) :
  valid_bits bits ->
  List.length codes = Z.to_nat (get_pack_factor bits 32) ->
  Forall (in_range bits) codes ->
  decode_unit bits (as_bytes bits (encode_unit bits codes)) = codes.
Proof.
  intros Hb Hlen Hr.
  assert (Hbits : 0 <= bits) by (unfold valid_bits in Hb; lia).
  assert (Hpf : get_pack_factor bits 32 = Z.of_nat (List.length codes)).
  { rewrite Hlen.
    destruct Hb as [-> | [-> | [-> | [-> | [-> | ->]]]]]; reflexivity. }
  assert (H64 : Z.of_nat (List.length codes) * bits <= 64).
  { rewrite <- Hpf.
    destruct Hb as [-> | [-> | [-> | [-> | [-> | ->]]]]]; vm_compute;
      discriminate. }
  unfold encode_unit.
  rewrite Hpf, (pack_el_value bits codes Hbits Hr H64).
  rewrite decode_store; trivial.
  - rewrite Hpf, Nat2Z.id. now apply digits_pack_value.
  - rewrite Hpf. now apply pack_value_range.
Qed.

(** The boundary codes [0] and [2^bits - 1] are in range, so the round
    trip covers them. *)
Lemma boundary_codes_in_range (bits : Z) :
  0 <= bits -> in_range bits 0 /\ in_range bits (2 ^ bits - 1).
Proof.
  intros Hb. assert (0 < 2 ^ bits) by (apply Z.pow_pos_nonneg; lia).
  unfold in_range. lia.
Qed.

Lemma pack_unpack_inverse_witness :
  decode_unit 5 (as_bytes 5 (encode_unit 5 [0; 31; 1; 30; 17; 0; 31; 31]))
  = [0; 31; 1; 30; 17; 0; 31; 31].
Proof.
  apply (pack_unpack_inverse 5 [0; 31; 1; 30; 17; 0; 31; 31]).
  - unfold valid_bits. lia.
  - reflexivity.
  - repeat constructor; unfold in_range; simpl; lia.
Defined.

(** C9.  For every bit width in {3,5,6} and arbitrary input bytes,
    [extract_bits] writes exactly [pack_factor] values, each the
    conversion of an integer of [0, 2^bits - 1]. *)
Theorem extract_bits_total_in_range
    (T : Type) (AT : Arith T) (bits : Z) (w_in : buf Z) :
  bits = 3 \/ bits = 5 \/ bits = 6 ->
  List.length (extract_bits (T := T) bits w_in)
  = Z.to_nat (get_pack_factor bits 8)
  /\ extract_bits (T := T) bits w_in = map of_Z (extract_bits_int bits w_in)
  /\ Forall (fun v => 0 <= v <= 2 ^ bits - 1) (extract_bits_int bits w_in).
Proof.
  intros Hb. unfold extract_bits. rewrite length_map.
  split; [now apply extract_bits_int_length |].
  split; [reflexivity | now apply extract_bits_int_range].
Qed.

(** ** Dispatch on the bit width and the group size *)

Section DispatchFacts.
Context {T F : Type} {AT : Arith T} {AF : Arith F} {CV : Conv T F}.
Variable simd_sum : list F -> F.
Variable max_size : Z.
Variables (res : buf T) (rp : Z) (x : buf T) (w : buf Z).
Variables (scales biases : buf T) (M N K : Z).

Lemma dispatch_group_valid (bits group_size : Z) (transposed_w : bool) :
  valid_group_size group_size ->
  _qmm_dispatch_group simd_sum max_size bits
    res rp x w scales biases M N K group_size transposed_w
  = _qmm_dispatch_transpose simd_sum max_size bits group_size
      res rp x w scales biases M N K transposed_w.
Proof. intros [-> | [-> | ->]]; reflexivity. Qed.

Lemma dispatch_group_invalid (bits group_size : Z) (transposed_w : bool) :
  ~ valid_group_size group_size ->
  _qmm_dispatch_group simd_sum max_size bits
    res rp x w scales biases M N K group_size transposed_w
  = Throw
      (invalid_argument "Quantization group size must be 32, 64 or 128.")
      res.
Proof.
  intros Hg. unfold _qmm_dispatch_group.
  destruct group_size as [| p | p]; try reflexivity.
  repeat (destruct p as [p | p |]; try reflexivity);
    exfalso; apply Hg; unfold valid_group_size; lia.
Qed.

Lemma dispatch_typed_valid (bits group_size : Z) (transposed_w : bool) :
  valid_bits bits ->
  _qmm_dispatch_typed simd_sum max_size
    res rp x w scales biases M N K group_size bits transposed_w
  = _qmm_dispatch_group simd_sum max_size bits
      res rp x w scales biases M N K group_size transposed_w.
Proof. intros [-> | [-> | [-> | [-> | [-> | ->]]]]]; reflexivity. Qed.

Lemma dispatch_typed_invalid_bits (bits group_size : Z)
    (transposed_w : bool) :
  ~ valid_bits bits ->
  _qmm_dispatch_typed simd_sum max_size
    res rp x w scales biases M N K group_size bits transposed_w
  = Throw (invalid_argument "Quantization bits must be 2, 3, 4, 6 or 8.")
      res.
Proof.
  intros Hb. unfold _qmm_dispatch_typed.
  destruct bits as [| p | p]; try reflexivity.
  repeat (destruct p as [p | p |]; try reflexivity);
    exfalso; apply Hb; unfold valid_bits; lia.
Qed.

(** With [bits] outside {2,3,4,5,6,8} or [group_size] outside
    {32,64,128} the dispatcher throws an invalid-argument error, and
    the output buffer at the throw is the one it was given: no element
    has been written. *)
Lemma dispatch_typed_invalid_configuration (bits group_size : Z)
    (transposed_w : bool) :
  ~ valid_bits bits \/ ~ valid_group_size group_size ->
  exists msg,
    _qmm_dispatch_typed simd_sum max_size
      res rp x w scales biases M N K group_size bits transposed_w
    = Throw (invalid_argument msg) res.
Proof.
  intros H.
  assert (Hdec : valid_bits bits \/ ~ valid_bits bits)
    by (unfold valid_bits; lia).
  destruct Hdec as [Hb | Hb].
  - destruct H as [H | H]; [contradiction |].
    rewrite dispatch_typed_valid by exact Hb.
    rewrite dispatch_group_invalid by exact H. eauto.
  - rewrite dispatch_typed_invalid_bits by exact Hb. eauto.
Qed.

(** C8.  With a transposed weight the dispatch runs [_qmm_t_simd] when
    [32 % bits == 0] and [simd::max_size<T> % (32 / bits) == 0], and
    [_qmm_t] in every other transposed case; without transposition it
    runs [_qmm]. *)
Theorem kernel_selection (bits group_size : Z) (transposed_w : bool) :
  (transposed_w = true ->
   Z.rem 32 bits = 0 /\ Z.rem max_size (Z.quot 32 bits) = 0 ->
   _qmm_dispatch_transpose simd_sum max_size bits group_size
     res rp x w scales biases M N K transposed_w
   = _qmm_t_simd simd_sum max_size bits group_size
       res rp x w scales biases M N K)
  /\ (transposed_w = true ->
      ~ (Z.rem 32 bits = 0 /\ Z.rem max_size (Z.quot 32 bits) = 0) ->
      _qmm_dispatch_transpose simd_sum max_size bits group_size
        res rp x w scales biases M N K transposed_w
      = Done (_qmm_t bits group_size res rp x w scales biases M N K))
  /\ (transposed_w = false ->
      _qmm_dispatch_transpose simd_sum max_size bits group_size
        res rp x w scales biases M N K transposed_w
      = Done (_qmm bits group_size res rp x w scales biases M N K)).
Proof.
  unfold _qmm_dispatch_transpose.
  repeat split; intros ->; trivial.
  - intros [H1 H2]. rewrite H1, H2. reflexivity.
  - intros Hn.
    destruct (Z.eqb_spec (Z.rem 32 bits) 0) as [H1 | H1]; trivial.
    destruct (Z.eqb_spec (Z.rem max_size (Z.quot 32 bits)) 0) as [H2 | H2];
      trivial.
    exfalso. apply Hn. split; assumption.
Qed.

End DispatchFacts.

(** ** Two runs of a kernel on different output buffers *)

Lemma upd_same {A : Type} (b : buf A) (i : Z) (v : A) : upd b i v i = v.
Proof. unfold upd. now rewrite Z.eqb_refl. Qed.

Lemma upd_other {A : Type} (b : buf A) (i j : Z) (v : A) :
  j <> i -> upd b i v j = b j.
Proof. intros H. unfold upd. now apply Z.eqb_neq in H as ->. Qed.

Lemma agree_on_upd {A : Type} (S : Z -> Prop) (delta : Z) (r1 r2 : buf A)
    (i : Z) (v1 v2 : A) :
  agree_on S delta r1 r2 -> (S i -> v1 = v2) ->
  agree_on S delta (upd r1 (i + delta) v1) (upd r2 i v2).
Proof.
  intros Ha Hv p Hp. unfold upd.
  destruct (Z.eqb_spec p i) as [-> | Hne].
  - rewrite Z.eqb_refl. auto.
  - replace (p + delta =? i + delta) with false
      by (symmetry; apply Z.eqb_neq; lia).
    auto.
Qed.

Lemma unchanged_below_upd {A : Type} (lo : Z) (r r0 : buf A) (i : Z) (v : A) :
  unchanged_below lo r r0 -> lo <= i -> unchanged_below lo (upd r i v) r0.
Proof.
  intros Hu Hi p Hp. rewrite upd_other by lia. auto.
Qed.

Section QmmTwoRuns.
Context {T : Type} {AT : Arith T}.
Variables (bits group_size : Z).
Variables (x : buf T) (wb : buf Z) (scales biases : buf T).
(** The second run writes at [p] what the first writes at [p + delta];
    the first run started at [rp1] on the buffer [init1]. *)
Variables (delta rp1 : Z) (init1 : buf T).

Section FixedSet.
Variable S : Z -> Prop.

Lemma accumulate_rel (xi scale bias v : T) (a1 a2 : qmm_acc T) :
  (acc_rel delta rp1 init1 S) a1 a2 ->
  (acc_rel delta rp1 init1 S) (qmm_accumulate xi scale bias v a1)
          (qmm_accumulate xi scale bias v a2).
Proof.
  intros (Hrl & Hw & Ha & Hlo & Hu). unfold acc_rel, qmm_accumulate.
  cbn [qa_result_local qa_w_local qa_res].
  repeat split; try lia.
  - rewrite Hrl. apply agree_on_upd; trivial.
    intros HS. rewrite (Ha _ HS). reflexivity.
  - now apply unchanged_below_upd.
Qed.

Lemma pack_rel (xi scale bias : T) (a1 a2 : qmm_acc T) :
  (acc_rel delta rp1 init1 S) a1 a2 ->
  (acc_rel delta rp1 init1 S) (qmm_pack bits wb xi scale bias a1)
          (qmm_pack bits wb xi scale bias a2).
Proof.
  intros H. unfold qmm_pack.
  destruct ((bits =? 3) || (bits =? 5) || (bits =? 6)).
  - assert (Hw : qa_w_local a1 = qa_w_local a2) by apply H.
    rewrite Hw.
    set (wl := extract_bits bits (shift wb (qa_w_local a2))).
    unfold for_lt.
    match goal with
    | |- acc_rel delta rp1 init1 S
           (mk_qmm_acc (qa_res ?l1) _ _) (mk_qmm_acc (qa_res ?l2) _ _) =>
        assert (Hl : (acc_rel delta rp1 init1 S) l1 l2)
    end.
    { apply (for_from_rel (fun _ => (acc_rel delta rp1 init1 S))); trivial.
      intros k a b _ Hab. now apply accumulate_rel. }
    destruct Hl as (Hrl & Hw' & Ha & Hlo & Hu).
    unfold acc_rel. cbn [qa_result_local qa_w_local qa_res].
    repeat split; trivial; lia.
  - assert (Hw : qa_w_local a1 = qa_w_local a2) by apply H.
    rewrite Hw. unfold for_lt.
    apply (for_from_rel
             (fun _ (s1 s2 : qmm_acc T * Z) =>
                acc_rel delta rp1 init1 S (fst s1) (fst s2)
                /\ snd s1 = snd s2)).
    + cbn [fst snd]. split; trivial.
      destruct H as (Hrl & _ & Ha & Hlo & Hu).
      unfold acc_rel. cbn [qa_result_local qa_w_local qa_res].
      repeat split; trivial; lia.
    + intros k [a wi] [b wi'] _ [Hab Hwi]. cbn [fst snd] in *.
      subst wi'. split; trivial. now apply accumulate_rel.
Qed.

Lemma group_loop_rel (xi : T) (N : Z) (r1 r2 : qmm_row T) :
  (row_rel delta rp1 init1 S) r1 r2 ->
  (row_rel delta rp1 init1 S)
    (for_lt_step N group_size
       (fun n row =>
          mk_qmm_row
            (for_lt (packs_in_group bits group_size)
               (fun ng a =>
                  qmm_pack bits wb xi (scales (qr_scales_local row))
                    (biases (qr_biases_local row)) a)
               (qr_acc row))
            (qr_scales_local row + 1) (qr_biases_local row + 1)
            (qr_x row)) r1)
    (for_lt_step N group_size
       (fun n row =>
          mk_qmm_row
            (for_lt (packs_in_group bits group_size)
               (fun ng a =>
                  qmm_pack bits wb xi (scales (qr_scales_local row))
                    (biases (qr_biases_local row)) a)
               (qr_acc row))
            (qr_scales_local row + 1) (qr_biases_local row + 1)
            (qr_x row)) r2).
Proof.
  intros H. unfold for_lt_step.
  apply (for_from_rel (fun _ => (row_rel delta rp1 init1 S))); trivial.
  intros k a b _ (Hacc & Hs & Hb & Hx).
  unfold row_rel.
  cbn [qr_acc qr_scales_local qr_biases_local qr_x].
  rewrite Hs, Hb. split; [| repeat split; lia].
  unfold for_lt.
  apply (for_from_rel (fun _ => acc_rel delta rp1 init1 S)); trivial.
  intros k' a' b' _ Hab. now apply pack_rel.
Qed.
End FixedSet.
End QmmTwoRuns.

Lemma agree_on_upd_new {A : Type} (S S' : Z -> Prop) (delta : Z)
    (r1 r2 : buf A) (i : Z) (v : A) :
  agree_on S delta r1 r2 -> (forall p, S' p -> S p \/ p = i) ->
  agree_on S' delta (upd r1 (i + delta) v) (upd r2 i v).
Proof.
  intros Ha HS p Hp. unfold upd.
  destruct (Z.eqb_spec p i) as [-> | Hne].
  - now rewrite Z.eqb_refl.
  - replace (p + delta =? i + delta) with false
      by (symmetry; apply Z.eqb_neq; lia).
    destruct (HS p Hp) as [H | H]; [auto | contradiction].
Qed.

Section QmmRuns.
Context {T : Type} {AT : Arith T}.
Variables (bits group_size : Z).
Variables (x : buf T) (w : buf Z) (scales biases : buf T).
Variables (M N K : Z).

(** Zero-filling a row makes the two buffers agree on it. *)
Lemma fill_rel (delta rp1 rp2 result2 : Z) (init1 r1 r2 : buf T) :
  0 <= N -> rp1 <= result2 + delta ->
  agree_on (fun p => rp2 <= p < result2) delta r1 r2 ->
  unchanged_below rp1 r1 init1 ->
  agree_on (fun p => rp2 <= p < result2 + N) delta
    (for_lt N (fun j r => upd r (result2 + delta + j) (of_Z 0)) r1)
    (for_lt N (fun j r => upd r (result2 + j) (of_Z 0)) r2)
  /\ unchanged_below rp1
       (for_lt N (fun j r => upd r (result2 + delta + j) (of_Z 0)) r1) init1.
Proof.
  intros HN Hlo Ha Hu. unfold for_lt.
  pose (R := fun (k : nat) (a b : buf T) =>
               agree_on (fun p => rp2 <= p < result2 + Z.of_nat k) delta a b
               /\ unchanged_below rp1 a init1).
  assert (HR : R (Z.to_nat N)
                 (for_from (Z.to_nat N) 0 1
                    (fun j r => upd r (result2 + delta + j) (of_Z 0)) r1)
                 (for_from (Z.to_nat N) 0 1
                    (fun j r => upd r (result2 + j) (of_Z 0)) r2)).
  { apply for_from_rel.
    - split; trivial. intros p Hp. apply Ha. lia.
    - intros k a b _ [Hab Hua]. split.
      + replace (result2 + delta + (0 + Z.of_nat k * 1))
          with (result2 + (0 + Z.of_nat k * 1) + delta) by lia.
        eapply agree_on_upd_new; [exact Hab |].
        intros p Hp. cbn beta. lia.
      + apply unchanged_below_upd; trivial. lia. }
  destruct HR as [H1 H2]. rewrite Z2Nat.id in H1 by lia. now split.
Qed.

(** Two runs of [_qmm] on output buffers [res1] (at [rp1]) and [res2]
    (at [rp2]) write the same [M * N] elements, and the first leaves
    everything below [rp1] as it was. *)
Lemma qmm_two_runs (res1 res2 : buf T) (rp1 rp2 : Z) :
  0 <= M -> 0 <= N ->
  agree_on (fun p => rp2 <= p < rp2 + M * N) (rp1 - rp2)
    (_qmm bits group_size res1 rp1 x w scales biases M N K)
    (_qmm bits group_size res2 rp2 x w scales biases M N K)
  /\ unchanged_below rp1
       (_qmm bits group_size res1 rp1 x w scales biases M N K) res1.
Proof.
  intros HM HN. unfold _qmm, for_lt at 1 5 9.
  set (delta := rp1 - rp2).
  match goal with
  | |- agree_on _ _ (km_res ?s1) (km_res ?s2) /\ _ =>
      assert (H : kernel_rel delta rp1 rp2 res1 s1 s2
                  /\ km_result s2 = rp2 + Z.of_nat (Z.to_nat M) * N)
  end.
  { apply (for_from_rel
             (fun k s1 s2 =>
                kernel_rel delta rp1 rp2 res1 s1 s2
                /\ km_result s2 = rp2 + Z.of_nat k * N)).
    - unfold kernel_rel. cbn [km_result km_x km_res]. subst delta.
      repeat split; try lia.
      intros p Hp. lia.
    - intros k a b _ [(Hres & Hx & Hlo & Hag & Hun) Hk].
      rewrite Hres.
      destruct (fill_rel delta rp1 rp2 (km_result b) res1
                  (km_res a) (km_res b) HN ltac:(lia) Hag Hun)
        as [Hfa Hfu].
      set (f1 := for_lt N _ (km_res a)) in *.
      set (f2 := for_lt N _ (km_res b)) in *.
      set (S' := fun p => rp2 <= p < km_result b + N) in *.
      match goal with
      | |- kernel_rel _ _ _ _
             (mk_kernel_m (qa_res (qr_acc ?r1)) _ _)
             (mk_kernel_m (qa_res (qr_acc ?r2)) _ _) /\ _ =>
          assert (Hrow : row_rel delta rp1 res1 S' r1 r2)
      end.
      { unfold for_lt.
        apply (for_from_rel (fun _ => row_rel delta rp1 res1 S')).
        - unfold row_rel, acc_rel.
          cbn [qr_acc qr_scales_local qr_biases_local qr_x
               qa_result_local qa_w_local qa_res].
          repeat split; trivial; lia.
        - intros k' ra rb _ Hab.
          assert (Hxx : qr_x ra = qr_x rb) by apply Hab.
          rewrite Hxx.
          apply group_loop_rel.
          destruct Hab as ((_ & Hw & Ha & _ & Hu) & Hs & Hb & _).
          unfold row_rel, acc_rel.
          cbn [qr_acc qr_scales_local qr_biases_local qr_x
               qa_result_local qa_w_local qa_res].
          repeat split; trivial; lia. }
      destruct Hrow as ((_ & _ & Ha & _ & Hu) & _ & _ & Hxx).
      unfold kernel_rel. cbn [km_result km_x km_res].
      repeat split; trivial; lia. }
  destruct H as [(_ & _ & _ & Hag & Hun) Hk].
  rewrite Z2Nat.id in Hk by lia. rewrite Hk in Hag. now split.
Qed.
End QmmRuns.

Section QmmTRuns.
Context {T : Type} {AT : Arith T}.
Variables (bits group_size : Z).
Variables (x : buf T) (w : buf Z) (scales biases : buf T).
Variables (M N K : Z).

(** Two runs of [_qmm_t]: each output element is a freshly computed
    sum, stored at the cursor. *)
Lemma qmm_t_two_runs (res1 res2 : buf T) (rp1 rp2 : Z) :
  0 <= M -> 0 <= N ->
  agree_on (fun p => rp2 <= p < rp2 + M * N) (rp1 - rp2)
    (_qmm_t bits group_size res1 rp1 x w scales biases M N K)
    (_qmm_t bits group_size res2 rp2 x w scales biases M N K)
  /\ unchanged_below rp1
       (_qmm_t bits group_size res1 rp1 x w scales biases M N K) res1.
Proof.
  intros HM HN. unfold _qmm_t, for_lt.
  set (delta := rp1 - rp2).
  match goal with
  | |- agree_on _ _ (km_res ?s1) (km_res ?s2) /\ _ =>
      assert (H : kernel_rel delta rp1 rp2 res1 s1 s2
                  /\ km_result s2 = rp2 + Z.of_nat (Z.to_nat M) * N)
  end.
  { apply (for_from_rel
             (fun k s1 s2 =>
                kernel_rel delta rp1 rp2 res1 s1 s2
                /\ km_result s2 = rp2 + Z.of_nat k * N)).
    - unfold kernel_rel. cbn [km_result km_x km_res]. subst delta.
      repeat split; try lia.
      intros p Hp. lia.
    - intros k a b _ [(Hres & Hx & Hlo & Hag & Hun) Hk].
      rewrite Hx.
      match goal with
      | |- kernel_rel _ _ _ _
             (mk_kernel_m (qt_res ?r1) _ _)
             (mk_kernel_m (qt_res ?r2) _ _) /\ _ =>
          assert (Hrow : t_row_rel delta rp1 rp2 res1 r1 r2
                         /\ qt_result r2
                            = km_result b + Z.of_nat (Z.to_nat N))
      end.
      { apply (for_from_rel
                 (fun j r1 r2 =>
                    t_row_rel delta rp1 rp2 res1 r1 r2
                    /\ qt_result r2 = km_result b + Z.of_nat j)).
        - unfold t_row_rel.
          cbn [qt_result qt_w_local qt_scales_local qt_biases_local qt_res].
          repeat split; trivial; lia.
        - intros j ra rb _ [(Hr & Hw & Hs & Hb & Hl & Ha & Hu) Hj].
          rewrite Hw, Hs, Hb, Hr.
          destruct (for_lt_step K group_size _ _) as [[d sl] bl].
          unfold t_row_rel.
          cbn [qt_result qt_w_local qt_scales_local qt_biases_local qt_res].
          repeat split; trivial; try lia.
          + eapply agree_on_upd_new; [exact Ha |].
            intros p Hp. cbn beta. lia.
          + apply unchanged_below_upd; trivial. lia. }
      destruct Hrow as [(Hr & _ & _ & _ & Hl & Ha & Hu) Hn].
      unfold kernel_rel. cbn [km_result km_x km_res].
      rewrite Z2Nat.id in Hn by lia.
      repeat split; trivial; lia. }
  destruct H as [(_ & _ & _ & Hag & Hun) Hk].
  rewrite Z2Nat.id in Hk by lia. rewrite Hk in Hag. now split.
Qed.
End QmmTRuns.

(** ** The SIMD kernel *)

Lemma for_from_o_rel {St1 St2 : Type} (R : nat -> St1 -> St2 -> Prop)
    (body1 : Z -> St1 -> outcome St1) (body2 : Z -> St2 -> outcome St2)
    (n : nat) (i0 step : Z) (s1 : St1) (s2 : St2) :
  R O s1 s2 ->
  (forall k a b, (k < n)%nat -> R k a b ->
     outcome_rel (R (S k)) (body1 (i0 + Z.of_nat k * step) a)
                           (body2 (i0 + Z.of_nat k * step) b)) ->
  outcome_rel (R n) (for_from_o n i0 step body1 s1)
                    (for_from_o n i0 step body2 s2).
Proof.
  revert R i0 s1 s2. induction n as [| n IH]; intros R i0 s1 s2 H0 Hstep.
  - exact H0.
  - cbn [for_from_o].
    pose proof (Hstep O s1 s2 ltac:(lia) H0) as H1.
    cbn [Z.of_nat] in H1. rewrite Z.mul_0_l, Z.add_0_r in H1.
    destruct (body1 i0 s1) as [a | e1 a], (body2 i0 s2) as [b | e2 b];
      cbn [outcome_rel] in H1; try contradiction; trivial.
    apply (IH (fun k a b => R (S k) a b)); trivial.
    intros k a' b' Hk HR.
    replace (i0 + step + Z.of_nat k * step)
      with (i0 + Z.of_nat (S k) * step) by lia.
    apply Hstep; [lia | exact HR].
Qed.

Lemma for_from_o_done {St : Type} (body : Z -> St -> outcome St)
    (n : nat) (i0 step : Z) (s0 : St) :
  (forall i s, is_done (body i s) = true) ->
  is_done (for_from_o n i0 step body s0) = true.
Proof.
  intros Hb. revert i0 s0. induction n as [| n IH]; intros i0 s0.
  - reflexivity.
  - cbn [for_from_o]. specialize (Hb i0 s0).
    destruct (body i0 s0); [apply IH | discriminate].
Qed.

Lemma extract_bits_simd_ok (bits max_size : Z) (w : buf Z) :
  simd_supported bits max_size ->
  exists wi, extract_bits_simd bits max_size w = Ok wi
             /\ List.length wi = 8%nat.
Proof.
  intros [[-> | ->] ->]; eexists; (split; [reflexivity |]); reflexivity.
Qed.

Section SimdRuns.
Context {T F : Type} {AF : Arith F} {CV : Conv T F}.
Variable simd_sum : list F -> F.
Variable max_size : Z.
Variables (bits group_size : Z).
Variables (x : buf T) (w : buf Z) (scales biases : buf T).
Variables (M N K : Z).

(** With a supported pair the SIMD kernel returns. *)
Lemma qmm_t_simd_done (res : buf T) (rp : Z) :
  simd_supported bits max_size ->
  is_done (_qmm_t_simd simd_sum max_size bits group_size
             res rp x w scales biases M N K) = true.
Proof.
  intros Hs. unfold _qmm_t_simd.
  match goal with
  | |- is_done (match ?run with _ => _ end) = true =>
      assert (H : is_done run = true); [| destruct run; trivial]
  end.
  apply for_from_o_done. intros m s.
  match goal with
  | |- is_done (match ?rows with _ => _ end) = true =>
      assert (H : is_done rows = true); [| destruct rows; trivial]
  end.
  apply for_from_o_done. intros n row.
  match goal with
  | |- is_done (match ?dot with _ => _ end) = true =>
      assert (H : is_done dot = true);
      [| destruct dot as [[[d sl] bl] | e s']; trivial]
  end.
  apply for_from_o_done. intros k [[d sl] bl].
  match goal with
  | |- is_done (match ?inner with _ => _ end) = true =>
      assert (H : is_done inner = true); [| destruct inner; trivial]
  end.
  apply for_from_o_done. intros kw d'.
  unfold qmm_t_simd_step.
  destruct (extract_bits_simd_ok bits max_size (shift w (sd_w_local d')) Hs)
    as (wi & -> & _).
  reflexivity.
Qed.

(** Two runs of [_qmm_t_simd]: both return or both throw, and when
    they return they have stored the same [M * N] sums. *)
Lemma qmm_t_simd_two_runs (res1 res2 : buf T) (rp1 rp2 : Z) :
  0 <= M -> 0 <= N ->
  outcome_rel
    (fun o1 o2 =>
       agree_on (fun p => rp2 <= p < rp2 + M * N) (rp1 - rp2) o1 o2
       /\ unchanged_below rp1 o1 res1)
    (_qmm_t_simd simd_sum max_size bits group_size
       res1 rp1 x w scales biases M N K)
    (_qmm_t_simd simd_sum max_size bits group_size
       res2 rp2 x w scales biases M N K).
Proof.
  intros HM HN. unfold _qmm_t_simd, for_lt_o.
  set (delta := rp1 - rp2).
  match goal with
  | |- outcome_rel _ (match ?r1 with _ => _ end)
                     (match ?r2 with _ => _ end) =>
      assert (H : outcome_rel
                    (fun s1 s2 =>
                       kernel_rel delta rp1 rp2 res1 s1 s2
                       /\ km_result s2
                          = rp2 + Z.of_nat (Z.to_nat M) * N) r1 r2)
  end.
  { apply (for_from_o_rel
             (fun k s1 s2 =>
                kernel_rel delta rp1 rp2 res1 s1 s2
                /\ km_result s2 = rp2 + Z.of_nat k * N)).
    - unfold kernel_rel. cbn [km_result km_x km_res]. subst delta.
      repeat split; try lia.
      intros p Hp. lia.
    - intros k a b _ [(Hres & Hx & Hlo & Hag & Hun) Hk].
      rewrite Hx.
      match goal with
      | |- outcome_rel _ (match ?r1 with _ => _ end)
                         (match ?r2 with _ => _ end) =>
          assert (Hrow : outcome_rel
                           (fun t1 t2 =>
                              t_row_rel delta rp1 rp2 res1 t1 t2
                              /\ qt_result t2
                                 = km_result b + Z.of_nat (Z.to_nat N))
                           r1 r2)
      end.
      { apply (for_from_o_rel
                 (fun j r1 r2 =>
                    t_row_rel delta rp1 rp2 res1 r1 r2
                    /\ qt_result r2 = km_result b + Z.of_nat j)).
        - unfold t_row_rel.
          cbn [qt_result qt_w_local qt_scales_local qt_biases_local qt_res].
          repeat split; trivial; lia.
        - intros j ra rb _ [(Hr & Hw & Hs & Hb & Hl & Ha & Hu) Hj].
          rewrite Hw, Hs, Hb, Hr.
          destruct (for_lt_step_o K group_size _ _)
            as [[[d sl] bl] | e s'];
            cbn [outcome_rel]; trivial.
          unfold t_row_rel.
          cbn [qt_result qt_w_local qt_scales_local qt_biases_local qt_res].
          repeat split; trivial; try lia.
          + eapply agree_on_upd_new; [exact Ha |].
            intros p Hp. cbn beta. lia.
          + apply unchanged_below_upd; trivial. lia. }
      match type of Hrow with
      | outcome_rel _ ?o1 ?o2 =>
          destruct o1 as [t1 | e1 t1], o2 as [t2 | e2 t2];
            cbn [outcome_rel] in Hrow |- *; try contradiction; trivial
      end.
      destruct Hrow as [(Hr & _ & _ & _ & Hl & Ha & Hu) Hn].
      unfold kernel_rel. cbn [km_result km_x km_res].
      rewrite Z2Nat.id in Hn by lia.
      repeat split; trivial; lia. }
  match type of H with
  | outcome_rel _ ?o1 ?o2 =>
      destruct o1 as [t1 | e1 t1], o2 as [t2 | e2 t2];
        cbn [outcome_rel] in H |- *; try contradiction; trivial
  end.
  destruct H as [(_ & _ & _ & Hag & Hun) Hk].
  rewrite Z2Nat.id in Hk by lia. rewrite Hk in Hag. now split.
Qed.
End SimdRuns.

(** ** What the scalar kernels compute *)

Lemma pack_layout (bits : Z) :
  valid_bits bits ->
  0 < get_pack_factor bits 8 /\ 0 < get_bytes_per_pack bits 8
  /\ forall wb, List.length (decode_pack bits wb)
                = Z.to_nat (get_pack_factor bits 8).
Proof.
  intros [-> | [-> | [-> | [-> | [-> | ->]]]]]; repeat split; reflexivity.
Qed.

Lemma group_layout (bits group_size : Z) :
  valid_bits bits -> valid_group_size group_size ->
  0 < packs_in_group bits group_size
  /\ group_size = packs_in_group bits group_size * get_pack_factor bits 8.
Proof.
  intros [-> | [-> | [-> | [-> | [-> | ->]]]]] [-> | [-> | ->]];
    split; reflexivity.
Qed.

(** The code at offset [i] of pack [q]. *)
Lemma code_at_pack (bits : Z) (wb : buf Z) (q i : Z) :
  0 < get_pack_factor bits 8 -> 0 <= i < get_pack_factor bits 8 ->
  code_at bits wb (q * get_pack_factor bits 8 + i)
  = nth (Z.to_nat i)
        (decode_pack bits (shift wb (q * get_bytes_per_pack bits 8))) 0.
Proof.
  intros Hpf Hi. unfold code_at. cbv zeta.
  replace ((q * get_pack_factor bits 8 + i) / get_pack_factor bits 8)
    with q.
  2:{ rewrite Z.add_comm, Z.div_add by lia.
      rewrite Z.div_small by lia. reflexivity. }
  replace ((q * get_pack_factor bits 8 + i) mod get_pack_factor bits 8)
    with i.
  2:{ rewrite Z.add_comm, Z.mod_add by lia.
      rewrite Z.mod_small by lia. reflexivity. }
  reflexivity.
Qed.

Section Added.
Context {T : Type} {AT : Arith T}.

Lemma added_nil (res0 : buf T) (lo : Z) (V : Z -> T) :
  added res0 lo 0 V res0.
Proof.
  intros p. destruct (lo <=? p) eqn:H1; cbn [andb]; trivial.
  replace (p <? lo + 0) with false; trivial.
  symmetry. apply Z.ltb_ge. apply Z.leb_le in H1. lia.
Qed.

Lemma added_app (res0 res1 res2 : buf T) (lo n1 n2 : Z) (V V' : Z -> T) :
  0 <= n1 -> 0 <= n2 ->
  added res0 lo n1 V res1 ->
  added res1 (lo + n1) n2 V' res2 ->
  (forall i, 0 <= i < n2 -> V' i = V (n1 + i)) ->
  added res0 lo (n1 + n2) V res2.
Proof.
  intros H1 H2 Ha Hb HV p. rewrite (Hb p), (Ha p).
  destruct (Z.leb_spec lo p), (Z.ltb_spec p (lo + n1)),
    (Z.leb_spec (lo + n1) p), (Z.ltb_spec p (lo + n1 + n2)),
    (Z.ltb_spec p (lo + (n1 + n2)));
    cbn [andb]; try lia; trivial.
  rewrite HV by lia. do 2 f_equal. lia.
Qed.

Lemma added_ext (res0 res : buf T) (lo len : Z) (V V' : Z -> T) :
  added res0 lo len V res ->
  (forall i, 0 <= i < len -> V i = V' i) ->
  added res0 lo len V' res.
Proof.
  intros Ha HV p. rewrite (Ha p).
  destruct (Z.leb_spec lo p), (Z.ltb_spec p (lo + len));
    cbn [andb]; trivial.
  rewrite HV by lia. reflexivity.
Qed.
End Added.

Section QmmSpec.
Context {T : Type} {AT : Arith T}.
Variables (bits group_size : Z).
Hypothesis Hbits : valid_bits bits.
Hypothesis Hgroup : valid_group_size group_size.
Variables (x : buf T) (wb : buf Z) (scales biases : buf T).

(** One pack of [_qmm] accumulates the codes of [decode_pack], in
    order, and moves [w_local] to the next pack. *)
Lemma qmm_pack_unfold (xi scale bias : T) (a : qmm_acc T) :
  qmm_pack bits wb xi scale bias a
  = let a' :=
      fold_left (fun a v => qmm_accumulate xi scale bias (of_Z v) a)
        (decode_pack bits (shift wb (qa_w_local a))) a in
    mk_qmm_acc (qa_res a') (qa_result_local a')
      (qa_w_local a + get_bytes_per_pack bits 8).
Proof.
  destruct Hbits as [-> | [-> | [-> | [-> | [-> | ->]]]]];
    unfold qmm_pack, decode_pack, shift; cbn [Z.eqb Pos.eqb orb];
    rewrite ?Z.add_0_r; reflexivity.
Qed.

Lemma accumulate_list (xi scale bias : T) (vs : list Z) (a : qmm_acc T) :
  let a' :=
    fold_left (fun a v => qmm_accumulate xi scale bias (of_Z v) a) vs a in
  qa_result_local a' = qa_result_local a + Z.of_nat (List.length vs)
  /\ qa_w_local a' = qa_w_local a
  /\ added (qa_res a) (qa_result_local a) (Z.of_nat (List.length vs))
       (fun i =>
          fmul xi (fadd (fmul scale (of_Z (nth (Z.to_nat i) vs 0))) bias))
       (qa_res a').
Proof.
  revert a. induction vs as [| v vs IH]; intros a; cbn zeta.
  - cbn [fold_left List.length Z.of_nat]. repeat split; try lia.
    apply added_nil.
  - cbn [fold_left List.length].
    destruct (IH (qmm_accumulate xi scale bias (of_Z v) a))
      as (Hrl & Hw & Hadd).
    cbn zeta in Hrl, Hw, Hadd.
    cbn [qmm_accumulate qa_result_local qa_w_local qa_res] in Hrl, Hw, Hadd.
    repeat split; try lia; trivial.
    replace (Z.of_nat (S (List.length vs)))
      with (1 + Z.of_nat (List.length vs)) by lia.
    eapply added_app; [lia | lia | | exact Hadd |].
    + intros p. unfold upd.
      destruct (Z.eqb_spec p (qa_result_local a)) as [-> | Hne].
      * replace ((qa_result_local a <=? qa_result_local a)
                 && (qa_result_local a <? qa_result_local a + 1))
          with true by (symmetry; apply andb_true_iff; split;
                        [apply Z.leb_le | apply Z.ltb_lt]; lia).
        rewrite Z.sub_diag. reflexivity.
      * replace ((qa_result_local a <=? p) && (p <? qa_result_local a + 1))
          with false; trivial.
        symmetry. apply andb_false_iff.
        destruct (Z.leb_spec (qa_result_local a) p); [right | left; trivial].
        apply Z.ltb_ge. lia.
    + intros i Hi. cbn beta.
      replace (Z.to_nat (1 + i)) with (S (Z.to_nat i)) by lia.
      reflexivity.
Qed.

(** Pack [q] of the weights, accumulated at [result_local]. *)
Lemma qmm_pack_spec (xi scale bias : T) (q : Z) (a : qmm_acc T) :
  qa_w_local a = q * get_bytes_per_pack bits 8 ->
  let a' := qmm_pack bits wb xi scale bias a in
  qa_result_local a' = qa_result_local a + get_pack_factor bits 8
  /\ qa_w_local a' = (q + 1) * get_bytes_per_pack bits 8
  /\ added (qa_res a) (qa_result_local a) (get_pack_factor bits 8)
       (fun i =>
          fmul xi
            (fadd (fmul scale
                     (of_Z (code_at bits wb
                              (q * get_pack_factor bits 8 + i))))
               bias))
       (qa_res a').
Proof.
  intros Hw. cbn zeta. rewrite qmm_pack_unfold. cbn zeta.
  destruct (pack_layout bits Hbits) as (Hpf & Hbpp & Hlen).
  destruct (accumulate_list xi scale bias
              (decode_pack bits (shift wb (qa_w_local a))) a)
    as (Hrl & _ & Hadd).
  cbn zeta in Hrl, Hadd. rewrite Hlen, Z2Nat.id in Hrl, Hadd by lia.
  cbn [qa_result_local qa_w_local qa_res].
  repeat split; trivial; try lia.
  eapply added_ext; [exact Hadd |].
  intros i Hi. cbn beta. rewrite code_at_pack by lia.
  rewrite Hw. reflexivity.
Qed.

(** The packs of one group. *)
Lemma qmm_packs_spec (xi scale bias : T) (q0 : Z) (a : qmm_acc T) :
  qa_w_local a = q0 * get_bytes_per_pack bits 8 ->
  let a' :=
    for_lt (packs_in_group bits group_size)
      (fun ng a => qmm_pack bits wb xi scale bias a) a in
  qa_result_local a' = qa_result_local a + group_size
  /\ qa_w_local a'
     = (q0 + packs_in_group bits group_size) * get_bytes_per_pack bits 8
  /\ added (qa_res a) (qa_result_local a) group_size
       (fun i =>
          fmul xi
            (fadd (fmul scale
                     (of_Z (code_at bits wb
                              (q0 * get_pack_factor bits 8 + i))))
               bias))
       (qa_res a').
Proof.
  intros Hw. cbn zeta.
  destruct (pack_layout bits Hbits) as (Hpf & Hbpp & _).
  destruct (group_layout bits group_size Hbits Hgroup) as (Hpig & Hgs).
  set (pf := get_pack_factor bits 8) in *.
  set (bpp := get_bytes_per_pack bits 8) in *.
  set (pig := packs_in_group bits group_size) in *.
  set (V := fun i : Z =>
              fmul xi
                (fadd (fmul scale (of_Z (code_at bits wb (q0 * pf + i))))
                   bias)).
  unfold for_lt.
  pose (P := fun (g : nat) (a' : qmm_acc T) =>
               qa_result_local a' = qa_result_local a + Z.of_nat g * pf
               /\ qa_w_local a' = (q0 + Z.of_nat g) * bpp
               /\ added (qa_res a) (qa_result_local a) (Z.of_nat g * pf) V
                    (qa_res a')).
  assert (HP : P (Z.to_nat pig)
                 (for_from (Z.to_nat pig) 0 1
                    (fun _ a => qmm_pack bits wb xi scale bias a) a)).
  { apply for_from_inv.
    - unfold P. rewrite Z.mul_0_l. repeat split; try lia.
      apply added_nil.
    - intros g a' _ (Hrl & Hwl & Hadd).
      destruct (qmm_pack_spec xi scale bias (q0 + Z.of_nat g) a' Hwl)
        as (Hrl' & Hwl' & Hadd').
      cbn zeta in Hrl', Hwl', Hadd'. fold pf bpp in Hrl', Hwl', Hadd'.
      unfold P. repeat split; try lia.
      replace (Z.of_nat (S g) * pf) with (Z.of_nat g * pf + pf) by lia.
      eapply added_app; [lia | lia | exact Hadd | |].
      + rewrite <- Hrl. exact Hadd'.
      + intros i Hi. unfold V. cbn beta. do 5 f_equal. lia. }
  destruct HP as (Hrl & Hwl & Hadd).
  rewrite Z2Nat.id in Hrl, Hwl, Hadd by lia.
  rewrite <- Hgs in Hrl, Hadd. repeat split; trivial.
Qed.

(** [G] groups of one row of the weights, starting at pack [q0]. *)
Lemma qmm_groups_spec (xi : T) (G : nat) (q0 step : Z) (row : qmm_row T) :
  qa_w_local (qr_acc row) = q0 * get_bytes_per_pack bits 8 ->
  let row' :=
    for_from G 0 step
      (fun n row =>
         let scale := scales (qr_scales_local row) in
         let bias := biases (qr_biases_local row) in
         mk_qmm_row
           (for_lt (packs_in_group bits group_size)
              (fun ng a => qmm_pack bits wb xi scale bias a)
              (qr_acc row))
           (qr_scales_local row + 1) (qr_biases_local row + 1)
           (qr_x row)) row in
  qa_result_local (qr_acc row')
  = qa_result_local (qr_acc row) + Z.of_nat G * group_size
  /\ qa_w_local (qr_acc row')
     = (q0 + Z.of_nat G * packs_in_group bits group_size)
       * get_bytes_per_pack bits 8
  /\ qr_scales_local row' = qr_scales_local row + Z.of_nat G
  /\ qr_biases_local row' = qr_biases_local row + Z.of_nat G
  /\ qr_x row' = qr_x row
  /\ added (qa_res (qr_acc row)) (qa_result_local (qr_acc row))
       (Z.of_nat G * group_size)
       (fun i =>
          fmul xi
            (fadd
               (fmul (scales (qr_scales_local row + i / group_size))
                  (of_Z (code_at bits wb
                           (q0 * get_pack_factor bits 8 + i))))
               (biases (qr_biases_local row + i / group_size))))
       (qa_res (qr_acc row')).
Proof.
  intros Hw. cbn zeta.
  destruct (pack_layout bits Hbits) as (Hpf & Hbpp & _).
  destruct (group_layout bits group_size Hbits Hgroup) as (Hpig & Hgs).
  assert (Hgpos : 0 < group_size)
    by (unfold valid_group_size in Hgroup; lia).
  set (pf := get_pack_factor bits 8) in *.
  set (bpp := get_bytes_per_pack bits 8) in *.
  set (pig := packs_in_group bits group_size) in *.
  set (V := fun i : Z =>
              fmul xi
                (fadd
                   (fmul (scales (qr_scales_local row + i / group_size))
                      (of_Z (code_at bits wb (q0 * pf + i))))
                   (biases (qr_biases_local row + i / group_size)))).
  apply (for_from_inv
           (fun (t : nat) (r : qmm_row T) =>
              qa_result_local (qr_acc r)
              = qa_result_local (qr_acc row) + Z.of_nat t * group_size
              /\ qa_w_local (qr_acc r) = (q0 + Z.of_nat t * pig) * bpp
              /\ qr_scales_local r = qr_scales_local row + Z.of_nat t
              /\ qr_biases_local r = qr_biases_local row + Z.of_nat t
              /\ qr_x r = qr_x row
              /\ added (qa_res (qr_acc row)) (qa_result_local (qr_acc row))
                   (Z.of_nat t * group_size) V (qa_res (qr_acc r)))).
  - rewrite !Z.mul_0_l. repeat split; try lia. apply added_nil.
  - intros t r _ (Hrl & Hwl & Hsl & Hbl & Hx & Hadd).
    destruct (qmm_packs_spec xi (scales (qr_scales_local r))
                (biases (qr_biases_local r)) (q0 + Z.of_nat t * pig)
                (qr_acc r) Hwl)
      as (Hrl' & Hwl' & Hadd').
    cbn zeta in Hrl', Hwl', Hadd'. fold pf bpp pig in Hrl', Hwl', Hadd'.
    cbn [qr_acc qr_scales_local qr_biases_local qr_x].
    repeat split; try lia.
    replace (Z.of_nat (S t) * group_size)
      with (Z.of_nat t * group_size + group_size) by lia.
    eapply added_app; [lia | lia | exact Hadd | |].
    + rewrite <- Hrl. exact Hadd'.
    + intros i Hi. unfold V. cbn beta.
      replace ((Z.of_nat t * group_size + i) / group_size)
        with (Z.of_nat t).
      2:{ rewrite Z.add_comm, Z.div_add by lia.
          rewrite Z.div_small by lia. reflexivity. }
      rewrite Hsl, Hbl.
      replace ((q0 + Z.of_nat t * pig) * pf + i)
        with (q0 * pf + (Z.of_nat t * group_size + i)) by nia.
      reflexivity.
Qed.

Lemma sum_from_S (init : T) (n : nat) (term : Z -> T) :
  sum_from init (S n) term
  = fadd (sum_from init n term) (term (Z.of_nat n)).
Proof.
  unfold sum_from. rewrite seq_S, fold_left_app. reflexivity.
Qed.

Lemma sum_from_ext (init : T) (n : nat) (f g : Z -> T) :
  (forall k, 0 <= k < Z.of_nat n -> f k = g k) ->
  sum_from init n f = sum_from init n g.
Proof.
  induction n as [| n IH]; intros H; [reflexivity |].
  rewrite !sum_from_S, IH, H by (intros; try apply H; lia). reflexivity.
Qed.

(** [std::fill(result, result + N, 0)] *)
Lemma fill_spec (res : buf T) (result N : Z) :
  0 <= N ->
  forall p,
    for_lt N (fun j r => upd r (result + j) (of_Z 0)) res p
    = if (result <=? p) && (p <? result + N) then of_Z 0 else res p.
Proof.
  intros HN. unfold for_lt.
  pose (P := fun (k : nat) (r : buf T) =>
               forall p, r p = if (result <=? p) && (p <? result + Z.of_nat k)
                               then of_Z 0 else res p).
  assert (HP : P (Z.to_nat N)
                 (for_from (Z.to_nat N) 0 1
                    (fun j r => upd r (result + j) (of_Z 0)) res)).
  { apply for_from_inv.
    - intros p. cbn [Z.of_nat].
      destruct (Z.leb_spec result p), (Z.ltb_spec p (result + 0));
        cbn [andb]; trivial; lia.
    - intros k r _ Hr p. unfold upd. rewrite Hr.
      destruct (Z.eqb_spec p (result + (0 + Z.of_nat k * 1))),
        (Z.leb_spec result p), (Z.ltb_spec p (result + Z.of_nat k)),
        (Z.ltb_spec p (result + Z.of_nat (S k)));
        cbn [andb]; trivial; lia. }
  intros p. rewrite (HP p), Z2Nat.id by lia. reflexivity.
Qed.

(** The rows [k] of the weights accumulated into one output row.  The
    row holds [N = G * group_size] elements; the input row starts at
    [x0]. *)
Lemma qmm_rows_spec (res : buf T) (result x0 : Z) (G Kn : nat) (step : Z) :
  let N := Z.of_nat G * group_size in
  let row' :=
    for_from Kn 0 1
      (fun k row =>
         let xi := x (qr_x row) in
         let row :=
           mk_qmm_row
             (mk_qmm_acc (qa_res (qr_acc row)) result
                (qa_w_local (qr_acc row)))
             (qr_scales_local row) (qr_biases_local row)
             (qr_x row + 1) in
         for_from G 0 step
           (fun n row =>
              let scale := scales (qr_scales_local row) in
              let bias := biases (qr_biases_local row) in
              mk_qmm_row
                (for_lt (packs_in_group bits group_size)
                   (fun ng a => qmm_pack bits wb xi scale bias a)
                   (qr_acc row))
                (qr_scales_local row + 1) (qr_biases_local row + 1)
                (qr_x row)) row)
      (mk_qmm_row (mk_qmm_acc res result 0) 0 0 x0) in
  qr_x row' = x0 + Z.of_nat Kn
  /\ forall p,
       qa_res (qr_acc row') p
       = if (result <=? p) && (p <? result + N)
         then sum_from (res p) Kn
                (fun k =>
                   fmul (x (x0 + k))
                     (dequant_at bits group_size wb scales biases
                        (k * N + (p - result))))
         else res p.
Proof.
  cbn zeta.
  destruct (pack_layout bits Hbits) as (Hpf & Hbpp & _).
  destruct (group_layout bits group_size Hbits Hgroup) as (Hpig & Hgs).
  assert (Hgpos : 0 < group_size)
    by (unfold valid_group_size in Hgroup; lia).
  set (N := Z.of_nat G * group_size).
  set (pf := get_pack_factor bits 8) in *.
  set (bpp := get_bytes_per_pack bits 8) in *.
  set (pig := packs_in_group bits group_size) in *.
  set (term := fun (p k : Z) =>
                 fmul (x (x0 + k))
                   (dequant_at bits group_size wb scales biases
                      (k * N + (p - result)))).
  pose (R := fun (k : nat) (row : qmm_row T) =>
               qr_x row = x0 + Z.of_nat k
               /\ qa_w_local (qr_acc row)
                  = (Z.of_nat k * Z.of_nat G * pig) * bpp
               /\ qr_scales_local row = Z.of_nat k * Z.of_nat G
               /\ qr_biases_local row = Z.of_nat k * Z.of_nat G
               /\ forall p,
                    qa_res (qr_acc row) p
                    = if (result <=? p) && (p <? result + N)
                      then sum_from (res p) k (term p) else res p).
  match goal with
  | |- qr_x ?r = _ /\ _ => assert (HR : R Kn r)
  end.
  { apply for_from_inv.
    - unfold R. cbn [qr_acc qr_scales_local qr_biases_local qr_x
                     qa_result_local qa_w_local qa_res].
      repeat split; try lia.
      intros p. destruct ((result <=? p) && (p <? result + N)); reflexivity.
    - intros k row _ (Hx & Hw & Hs & Hb & Hres).
      match goal with
      | |- R _ (for_from G 0 step ?body ?row0) =>
          pose proof (qmm_groups_spec (x (qr_x row)) G
                        (Z.of_nat k * Z.of_nat G * pig) step row0) as Hg
      end.
      cbn [qr_acc qr_scales_local qr_biases_local qr_x
           qa_result_local qa_w_local qa_res] in Hg.
      specialize (Hg Hw). cbn zeta in Hg.
      destruct Hg as (_ & Hw' & Hs' & Hb' & Hx' & Hadd).
      fold pf bpp pig in Hw', Hs', Hb', Hx', Hadd. fold N in Hadd.
      unfold R. repeat split; try lia.
      intros p. rewrite (Hadd p), (Hres p).
      destruct ((result <=? p) && (p <? result + N)) eqn:Hin; trivial.
      rewrite sum_from_S. f_equal. unfold term, dequant_at.
      apply andb_true_iff in Hin. destruct Hin as [H1 H2].
      apply Z.leb_le in H1. apply Z.ltb_lt in H2.
      rewrite Hx, Hs, Hb.
      replace ((Z.of_nat k * N + (p - result)) / group_size)
        with (Z.of_nat k * Z.of_nat G + (p - result) / group_size).
      2:{ unfold N.
          replace (Z.of_nat k * (Z.of_nat G * group_size) + (p - result))
            with ((p - result) + Z.of_nat k * Z.of_nat G * group_size)
            by lia.
          rewrite Z.div_add by lia. lia. }
      replace (Z.of_nat k * Z.of_nat G * pig * pf + (p - result))
        with (Z.of_nat k * N + (p - result)) by (unfold N; nia).
      reflexivity. }
  destruct HR as (Hx & _ & _ & _ & Hres). split; trivial.
Qed.
End QmmSpec.

Lemma trip_count_exact (N step : Z) :
  0 < step -> 0 <= N -> N mod step = 0 ->
  Z.of_nat (trip_count N step) * step = N.
Proof.
  intros Hs HN Hm. unfold trip_count.
  assert (HNeq : N = step * (N / step)) by (apply Z.div_exact; lia).
  replace ((N + step - 1) / step) with (N / step).
  - rewrite Z2Nat.id by (apply Z.div_pos; lia). lia.
  - symmetry. rewrite HNeq at 1.
    replace (step * (N / step) + step - 1)
      with ((step - 1) + (N / step) * step) by lia.
    rewrite Z.div_add by lia. rewrite Z.div_small by lia. lia.
Qed.

Section QmmKernel.
Context {T : Type} {AT : Arith T}.
Variables (bits group_size : Z).
Hypothesis Hbits : valid_bits bits.
Hypothesis Hgroup : valid_group_size group_size.
Variables (x : buf T) (w : buf Z) (scales biases : buf T).

(** [_qmm] writes, at row [m] and column [n] of the output, the sum
    over [k] of [x[m,k] * (scale * code + bias)] for the weight at
    [(k, n)]. *)
Lemma qmm_computes (res : buf T) (rp M N K : Z) :
  0 <= K -> N mod group_size = 0 ->
  forall m n, 0 <= m < M -> 0 <= n < N ->
    _qmm bits group_size res rp x w scales biases M N K (rp + m * N + n)
    = matmul_entry bits group_size x (bytes_of_words w) scales biases
        K m (fun k => k * N + n).
Proof.
  intros HK Hdiv m n Hm Hn.
  assert (Hgpos : 0 < group_size)
    by (unfold valid_group_size in Hgroup; lia).
  assert (HN : Z.of_nat (trip_count N group_size) * group_size = N)
    by (apply trip_count_exact; lia).
  set (entry := fun m' n' =>
                  matmul_entry bits group_size x (bytes_of_words w)
                    scales biases K m' (fun k => k * N + n')).
  unfold _qmm. unfold for_lt at 1.
  pose (P := fun (i : nat) (s : kernel_m T) =>
               km_result s = rp + Z.of_nat i * N
               /\ km_x s = Z.of_nat i * K
               /\ forall m' n', 0 <= m' < Z.of_nat i -> 0 <= n' < N ->
                    km_res s (rp + m' * N + n') = entry m' n').
  match goal with
  | |- km_res ?s _ = _ => assert (HP : P (Z.to_nat M) s)
  end.
  { apply for_from_inv.
    - unfold P. cbn [km_result km_x km_res]. repeat split; try lia.
    - intros i s _ (Hres & Hx & Hout). cbv zeta.
      pose proof (fill_spec (km_res s) (km_result s) N ltac:(lia)) as Hfill.
      set (filled := for_lt N _ (km_res s)) in *.
      pose proof (qmm_rows_spec bits group_size Hbits Hgroup x
                    (bytes_of_words w) scales biases filled (km_result s)
                    (km_x s) (trip_count N group_size) (Z.to_nat K)
                    group_size) as Hrows.
      cbv zeta in Hrows. rewrite HN in Hrows.
      destruct Hrows as [Hx' Hrows].
      unfold P. cbn [km_result km_x km_res].
      unfold for_lt at 1. unfold for_lt_step.
      repeat split; try lia.
      intros m' n' Hm' Hn'.
      rewrite Hrows, Hfill.
      destruct (Z.eq_dec m' (Z.of_nat i)) as [-> | Hne].
      + replace ((km_result s <=? rp + Z.of_nat i * N + n')
                 && (rp + Z.of_nat i * N + n' <? km_result s + N))
          with true
          by (symmetry; apply andb_true_iff; split;
              [apply Z.leb_le | apply Z.ltb_lt]; lia).
        unfold entry, matmul_entry. apply sum_from_ext.
        intros k Hk. rewrite Hx.
        replace (rp + Z.of_nat i * N + n' - km_result s) with n' by lia.
        reflexivity.
      + replace ((km_result s <=? rp + m' * N + n')
                 && (rp + m' * N + n' <? km_result s + N))
          with false.
        * apply Hout; lia.
        * symmetry. apply andb_false_iff. left. apply Z.leb_gt. nia. }
  destruct HP as (_ & _ & Hout). apply Hout; lia.
Qed.
End QmmKernel.

(** ** What the transposed kernel computes *)

Section QmmTSpec.
Context {T : Type} {AT : Arith T}.
Variables (bits group_size : Z).
Hypothesis Hbits : valid_bits bits.
Hypothesis Hgroup : valid_group_size group_size.
Variables (x : buf T) (wb : buf Z) (scales biases : buf T).

Lemma sum_from_block (s0 : T) (n1 n2 : nat) (V V' : Z -> T) :
  (forall i, 0 <= i < Z.of_nat n2 -> V' i = V (Z.of_nat n1 + i)) ->
  sum_from (sum_from s0 n1 V) n2 V' = sum_from s0 (n1 + n2) V.
Proof.
  induction n2 as [| n2 IH]; intros H.
  - now rewrite Nat.add_0_r.
  - rewrite Nat.add_succ_r, !sum_from_S, IH by (intros; apply H; lia).
    rewrite H by lia. do 2 f_equal. lia.
Qed.

(** One pack of [_qmm_t] adds the products of [pack_factor] inputs
    with the codes of [decode_pack]. *)
Lemma qmm_t_pack_unfold (scale bias : T) (d : qmm_t_dot T) :
  qmm_t_pack bits wb x scale bias d
  = mk_qmm_t_dot
      (sum_from (qd_sum d) (Z.to_nat (get_pack_factor bits 8))
         (fun i =>
            fmul (x (qd_x_local d + i))
              (fadd
                 (fmul scale
                    (of_Z (nth (Z.to_nat i)
                             (decode_pack bits (shift wb (qd_w_local d)))
                             0)))
                 bias)))
      (qd_x_local d + get_pack_factor bits 8)
      (qd_w_local d + get_bytes_per_pack bits 8).
Proof.
  destruct Hbits as [-> | [-> | [-> | [-> | [-> | ->]]]]];
    cbv -[Z.add Z.land Z.shiftr Z.shiftl Z.modulo Z.pow Z.sub
          fadd fmul of_Z];
    rewrite <- ?Z.add_assoc; eval_closed; rewrite ?Z.add_0_r;
    reflexivity.
Qed.

Lemma qmm_t_pack_spec (scale bias : T) (q : Z) (d : qmm_t_dot T) :
  qd_w_local d = q * get_bytes_per_pack bits 8 ->
  let d' := qmm_t_pack bits wb x scale bias d in
  qd_sum d'
  = sum_from (qd_sum d) (Z.to_nat (get_pack_factor bits 8))
      (t_term bits x wb (qd_x_local d) q (fun _ => scale) (fun _ => bias))
  /\ qd_x_local d' = qd_x_local d + get_pack_factor bits 8
  /\ qd_w_local d' = (q + 1) * get_bytes_per_pack bits 8.
Proof.
  intros Hw. cbn zeta. rewrite qmm_t_pack_unfold.
  destruct (pack_layout bits Hbits) as (Hpf & Hbpp & _).
  cbn [qd_sum qd_x_local qd_w_local]. repeat split; try lia.
  apply sum_from_ext. intros i Hi. unfold t_term.
  rewrite code_at_pack by lia. rewrite Hw. reflexivity.
Qed.

(** The packs of one group. *)
Lemma qmm_t_packs_spec (scale bias : T) (q0 : Z) (d : qmm_t_dot T) :
  qd_w_local d = q0 * get_bytes_per_pack bits 8 ->
  let d' :=
    for_lt (packs_in_group bits group_size)
      (fun kw d => qmm_t_pack bits wb x scale bias d) d in
  qd_sum d'
  = sum_from (qd_sum d) (Z.to_nat group_size)
      (t_term bits x wb (qd_x_local d) q0 (fun _ => scale) (fun _ => bias))
  /\ qd_x_local d' = qd_x_local d + group_size
  /\ qd_w_local d'
     = (q0 + packs_in_group bits group_size) * get_bytes_per_pack bits 8.
Proof.
  intros Hw. cbn zeta.
  destruct (pack_layout bits Hbits) as (Hpf & Hbpp & _).
  destruct (group_layout bits group_size Hbits Hgroup) as (Hpig & Hgs).
  set (pf := get_pack_factor bits 8) in *.
  set (bpp := get_bytes_per_pack bits 8) in *.
  set (pig := packs_in_group bits group_size) in *.
  set (V := t_term bits x wb (qd_x_local d) q0
              (fun _ => scale) (fun _ => bias)).
  unfold for_lt.
  pose (P := fun (g : nat) (d' : qmm_t_dot T) =>
               qd_sum d' = sum_from (qd_sum d) (g * Z.to_nat pf) V
               /\ qd_x_local d' = qd_x_local d + Z.of_nat g * pf
               /\ qd_w_local d' = (q0 + Z.of_nat g) * bpp).
  assert (HP : P (Z.to_nat pig)
                 (for_from (Z.to_nat pig) 0 1
                    (fun _ d => qmm_t_pack bits wb x scale bias d) d)).
  { apply for_from_inv.
    - unfold P. cbn [Nat.mul]. unfold sum_from. cbn [seq fold_left].
      repeat split; lia.
    - intros g d' _ (Hsum & Hxl & Hwl).
      destruct (qmm_t_pack_spec scale bias (q0 + Z.of_nat g) d' Hwl)
        as (Hsum' & Hxl' & Hwl').
      cbn zeta in Hsum', Hxl', Hwl'. fold pf bpp in Hsum', Hxl', Hwl'.
      unfold P. repeat split; try lia.
      rewrite Hsum', Hsum.
      replace (S g * Z.to_nat pf)%nat
        with (g * Z.to_nat pf + Z.to_nat pf)%nat by lia.
      apply sum_from_block. intros i Hi. unfold V, t_term.
      fold pf. rewrite Hxl.
      replace (Z.of_nat (g * Z.to_nat pf)) with (Z.of_nat g * pf) by nia.
      replace (qd_x_local d + Z.of_nat g * pf + i)
        with (qd_x_local d + (Z.of_nat g * pf + i)) by lia.
      replace ((q0 + Z.of_nat g) * pf + i)
        with (q0 * pf + (Z.of_nat g * pf + i)) by lia.
      reflexivity. }
  destruct HP as (Hsum & Hxl & Hwl).
  rewrite Z2Nat.id in Hxl, Hwl by lia.
  replace (Z.to_nat pig * Z.to_nat pf)%nat with (Z.to_nat group_size)
    in Hsum by nia.
  rewrite <- Hgs in Hxl. repeat split; trivial.
Qed.

(** [G] groups of one row of the transposed weights. *)
Lemma qmm_t_groups_spec (G : nat) (q0 step : Z) (d : qmm_t_dot T)
    (sl bl : Z) :
  qd_w_local d = q0 * get_bytes_per_pack bits 8 ->
  let s' :=
    for_from G 0 step
      (fun k '(d, sl, bl) =>
         let scale := scales sl in
         let bias := biases bl in
         (for_lt (packs_in_group bits group_size)
            (fun kw d => qmm_t_pack bits wb x scale bias d) d,
          sl + 1, bl + 1))
      (d, sl, bl) in
  qd_sum (fst (fst s'))
  = sum_from (qd_sum d) (G * Z.to_nat group_size)
      (t_term bits x wb (qd_x_local d) q0
         (fun i => scales (sl + i / group_size))
         (fun i => biases (bl + i / group_size)))
  /\ qd_x_local (fst (fst s')) = qd_x_local d + Z.of_nat G * group_size
  /\ qd_w_local (fst (fst s'))
     = (q0 + Z.of_nat G * packs_in_group bits group_size)
       * get_bytes_per_pack bits 8
  /\ snd (fst s') = sl + Z.of_nat G
  /\ snd s' = bl + Z.of_nat G.
Proof.
  intros Hw. cbn zeta.
  destruct (pack_layout bits Hbits) as (Hpf & Hbpp & _).
  destruct (group_layout bits group_size Hbits Hgroup) as (Hpig & Hgs).
  assert (Hgpos : 0 < group_size)
    by (unfold valid_group_size in Hgroup; lia).
  set (pf := get_pack_factor bits 8) in *.
  set (bpp := get_bytes_per_pack bits 8) in *.
  set (pig := packs_in_group bits group_size) in *.
  set (V := t_term bits x wb (qd_x_local d) q0
              (fun i => scales (sl + i / group_size))
              (fun i => biases (bl + i / group_size))).
  apply (for_from_inv
           (fun (t : nat) (s : qmm_t_dot T * Z * Z) =>
              qd_sum (fst (fst s))
              = sum_from (qd_sum d) (t * Z.to_nat group_size) V
              /\ qd_x_local (fst (fst s))
                 = qd_x_local d + Z.of_nat t * group_size
              /\ qd_w_local (fst (fst s)) = (q0 + Z.of_nat t * pig) * bpp
              /\ snd (fst s) = sl + Z.of_nat t
              /\ snd s = bl + Z.of_nat t)).
  - cbn [fst snd Nat.mul]. unfold sum_from. cbn [seq fold_left].
    repeat split; lia.
  - intros t [[d' sl'] bl'] _ (Hsum & Hxl & Hwl & Hsl & Hbl).
    cbn [fst snd] in *.
    destruct (qmm_t_packs_spec (scales sl') (biases bl')
                (q0 + Z.of_nat t * pig) d' Hwl)
      as (Hsum' & Hxl' & Hwl').
    cbn zeta in Hsum', Hxl', Hwl'. fold pf bpp pig in Hsum', Hxl', Hwl'.
    repeat split; try lia.
    rewrite Hsum', Hsum.
    replace (S t * Z.to_nat group_size)%nat
      with (t * Z.to_nat group_size + Z.to_nat group_size)%nat by lia.
    apply sum_from_block. intros i Hi. unfold V, t_term. fold pf.
    rewrite Hxl, Hsl, Hbl.
    replace (Z.of_nat (t * Z.to_nat group_size))
      with (Z.of_nat t * group_size) by nia.
    replace ((Z.of_nat t * group_size + i) / group_size) with (Z.of_nat t).
    2:{ rewrite Z.add_comm, Z.div_add by lia.
        rewrite Z.div_small by lia. reflexivity. }
    replace (qd_x_local d + Z.of_nat t * group_size + i)
      with (qd_x_local d + (Z.of_nat t * group_size + i)) by lia.
    replace ((q0 + Z.of_nat t * pig) * pf + i)
      with (q0 * pf + (Z.of_nat t * group_size + i)) by nia.
    reflexivity.
Qed.
End QmmTSpec.

Section QmmTKernel.
Context {T : Type} {AT : Arith T}.
Variables (bits group_size : Z).
Hypothesis Hbits : valid_bits bits.
Hypothesis Hgroup : valid_group_size group_size.
Variables (x : buf T) (w : buf Z) (scales biases : buf T).

(** [_qmm_t] writes, at row [m] and column [n] of the output, the sum
    over [k] of [x[m,k] * (scale * code + bias)] for the weight at
    [(n, k)]. *)
Lemma qmm_t_computes (res : buf T) (rp M N K : Z) :
  0 <= K -> K mod group_size = 0 ->
  forall m n, 0 <= m < M -> 0 <= n < N ->
    _qmm_t bits group_size res rp x w scales biases M N K (rp + m * N + n)
    = matmul_entry bits group_size x (bytes_of_words w) scales biases
        K m (fun k => n * K + k).
Proof.
  intros HK Hdiv m n Hm Hn.
  destruct (pack_layout bits Hbits) as (Hpf & Hbpp & _).
  destruct (group_layout bits group_size Hbits Hgroup) as (Hpig & Hgs).
  assert (Hgpos : 0 < group_size)
    by (unfold valid_group_size in Hgroup; lia).
  assert (HKG : Z.of_nat (trip_count K group_size) * group_size = K)
    by (apply trip_count_exact; lia).
  set (G := trip_count K group_size) in *.
  set (wb := bytes_of_words w).
  set (pf := get_pack_factor bits 8) in *.
  set (bpp := get_bytes_per_pack bits 8) in *.
  set (pig := packs_in_group bits group_size) in *.
  set (entry := fun m' n' =>
                  matmul_entry bits group_size x wb
                    scales biases K m' (fun k => n' * K + k)).
  unfold _qmm_t, for_lt_step. fold G wb. unfold for_lt at 1.
  pose (P := fun (i : nat) (s : kernel_m T) =>
               km_result s = rp + Z.of_nat i * N
               /\ km_x s = Z.of_nat i * K
               /\ forall m' n', 0 <= m' < Z.of_nat i -> 0 <= n' < N ->
                    km_res s (rp + m' * N + n') = entry m' n').
  match goal with
  | |- km_res ?s _ = _ => assert (HP : P (Z.to_nat M) s)
  end.
  { apply for_from_inv.
    - unfold P. cbn [km_result km_x km_res]. repeat split; try lia.
    - intros i s _ (Hres & Hx & Hout). unfold for_lt.
      pose (R := fun (j : nat) (row : qmm_t_row T) =>
                   qt_result row = km_result s + Z.of_nat j
                   /\ qt_w_local row
                      = (Z.of_nat j * Z.of_nat G * pig) * bpp
                   /\ qt_scales_local row = Z.of_nat j * Z.of_nat G
                   /\ qt_biases_local row = Z.of_nat j * Z.of_nat G
                   /\ forall p,
                        qt_res row p
                        = if (km_result s <=? p)
                             && (p <? km_result s + Z.of_nat j)
                          then entry (Z.of_nat i) (p - km_result s)
                          else km_res s p).
      match goal with
      | |- P _ (mk_kernel_m (qt_res ?r) _ _) =>
          assert (HR : R (Z.to_nat N) r)
      end.
      { apply for_from_inv.
        - unfold R.
          cbn [qt_result qt_w_local qt_scales_local qt_biases_local qt_res].
          repeat split; try lia.
          intros p. cbn [Z.of_nat].
          destruct (Z.leb_spec (km_result s) p),
            (Z.ltb_spec p (km_result s + 0)); cbn [andb]; trivial; lia.
        - intros j row _ (Hr & Hw & Hs & Hb & Hrow).
          pose proof (qmm_t_groups_spec bits group_size Hbits Hgroup x wb
                        scales biases G
                        (Z.of_nat j * Z.of_nat G * pig) group_size
                        (mk_qmm_t_dot (of_Z 0) (km_x s) (qt_w_local row))
                        (qt_scales_local row) (qt_biases_local row) Hw)
            as Hg.
          cbv zeta in Hg. unfold for_lt in Hg. fold pf bpp pig in Hg.
          destruct (for_from G 0 group_size _ _) as [[d' sl'] bl'].
          cbn [fst snd qd_sum qd_x_local qd_w_local] in Hg.
          destruct Hg as (Hsum & _ & Hwl & Hsl & Hbl).
          unfold R.
          cbn [qt_result qt_w_local qt_scales_local qt_biases_local qt_res].
          repeat split; try lia.
          intros p. unfold upd. rewrite Hrow.
          destruct (Z.eqb_spec p (qt_result row)) as [-> | Hne].
          + replace ((km_result s <=? qt_result row)
                     && (qt_result row <? km_result s + Z.of_nat (S j)))
              with true
              by (symmetry; apply andb_true_iff; split;
                  [apply Z.leb_le | apply Z.ltb_lt]; lia).
            rewrite Hsum. unfold entry, matmul_entry.
            replace (Z.to_nat K) with (G * Z.to_nat group_size)%nat
              by nia.
            apply sum_from_ext. intros k Hk.
            unfold t_term, dequant_at. fold pf.
            rewrite Hs, Hb, Hx.
            replace (qt_result row - km_result s) with (Z.of_nat j) by lia.
            replace ((Z.of_nat j * K + k) / group_size)
              with (Z.of_nat j * Z.of_nat G + k / group_size).
            2:{ rewrite <- HKG.
                replace (Z.of_nat j * (Z.of_nat G * group_size) + k)
                  with (k + Z.of_nat j * Z.of_nat G * group_size) by lia.
                rewrite Z.div_add by lia. lia. }
            replace (Z.of_nat j * Z.of_nat G * pig * pf + k)
              with (Z.of_nat j * K + k) by nia.
            reflexivity.
          + destruct (Z.leb_spec (km_result s) p),
              (Z.ltb_spec p (km_result s + Z.of_nat j)),
              (Z.ltb_spec p (km_result s + Z.of_nat (S j)));
              cbn [andb]; trivial; lia. }
      destruct HR as (Hr & _ & _ & _ & Hrow).
      unfold P. cbn [km_result km_x km_res].
      repeat split; try lia.
      intros m' n' Hm' Hn'. rewrite Hrow.
      destruct (Z.eq_dec m' (Z.of_nat i)) as [-> | Hne].
      + replace ((km_result s <=? rp + Z.of_nat i * N + n')
                 && (rp + Z.of_nat i * N + n'
                     <? km_result s + Z.of_nat (Z.to_nat N)))
          with true
          by (symmetry; apply andb_true_iff; split;
              [apply Z.leb_le | apply Z.ltb_lt]; lia).
        f_equal. lia.
      + replace ((km_result s <=? rp + m' * N + n')
                 && (rp + m' * N + n'
                     <? km_result s + Z.of_nat (Z.to_nat N)))
          with false.
        * apply Hout; lia.
        * symmetry. apply andb_false_iff. left. apply Z.leb_gt. nia. }
  destruct HP as (_ & _ & Hout). apply Hout; lia.
Qed.
End QmmTKernel.

(** ** The dispatch layer on valid configurations *)

Lemma simd_selection_supported (bits max_size : Z) :
  valid_bits bits -> simd_width_ok max_size ->
  Z.rem 32 bits = 0 -> Z.rem max_size (Z.quot 32 bits) = 0 ->
  simd_supported bits max_size.
Proof.
  unfold simd_width_ok, simd_supported.
  intros [-> | [-> | [-> | [-> | [-> | ->]]]]] Hok H32 Hrem;
    try discriminate H32;
    change (Z.quot 32 2) with 16 in Hrem;
    change (Z.quot 32 4) with 8 in Hrem;
    change (Z.quot 32 8) with 4 in Hrem;
    assert (H4 : Z.rem max_size 4 = 0)
      by (Z.to_euclidean_division_equations; lia);
    specialize (Hok H4); subst max_size;
    try discriminate Hrem; split; auto.
Qed.

Section DispatchRuns.
Context {T F : Type} {AT : Arith T} {AF : Arith F} {CV : Conv T F}.
Variable simd_sum : list F -> F.
Variable max_size : Z.
Variables (x : buf T) (w : buf Z) (scales biases : buf T) (M N K : Z).

Lemma dispatch_transpose_done (bits group_size : Z) (res : buf T) (rp : Z)
    (transposed_w : bool) :
  valid_bits bits -> simd_width_ok max_size ->
  is_done (_qmm_dispatch_transpose simd_sum max_size bits group_size
             res rp x w scales biases M N K transposed_w) = true.
Proof.
  intros Hb Hok. unfold _qmm_dispatch_transpose.
  destruct transposed_w; trivial.
  destruct (Z.eqb_spec (Z.rem 32 bits) 0) as [H1 | H1]; trivial.
  destruct (Z.eqb_spec (Z.rem max_size (Z.quot 32 bits)) 0) as [H2 | H2];
    trivial.
  cbn [andb]. apply qmm_t_simd_done.
  now apply simd_selection_supported.
Qed.

Lemma dispatch_typed_done (bits group_size : Z) (res : buf T) (rp : Z)
    (transposed_w : bool) :
  valid_bits bits -> valid_group_size group_size ->
  simd_width_ok max_size ->
  is_done (_qmm_dispatch_typed simd_sum max_size
             res rp x w scales biases M N K group_size bits transposed_w)
  = true.
Proof.
  intros Hb Hg Hok.
  rewrite dispatch_typed_valid, dispatch_group_valid by assumption.
  now apply dispatch_transpose_done.
Qed.

Lemma dispatch_transpose_two_runs (bits group_size : Z)
    (res1 res2 : buf T) (rp1 rp2 : Z) (transposed_w : bool) :
  0 <= M -> 0 <= N ->
  same_output rp1 rp2 (M * N) res1
    (_qmm_dispatch_transpose simd_sum max_size bits group_size
       res1 rp1 x w scales biases M N K transposed_w)
    (_qmm_dispatch_transpose simd_sum max_size bits group_size
       res2 rp2 x w scales biases M N K transposed_w).
Proof.
  intros HM HN. unfold same_output, _qmm_dispatch_transpose.
  destruct transposed_w.
  - destruct ((Z.rem 32 bits =? 0)
              && (Z.rem max_size (Z.quot 32 bits) =? 0)).
    + now apply qmm_t_simd_two_runs.
    + cbn [outcome_rel]. now apply qmm_t_two_runs.
  - cbn [outcome_rel]. now apply qmm_two_runs.
Qed.

Lemma dispatch_typed_two_runs (bits group_size : Z)
    (res1 res2 : buf T) (rp1 rp2 : Z) (transposed_w : bool) :
  0 <= M -> 0 <= N ->
  same_output rp1 rp2 (M * N) res1
    (_qmm_dispatch_typed simd_sum max_size
       res1 rp1 x w scales biases M N K group_size bits transposed_w)
    (_qmm_dispatch_typed simd_sum max_size
       res2 rp2 x w scales biases M N K group_size bits transposed_w).
Proof.
  intros HM HN.
  assert (Hb : valid_bits bits \/ ~ valid_bits bits)
    by (unfold valid_bits; lia).
  assert (Hg : valid_group_size group_size \/ ~ valid_group_size group_size)
    by (unfold valid_group_size; lia).
  destruct Hb as [Hb | Hb].
  - rewrite !dispatch_typed_valid by assumption.
    destruct Hg as [Hg | Hg].
    + rewrite !dispatch_group_valid by assumption.
      now apply dispatch_transpose_two_runs.
    + rewrite !dispatch_group_invalid by assumption. reflexivity.
  - rewrite !dispatch_typed_invalid_bits by assumption. reflexivity.
Qed.
End DispatchRuns.

(** ** Batch loops *)

Section BatchLoop.
Context {T F : Type} {AT : Arith T} {AF : Arith F} {CV : Conv T F}.
Variable simd_sum : list F -> F.
Variable max_size : Z.
Variables (bits group_size : Z) (transposed_w : bool).
Variables (M N K : Z).
(** The input pointers of batch [i]. *)
Variables (xb : Z -> buf T) (wb : Z -> buf Z) (sb bb : Z -> buf T).

Hypothesis Hbits : valid_bits bits.
Hypothesis Hgroup : valid_group_size group_size.
Hypothesis Hsimd : simd_width_ok max_size.

(** A loop that runs the matmul of batch [i] at offset [i * M * N]
    returns, and leaves in each batch of the output what the matmul
    of that batch alone writes at the start of any buffer. *)
Lemma batch_loop (n : nat) (res0 : buf T) :
  0 <= M -> 0 <= N ->
  exists res',
    for_from_o n 0 1
      (fun i res =>
         _qmm_dispatch_typed simd_sum max_size res (i * M * N)
           (xb i) (wb i) (sb i) (bb i)
           M N K group_size bits transposed_w) res0
    = Done res'
    /\ forall i j ref,
         0 <= i < Z.of_nat n -> 0 <= j < M * N ->
         res' (i * M * N + j)
         = state_of
             (_qmm_dispatch_typed simd_sum max_size ref 0
                (xb i) (wb i) (sb i) (bb i)
                M N K group_size bits transposed_w) j.
Proof.
  intros HM HN.
  set (call := fun (res : buf T) (rp i : Z) =>
                 _qmm_dispatch_typed simd_sum max_size res rp
                   (xb i) (wb i) (sb i) (bb i)
                   M N K group_size bits transposed_w).
  change (exists res',
             for_from_o n 0 1 (fun i res => call res (i * M * N) i) res0
             = Done res'
             /\ forall i j ref,
                  0 <= i < Z.of_nat n -> 0 <= j < M * N ->
                  res' (i * M * N + j) = state_of (call ref 0 i) j).
  assert (Hdone : forall res rp i, is_done (call res rp i) = true)
    by (intros; apply dispatch_typed_done; assumption).
  assert (Htwo : forall res ref i,
             same_output (i * M * N) 0 (M * N) res
               (call res (i * M * N) i) (call ref 0 i))
    by (intros; apply dispatch_typed_two_runs; lia).
  clearbody call.
  apply (for_from_o_inv
           (fun (k : nat) (res : buf T) =>
              forall i j ref,
                0 <= i < Z.of_nat k -> 0 <= j < M * N ->
                res (i * M * N + j) = state_of (call ref 0 i) j)).
  - intros i j ref Hi. lia.
  - intros k res Hk HPk.
    replace (0 + Z.of_nat k * 1) with (Z.of_nat k) by lia.
    pose proof (Hdone res (Z.of_nat k * M * N) (Z.of_nat k)) as Hd.
    destruct (call res (Z.of_nat k * M * N) (Z.of_nat k))
      as [res1 |] eqn:Hcall; [| discriminate].
    exists res1. split; trivial.
    intros i j ref Hi Hj.
    pose proof (Htwo res ref (Z.of_nat k)) as H2. rewrite Hcall in H2.
    pose proof (Hdone ref 0 (Z.of_nat k)) as Hd'.
    unfold same_output in H2.
    destruct (call ref 0 (Z.of_nat k)) as [res2 |] eqn:Hcall';
      [| discriminate].
    cbn [outcome_rel] in H2. destruct H2 as [Hag Hun].
    destruct (Z.eq_dec i (Z.of_nat k)) as [-> | Hne].
    + rewrite Hcall'. cbn [state_of].
      assert (Hin : 0 <= j < 0 + M * N) by lia.
      specialize (Hag j Hin).
      rewrite <- Hag. f_equal. lia.
    + rewrite Hun by nia. apply HPk; lia.
Qed.
End BatchLoop.

(** ** The gathered driver *)

Section Gathered.
Context {V F : Type} {AF : Arith F} {AT : Arith V} {CV : Conv V F}.
Variable simd_sum : list F -> F.
Variable elem_to_loc : Z -> list Z -> list Z -> Z.
Variable max_size : Z.

Variables (out x : array V) (w : array Z) (scales biases : array V).
Variables (lhs_indices rhs_indices : array Z).
Variables (bits group_size : Z) (transposed_w : bool).

(** The driver is its loop with the dispatcher as the call of each
    batch; the dispatcher receives the driver's second integer as its
    [bits] and the first as its [group_size]. *)
Lemma bs_qmm_dispatch_typed_shape :
  _bs_qmm_dispatch_typed simd_sum elem_to_loc max_size
    out x w scales biases lhs_indices rhs_indices
    group_size bits transposed_w
  = gathered_with elem_to_loc
      (fun res rp xb wb sb bb M N K =>
         _qmm_dispatch_typed simd_sum max_size res rp xb wb sb bb
           M N K group_size bits transposed_w)
      out x w scales biases lhs_indices rhs_indices.
Proof.
  unfold _bs_qmm_dispatch_typed, gathered_with, for_lt_o.
  apply for_from_o_ext. intros i res.
  unfold batch_of, index_at.
  replace (data lhs_indices
             (elem_to_loc i (shape lhs_indices) (strides lhs_indices))
           * (shape_at x (-2) * shape_at x (-1)))
    with (data lhs_indices
            (elem_to_loc i (shape lhs_indices) (strides lhs_indices))
          * shape_at x (-2) * shape_at x (-1)) by ring.
  reflexivity.
Qed.

(** C7.  The gathered driver returns, and for every position [i] of
    the index arrays the output batch at offset [i * M * N] is the
    matmul of activation batch [lhs_indices[i]] against the weight,
    scales and biases of batch [rhs_indices[i]], each located through
    the shape and strides of its own tensor, whatever the index values
    are (repeated or out of order).  The driver receives the group
    size and the bit width in this order, as [GatherQMM::eval_cpu]
    passes them. *)
Theorem gathered_selection :
  let M := shape_at x (-2) in
  let N := shape_at out (-1) in
  valid_bits bits -> valid_group_size group_size ->
  simd_width_ok max_size -> 0 <= M -> 0 <= N ->
  exists res',
    _bs_qmm_dispatch_typed simd_sum elem_to_loc max_size
      out x w scales biases lhs_indices rhs_indices
      group_size bits transposed_w = Done res'
    /\ forall i j ref,
         0 <= i < size lhs_indices -> 0 <= j < M * N ->
         res' (i * M * N + j)
         = state_of
             (batch_matmul simd_sum elem_to_loc max_size ref
                x w scales biases N
                (index_at elem_to_loc lhs_indices i)
                (index_at elem_to_loc rhs_indices i)
                group_size bits transposed_w) j.
Proof.
  intros M N Hb Hg Hok HM HN.
  rewrite bs_qmm_dispatch_typed_shape.
  unfold gathered_with, batch_matmul, for_lt_o. fold M N.
  destruct (batch_loop simd_sum max_size bits group_size transposed_w
              M N (shape_at x (-1))
              (fun i => batch_of elem_to_loc x (M * shape_at x (-1))
                          (index_at elem_to_loc lhs_indices i))
              (fun i => batch_of elem_to_loc w
                          (shape_at w (-1) * shape_at w (-2))
                          (index_at elem_to_loc rhs_indices i))
              (fun i => batch_of elem_to_loc scales
                          (shape_at scales (-1) * shape_at scales (-2))
                          (index_at elem_to_loc rhs_indices i))
              (fun i => batch_of elem_to_loc biases
                          (shape_at scales (-1) * shape_at scales (-2))
                          (index_at elem_to_loc rhs_indices i))
              Hb Hg Hok (Z.to_nat (size lhs_indices)) (data out) HM HN)
    as (res' & Hrun & Hres).
  exists res'. split; [exact Hrun |].
  intros i j ref Hi Hj. apply Hres; lia.
Qed.
End Gathered.

(** ** The entry points *)

Section DenseDriver.
Context {V F : Type} {AF : Arith F} {AT : Arith V} {CV : Conv V F}.
Variable simd_sum : list F -> F.
Variable elem_to_loc : Z -> list Z -> list Z -> Z.
Variable max_size : Z.
Variables (out x : array V) (w : array Z) (scales biases : array V).

(** The dense driver is its loop with the dispatcher as the call of
    each batch; the dispatcher receives the driver's second integer as
    its [bits] and the first as its [group_size]. *)
Lemma qmm_dispatch_typed_arr_shape (a b : Z) (transposed_w : bool) :
  _qmm_dispatch_typed_arr simd_sum elem_to_loc max_size
    out x w scales biases a b transposed_w
  = dense_with elem_to_loc
      (fun res rp xb wb sb bb M N K =>
         _qmm_dispatch_typed simd_sum max_size res rp xb wb sb bb
           M N K a b transposed_w)
      out x w scales biases.
Proof.
  unfold _qmm_dispatch_typed_arr, dense_with, for_lt_o.
  apply for_from_o_ext. intros i res.
  unfold batch_of.
  set (M := if ndim x >? 1 then shape_at x (-2) else 1).
  replace (i * (M * shape_at x (-1))) with (i * M * shape_at x (-1))
    by ring.
  reflexivity.
Qed.
End DenseDriver.

Section EntryPoints.
Context {V F : Type} {AF : Arith F}.
Variable simd_sum : list F -> F.
Variable elem_to_loc : Z -> list Z -> list Z -> Z.
Variable arith_of : Dtype -> Arith V.
Variable conv_of : Dtype -> Conv V F.
Variable max_size_of : Dtype -> Z.
Variable copy_cpu : forall A : Type, array A -> buf A.
Variable default_strides : list Z -> list Z.

Lemma ensure_row_contiguous_dtype {A : Type} (arr : array A) :
  dtype (ensure_row_contiguous copy_cpu default_strides arr) = dtype arr.
Proof.
  unfold ensure_row_contiguous. destruct (row_contiguous arr); reflexivity.
Qed.

Lemma ensure_row_contiguous_last_dims_dtype {A : Type} (arr : array A) :
  dtype (ensure_row_contiguous_last_dims copy_cpu default_strides arr)
  = dtype arr.
Proof.
  unfold ensure_row_contiguous_last_dims.
  destruct (_ && _); reflexivity.
Qed.

(** On a floating input [_qmm_dispatch] is the dense driver of its
    element type, which receives the two integers in the order they
    were given. *)
Lemma qmm_dispatch_floating (out x : array V) (w : array Z)
    (scales biases : array V) (a b : Z) (transposed_w : bool) :
  is_floating (dtype x) ->
  _qmm_dispatch simd_sum elem_to_loc arith_of conv_of max_size_of
    out x w scales biases a b transposed_w
  = _qmm_dispatch_typed_arr (AT := arith_of (dtype x))
      (CV := conv_of (dtype x)) simd_sum elem_to_loc
      (max_size_of (dtype x)) out x w scales biases a b transposed_w.
Proof.
  intros Hf. unfold _qmm_dispatch.
  destruct Hf as [-> | [-> | ->]]; reflexivity.
Qed.

Lemma bs_qmm_dispatch_floating (out x : array V) (w : array Z)
    (scales biases : array V) (lhs_indices rhs_indices : array Z)
    (a b : Z) (transposed_w : bool) :
  is_floating (dtype x) ->
  _bs_qmm_dispatch simd_sum elem_to_loc arith_of conv_of max_size_of
    out x w scales biases lhs_indices rhs_indices a b transposed_w
  = _bs_qmm_dispatch_typed (AT := arith_of (dtype x))
      (CV := conv_of (dtype x)) simd_sum elem_to_loc
      (max_size_of (dtype x)) out x w scales biases
      lhs_indices rhs_indices a b transposed_w.
Proof.
  intros Hf. unfold _bs_qmm_dispatch.
  destruct Hf as [-> | [-> | ->]]; reflexivity.
Qed.

(** C1.  Configured with [bits] in {2,3,4,5,6,8} and [group_size] in
    {32,64,128}, on floating inputs, each entry point hands its
    [group_size_] and [bits_] to the dispatcher [_qmm_dispatch_typed]
    as that function's [group_size] and [bits]; every batch therefore
    runs the kernel instance [<bits_, group_size_>], and the call
    returns without throwing. *)
Theorem entry_points_run_configured_kernel (prim : quantized_prim)
    (x_pre : array V) (w_pre : array Z) (scales_pre biases_pre : array V)
    (lhs_indices rhs_indices : array Z) (out : array V) (mem : buf V) :
  valid_bits (bits_ prim) -> valid_group_size (group_size_ prim) ->
  is_floating (dtype x_pre) ->
  simd_width_ok (max_size_of (dtype x_pre)) ->
  let d := dtype x_pre in
  let dispatcher :=
    fun res rp xb wb sb bb M N K =>
      _qmm_dispatch_typed (AT := arith_of d) (CV := conv_of d)
        simd_sum (max_size_of d) res rp xb wb sb bb M N K
        (group_size_ prim) (bits_ prim) (transpose_ prim) in
  let kernel :=
    fun res rp xb wb sb bb M N K =>
      _qmm_dispatch_transpose (AT := arith_of d) (CV := conv_of d)
        simd_sum (max_size_of d) (bits_ prim) (group_size_ prim)
        res rp xb wb sb bb M N K (transpose_ prim) in
  let dense :=
    QuantizedMatmul_eval_cpu simd_sum elem_to_loc arith_of conv_of
      max_size_of copy_cpu default_strides prim
      x_pre w_pre scales_pre biases_pre out mem in
  let gathered :=
    GatherQMM_eval_cpu simd_sum elem_to_loc arith_of conv_of
      max_size_of copy_cpu default_strides prim
      x_pre w_pre scales_pre biases_pre lhs_indices rhs_indices out mem in
  let rc := @ensure_row_contiguous copy_cpu default_strides in
  let rcl := @ensure_row_contiguous_last_dims copy_cpu default_strides in
  (dense
   = dense_with elem_to_loc dispatcher (set_data out mem)
       (rc _ x_pre) (rc _ w_pre) (rc _ scales_pre) (rc _ biases_pre)
   /\ dense
      = dense_with elem_to_loc kernel (set_data out mem)
          (rc _ x_pre) (rc _ w_pre) (rc _ scales_pre) (rc _ biases_pre)
   /\ is_done dense = true)
  /\ (gathered
      = gathered_with elem_to_loc dispatcher (set_data out mem)
          (rcl _ x_pre) (rcl _ w_pre) (rcl _ scales_pre) (rcl _ biases_pre)
          lhs_indices rhs_indices
      /\ gathered
         = gathered_with elem_to_loc kernel (set_data out mem)
             (rcl _ x_pre) (rcl _ w_pre) (rcl _ scales_pre)
             (rcl _ biases_pre) lhs_indices rhs_indices
      /\ is_done gathered = true).
Proof.
  intros Hb Hg Hf Hok d dispatcher kernel dense gathered rc rcl.
  assert (Hk : forall res rp xb wb sb bb M N K,
             dispatcher res rp xb wb sb bb M N K
             = kernel res rp xb wb sb bb M N K).
  { intros. unfold dispatcher, kernel.
    rewrite dispatch_typed_valid, dispatch_group_valid by assumption.
    reflexivity. }
  assert (Hd : forall res rp xb wb sb bb M N K,
             is_done (kernel res rp xb wb sb bb M N K) = true).
  { intros. unfold kernel. now apply dispatch_transpose_done. }
  assert (Hdense : dense
                   = dense_with elem_to_loc dispatcher (set_data out mem)
                       (rc _ x_pre) (rc _ w_pre) (rc _ scales_pre)
                       (rc _ biases_pre)).
  { unfold dense, QuantizedMatmul_eval_cpu.
    rewrite qmm_dispatch_floating
      by (rewrite ensure_row_contiguous_dtype; exact Hf).
    rewrite ensure_row_contiguous_dtype.
    apply qmm_dispatch_typed_arr_shape. }
  assert (Hgath : gathered
                  = gathered_with elem_to_loc dispatcher (set_data out mem)
                      (rcl _ x_pre) (rcl _ w_pre) (rcl _ scales_pre)
                      (rcl _ biases_pre) lhs_indices rhs_indices).
  { unfold gathered, GatherQMM_eval_cpu.
    rewrite bs_qmm_dispatch_floating
      by (rewrite ensure_row_contiguous_last_dims_dtype; exact Hf).
    rewrite ensure_row_contiguous_last_dims_dtype.
    apply bs_qmm_dispatch_typed_shape. }
  assert (Hdense' : dense_with elem_to_loc dispatcher (set_data out mem)
                      (rc _ x_pre) (rc _ w_pre) (rc _ scales_pre)
                      (rc _ biases_pre)
                    = dense_with elem_to_loc kernel (set_data out mem)
                        (rc _ x_pre) (rc _ w_pre) (rc _ scales_pre)
                        (rc _ biases_pre)).
  { unfold dense_with, for_lt_o. apply for_from_o_ext.
    intros i res. apply Hk. }
  assert (Hgath' : gathered_with elem_to_loc dispatcher (set_data out mem)
                     (rcl _ x_pre) (rcl _ w_pre) (rcl _ scales_pre)
                     (rcl _ biases_pre) lhs_indices rhs_indices
                   = gathered_with elem_to_loc kernel (set_data out mem)
                       (rcl _ x_pre) (rcl _ w_pre) (rcl _ scales_pre)
                       (rcl _ biases_pre) lhs_indices rhs_indices).
  { unfold gathered_with, for_lt_o. apply for_from_o_ext.
    intros i res. apply Hk. }
  split; (split; [assumption |]); (split; [congruence |]).
  - rewrite Hdense, Hdense'. unfold dense_with, for_lt_o.
    apply for_from_o_done. intros i res. apply Hd.
  - rewrite Hgath, Hgath'. unfold gathered_with, for_lt_o.
    apply for_from_o_done. intros i res. apply Hd.
Qed.

(** An invalid configuration reaches the caller of the dense entry
    point as soon as there is one batch to run, the allocation given
    to the output being as it was. *)
Lemma dense_entry_rejects_invalid (prim : quantized_prim)
    (x_pre : array V) (w_pre : array Z) (scales_pre biases_pre : array V)
    (out : array V) (mem : buf V) :
  ~ valid_bits (bits_ prim) \/ ~ valid_group_size (group_size_ prim) ->
  is_floating (dtype x_pre) ->
  let x := ensure_row_contiguous copy_cpu default_strides x_pre in
  let K := shape_at x (-1) in
  let M := if ndim x >? 1 then shape_at x (-2) else 1 in
  0 < Z.quot (size x) (K * M) ->
  exists msg,
    QuantizedMatmul_eval_cpu simd_sum elem_to_loc arith_of conv_of
      max_size_of copy_cpu default_strides prim
      x_pre w_pre scales_pre biases_pre out mem
    = Throw (invalid_argument msg) mem.
Proof.
  intros Hinv Hf x K M Hbatch.
  unfold QuantizedMatmul_eval_cpu.
  rewrite qmm_dispatch_floating
    by (rewrite ensure_row_contiguous_dtype; exact Hf).
  unfold _qmm_dispatch_typed_arr, for_lt_o. fold x. fold K. fold M.
  match goal with
  | |- exists msg, for_from_o _ _ _ ?body ?s = _ =>
      assert (Hm : exists msg, body 0 s = Throw (invalid_argument msg) s)
  end.
  { cbv beta.
    assert (Hdec : valid_bits (bits_ prim) \/ ~ valid_bits (bits_ prim))
      by (unfold valid_bits; lia).
    destruct Hdec as [Hb | Hb].
    - destruct Hinv as [Hinv | Hinv]; [contradiction |].
      rewrite dispatch_typed_valid by exact Hb.
      rewrite dispatch_group_invalid by exact Hinv. eauto.
    - rewrite dispatch_typed_invalid_bits by exact Hb. eauto. }
  destruct Hm as (msg & Hmsg).
  exists msg. apply for_from_o_throw; [lia | exact Hmsg].
Qed.
Lemma ensure_row_contiguous_shape {A : Type} (arr : array A) :
  shape (ensure_row_contiguous copy_cpu default_strides arr) = shape arr.
Proof.
  unfold ensure_row_contiguous. destruct (row_contiguous arr); reflexivity.
Qed.

(** C2 (as amended).  With [bits] outside {2,3,4,5,6,8} or
    [group_size] outside {32,64,128}: the dispatcher the dense matmul
    runs for each batch throws an invalid-argument error with the
    output buffer as it was given; and [QuantizedMatmul::eval_cpu], on
    a floating activation, throws an invalid-argument error with the
    allocation of the output as it was, provided there is at least one
    batch to run ([x.size() / (K * M)] positive).  The two switches are
    inside the loop over the batches: with no batch the call returns
    without an error. *)
Theorem invalid_configuration_rejected (prim : quantized_prim)
    (x_pre : array V) (w_pre : array Z) (scales_pre biases_pre : array V)
    (out : array V) (mem : buf V) :
  ~ valid_bits (bits_ prim) \/ ~ valid_group_size (group_size_ prim) ->
  (forall (d : Dtype) (res : buf V) (rp : Z) (x : buf V) (w : buf Z)
          (scales biases : buf V) (M N K : Z),
     exists msg,
       _qmm_dispatch_typed (AT := arith_of d) (CV := conv_of d)
         simd_sum (max_size_of d) res rp x w scales biases M N K
         (group_size_ prim) (bits_ prim) (transpose_ prim)
       = Throw (invalid_argument msg) res)
  /\ (is_floating (dtype x_pre) ->
      let K := shape_at x_pre (-1) in
      let M := if ndim x_pre >? 1 then shape_at x_pre (-2) else 1 in
      0 < Z.quot (size x_pre) (K * M) ->
      exists msg,
        QuantizedMatmul_eval_cpu simd_sum elem_to_loc arith_of conv_of
          max_size_of copy_cpu default_strides prim
          x_pre w_pre scales_pre biases_pre out mem
        = Throw (invalid_argument msg) mem).
Proof.
  intros Hinv. split.
  - intros d res rp x w scales biases M N K.
    now apply dispatch_typed_invalid_configuration.
  - intros Hf K M Hbatch.
    apply dense_entry_rejects_invalid; trivial.
    unfold size, ndim, shape_at.
    rewrite ensure_row_contiguous_shape. exact Hbatch.
Qed.
End EntryPoints.

(** ** The quantizer *)

Section QuantizerFacts.
Context {T F : Type} {AF : Arith F} {CV : Conv T F}.

(** The code computes the scale and bias the specification words. *)
Lemma group_scale_bias_spec (bits : Z) (w_min w_max : F) :
  0 <= bits ->
  group_scale_bias bits w_min w_max = spec_scale_bias bits w_min w_max.
Proof.
  intros Hb. unfold group_scale_bias, spec_scale_bias, n_bins.
  rewrite Z.shiftl_mul_pow2, Z.mul_1_l by lia. cbv zeta.
  destruct (feqb _ _); reflexivity.
Qed.

(** C4.  For every group [i] the quantizer computes, from the extrema
    [w_min] and [w_max] of the group, the scale and bias of the
    specification (see [spec_scale_bias]) and stores them, converted
    to [T], at index [i] of [scales] and [biases]. *)
Theorem quantize_scale_bias (castU : Z -> Z) (w : buf T) (out : buf Z)
    (scales biases : buf T) (bits group_size w_size : Z) (i : Z) :
  0 <= bits -> 0 <= i < Z.quot w_size group_size ->
  let q := quantize castU w out scales biases bits group_size w_size in
  let w_min := fst (group_min_max w (i * group_size) group_size) in
  let w_max := snd (group_min_max w (i * group_size) group_size) in
  q_scales q i = of_float (fst (spec_scale_bias bits w_min w_max))
  /\ q_biases q i = of_float (snd (spec_scale_bias bits w_min w_max)).
Proof.
  intros Hb Hi. cbv zeta. unfold quantize, for_lt.
  set (n_groups := Z.quot w_size group_size) in *.
  set (sb := fun k =>
               spec_scale_bias bits
                 (fst (group_min_max w (k * group_size) group_size))
                 (snd (group_min_max w (k * group_size) group_size))).
  change (spec_scale_bias bits
            (fst (group_min_max w (i * group_size) group_size))
            (snd (group_min_max w (i * group_size) group_size)))
    with (sb i).
  pose (P := fun (k : nat) (q : quantized T) =>
               forall j, 0 <= j < Z.of_nat k ->
                 q_scales q j = of_float (fst (sb j))
                 /\ q_biases q j = of_float (snd (sb j))).
  match goal with
  | |- q_scales ?q i = _ /\ _ => assert (HP : P (Z.to_nat n_groups) q)
  end.
  { apply for_from_inv.
    - intros j Hj. lia.
    - intros k q _ HPk j Hj.
      replace (0 + Z.of_nat k * 1) with (Z.of_nat k) by lia.
      destruct (group_min_max w (Z.of_nat k * group_size) group_size)
        as [w_min w_max] eqn:Hmm.
      destruct (group_scale_bias bits w_min w_max) as [scale bias] eqn:Hsb.
      cbn [q_scales q_biases]. unfold upd.
      destruct (Z.eqb_spec j (Z.of_nat k)) as [-> | Hne].
      + unfold sb. rewrite Hmm. cbn [fst snd].
        rewrite <- group_scale_bias_spec, Hsb by exact Hb.
        split; reflexivity.
      + apply HPk. lia. }
  apply HP. lia.
Qed.
End QuantizerFacts.

(** ** The round trip in exact arithmetic *)

Lemma rint_Q_error (y : Q) :
  (Qabs (inject_Z (Exact.rint_Q y) - y) <= 1 # 2)%Q.
Proof.
  unfold Exact.rint_Q.
  pose proof (Qfloor_le y) as Hlo. pose proof (Qlt_floor y) as Hhi.
  rewrite inject_Z_plus in Hhi. change (inject_Z 1) with 1%Q in Hhi.
  set (f := Qfloor y) in *.
  assert (Hcase : forall c : Z,
             (inject_Z c - y <= 1 # 2)%Q -> (y - inject_Z c <= 1 # 2)%Q ->
             (Qabs (inject_Z c - y) <= 1 # 2)%Q).
  { intros c H1 H2. apply Qabs_case; intros _; lra. }
  destruct (Qcompare_spec (y - inject_Z f) (1 # 2)) as [He | Hl | Hg].
  - destruct (Z.even f); apply Hcase;
      rewrite ?inject_Z_plus; change (inject_Z 1) with 1%Q; lra.
  - apply Hcase; lra.
  - apply Hcase; rewrite ?inject_Z_plus; change (inject_Z 1) with 1%Q; lra.
Qed.

Lemma rint_Q_zero (y : Q) : (y == 0)%Q -> Exact.rint_Q y = 0.
Proof.
  intros Hy. unfold Exact.rint_Q. cbv zeta.
  rewrite (Qfloor_comp _ _ Hy). change (Qfloor 0) with 0.
  change (inject_Z 0) with 0%Q.
  destruct (Qcompare_spec (y - 0) (1 # 2)) as [He | Hl | Hg];
    trivial; lra.
Qed.

Lemma is_zero_false (q : Q) : ~ (q == 0)%Q -> Exact.is_zero q = false.
Proof.
  intros H. unfold Exact.is_zero.
  destruct (Qeq_bool q 0) eqn:E; trivial.
  apply Qeq_bool_iff in E. contradiction.
Qed.

Lemma exact_ltb_false (a b : Q) :
  Exact.ltb (XFin a) (XFin b) = false <-> (b <= a)%Q.
Proof.
  cbn [Exact.ltb]. rewrite negb_false_iff. apply Qle_bool_iff.
Qed.

Lemma exact_ltb_true (a b : Q) :
  Exact.ltb (XFin a) (XFin b) = true <-> (a < b)%Q.
Proof.
  cbn [Exact.ltb]. rewrite negb_true_iff.
  split; intros H.
  - apply Qnot_le_lt. intros Hle. apply Qle_bool_iff in Hle. congruence.
  - destruct (Qle_bool b a) eqn:E; trivial.
    apply Qle_bool_iff in E. lra.
Qed.

Lemma n_bins_exact (bits : Z) :
  n_bins (F := xreal) bits = XFin (inject_Z (Z.shiftl 1 bits - 1)).
Proof. reflexivity. Qed.

(** The code of a value the clamp leaves alone, and what it
    dequantizes to. *)
Lemma exact_unclamped_code (bits : Z) (s b u : Q) :
  0 <= bits <= 64 -> ~ (s == 0)%Q ->
  unclamped bits (XFin s) (XFin b) (XFin u) ->
  quantize_el (CV := conv_id xreal) bits (XFin s) (XFin b) (XFin u)
  = Exact.rint_Q ((u + - b) / s).
Proof.
  intros Hb Hs [Hlo Hhi].
  unfold raw_code in Hlo, Hhi. unfold quantize_el.
  cbn [to_float conv_id fsub fdiv frint exact_arith Exact.sub Exact.add
       Exact.neg Exact.div Exact.rint] in *.
  rewrite is_zero_false in * by exact Hs.
  cbn [Exact.rint] in *.
  set (c := Exact.rint_Q ((u + - b) / s)) in *.
  unfold std_min, std_max.
  cbn [fltb exact_arith of_Z] in *.
  rewrite Hlo. rewrite n_bins_exact in *. rewrite Hhi.
  cbn [to_u64 exact_arith Exact.to_u64]. rewrite Qfloor_Z.
  apply exact_ltb_false in Hlo, Hhi.
  rewrite <- Zle_Qle in Hlo, Hhi.
  assert (Hpow : Z.shiftl 1 bits <= 2 ^ 64).
  { rewrite Z.shiftl_mul_pow2, Z.mul_1_l by lia.
    apply Z.pow_le_mono_r; lia. }
  replace ((0 <=? c) && (c <? 2 ^ 64))%bool with true; trivial.
  symmetry. apply andb_true_iff. split; [apply Z.leb_le | apply Z.ltb_lt]; lia.
Qed.

Lemma exact_round_trip_error (bits : Z) (s b u : Q) :
  0 <= bits <= 64 -> ~ (s == 0)%Q ->
  unclamped bits (XFin s) (XFin b) (XFin u) ->
  within_half_step (XFin s) (round_trip bits (XFin s) (XFin b) (XFin u))
    (XFin u).
Proof.
  intros Hb Hs Hun. unfold within_half_step, round_trip, dequantize.
  rewrite exact_unclamped_code by assumption.
  set (y := ((u + - b) / s)%Q).
  pose proof (rint_Q_error y) as Herr.
  set (c := Exact.rint_Q y) in *.
  cbn [fadd fmul fsub fdiv fabs of_Z exact_arith Exact.add Exact.mul
       Exact.sub Exact.neg Exact.abs Exact.div].
  change (Exact.is_zero (inject_Z 2)) with false. cbn iota.
  change (fltb (XFin (Qabs s / inject_Z 2))
               (XFin (Qabs (s * inject_Z c + b + - u))))
    with (Exact.ltb (XFin (Qabs s / inject_Z 2))
                    (XFin (Qabs (s * inject_Z c + b + - u)))).
  apply exact_ltb_false.
  assert (Heq : (s * inject_Z c + b + - u == s * (inject_Z c - y))%Q)
    by (unfold y; field; exact Hs).
  rewrite Heq, Qabs_Qmult.
  change (inject_Z 2) with 2%Q.
  pose proof (Qabs_nonneg s) as Hn.
  apply Qle_trans with (Qabs s * (1 # 2))%Q.
  - rewrite !(Qmult_comm (Qabs s)). now apply Qmult_le_compat_r.
  - apply Qle_lteq. right. field.
Qed.

(** On finite extrema the quantizer's scale is finite and not zero, its
    bias is finite, and when [q0] is not zero the bias is the edge. *)
Lemma exact_group_scale_bias (bits : Z) (a b : Q) :
  1 <= bits ->
  exists s beta,
    group_scale_bias bits (XFin a) (XFin b) = (XFin s, XFin beta)
    /\ ~ (s == 0)%Q
    /\ (feqb (q0_of bits (XFin a) (XFin b)) (of_Z 0) = false ->
        XFin beta = edge_of (XFin a) (XFin b)).
Proof.
  intros Hb.
  assert (Hn : (0 < inject_Z (Z.shiftl 1 bits - 1))%Q).
  { change 0%Q with (inject_Z 0). rewrite <- Zlt_Qlt.
    rewrite Z.shiftl_mul_pow2, Z.mul_1_l by lia.
    assert (2 ^ 1 <= 2 ^ bits) by (apply Z.pow_le_mono_r; lia).
    change (2 ^ 1) with 2 in *. lia. }
  unfold group_scale_bias, q0_of, edge_of. rewrite n_bins_exact.
  set (n := inject_Z (Z.shiftl 1 bits - 1)) in *.
  cbn [fsub fdiv fabs exact_arith Exact.sub Exact.add Exact.neg Exact.div
       Exact.abs].
  rewrite (is_zero_false n) by lra.
  (* the first scale is positive *)
  assert (Hs0 : exists s0,
             std_max (XFin ((b + - a) / n)) eps7 = XFin s0 /\ (0 < s0)%Q).
  { unfold std_max. cbn [fltb eps7 exact_arith].
    destruct (Exact.ltb (XFin ((b + - a) / n)) (XFin (1 # 10000000)))
      eqn:E.
    - eexists. split; [reflexivity | reflexivity].
    - eexists. split; [reflexivity |].
      apply exact_ltb_false in E.
      eapply Qlt_le_trans; [| exact E]. reflexivity. }
  destruct Hs0 as (s0 & -> & Hs0).
  set (m := fltb (XFin (Qabs b)) (XFin (Qabs a))).
  set (e := if m then a else b).
  set (s1 := if m then s0 else (- s0)%Q).
  assert (Hs1 : ~ (s1 == 0)%Q) by (unfold s1; destruct m; lra).
  replace (if m then XFin s0 else fneg (XFin s0)) with (XFin s1)
    by (unfold s1; destruct m; reflexivity).
  replace (if m then XFin a else XFin b) with (XFin e)
    by (unfold e; destruct m; reflexivity).
  cbn [fdiv frint feqb of_Z exact_arith Exact.div Exact.rint Exact.eqb].
  rewrite (is_zero_false s1) by exact Hs1.
  cbn [Exact.rint Exact.eqb].
  set (q0 := Exact.rint_Q (e / s1)).
  destruct (Qeq_bool (inject_Z q0) (inject_Z 0)) eqn:Eq0; cbn [negb].
  - exists s1, (inject_Z 0). split; [reflexivity |].
    split; [exact Hs1 | discriminate].
  - apply Qeq_bool_neq in Eq0.
    assert (Hq0 : ~ (inject_Z q0 == 0)%Q) by exact Eq0.
    rewrite (is_zero_false _ Hq0).
    exists (e / inject_Z q0)%Q, e. split; [reflexivity |].
    split; [| reflexivity].
    intros Hz.
    assert (He : (e == 0)%Q).
    { assert (H : (e == (e / inject_Z q0) * inject_Z q0)%Q)
        by (field; exact Hq0).
      rewrite H, Hz. ring. }
    apply Hq0. unfold q0. rewrite rint_Q_zero; [reflexivity |].
    rewrite He. field. exact Hs1.
Qed.

(** When [q0] is not zero the edge gets the code [0] and comes back
    exactly. *)
Lemma exact_edge_round_trip (bits : Z) (s e : Q) :
  0 <= bits -> ~ (s == 0)%Q ->
  feqb (round_trip bits (XFin s) (XFin e) (XFin e)) (XFin e) = true.
Proof.
  intros Hb Hs. unfold round_trip, dequantize, quantize_el.
  cbn [to_float conv_id fsub fdiv frint exact_arith Exact.sub Exact.add
       Exact.neg Exact.div Exact.rint].
  rewrite is_zero_false by exact Hs. cbn [Exact.rint].
  rewrite rint_Q_zero by (field; exact Hs).
  unfold std_min, std_max. rewrite n_bins_exact.
  cbn [fltb of_Z exact_arith].
  change (Exact.ltb (XFin (inject_Z 0)) (XFin (inject_Z 0))) with false.
  cbn iota.
  assert (Hn : Exact.ltb (XFin (inject_Z (Z.shiftl 1 bits - 1)))
                 (XFin (inject_Z 0)) = false).
  { apply exact_ltb_false. rewrite <- Zle_Qle.
    rewrite Z.shiftl_mul_pow2, Z.mul_1_l by lia.
    assert (0 < 2 ^ bits) by (apply Z.pow_pos_nonneg; lia). lia. }
  rewrite Hn.
  cbn [to_u64 fadd fmul feqb of_Z exact_arith Exact.to_u64 Exact.add
       Exact.mul Exact.eqb].
  rewrite Qfloor_Z. cbn [Z.leb Z.ltb Z.compare andb].
  change ((0 <? 2 ^ 64)) with true. cbn iota.
  apply Qeq_bool_iff. change (inject_Z 0) with 0%Q. ring.
Qed.

Lemma exact_group_min_max (w : buf xreal) (w_idx group_size : Z) :
  0 < group_size ->
  (forall j, 0 <= j < group_size -> finite (w (w_idx + j))) ->
  exists a b,
    group_min_max (CV := conv_id xreal) w w_idx group_size
    = (XFin a, XFin b).
Proof.
  intros Hg Hfin. unfold group_min_max, for_lt.
  pose (P := fun (k : nat) (s : xreal * xreal) =>
               (k = O /\ s = (XPinf, XNinf))
               \/ (k <> O /\ exists a b, s = (XFin a, XFin b))).
  match goal with
  | |- exists a b, ?r = _ => assert (HP : P (Z.to_nat group_size) r)
  end.
  { apply for_from_inv.
    - left. split; reflexivity.
    - intros k [mn mx] Hk HPk. right. split; [lia |].
      replace (0 + Z.of_nat k * 1) with (Z.of_nat k) by lia.
      destruct (Hfin (Z.of_nat k) ltac:(lia)) as (v & Hv).
      cbn [to_float conv_id]. rewrite Hv. unfold std_max, std_min.
      destruct HPk as [[_ Hs] | [_ (a & b & Hs)]];
        injection Hs as -> ->; cbn [fltb exact_arith Exact.ltb].
      + eauto.
      + destruct (negb (Qle_bool v b)), (negb (Qle_bool a v)); eauto. }
  destruct HP as [[Hk _] | [_ H]]; [lia | exact H].
Qed.

(** The round trip without rounding error.  In exact arithmetic, for
    every group of finite values: when [q0] is not zero, quantizing
    and dequantizing the extremum of larger magnitude gives it back
    exactly; and every value of the group whose code is not clamped
    comes back within half a step, [|scale| / 2], of itself. *)
Lemma round_trip_exact (bits group_size : Z) (w : buf xreal) :
  valid_bits bits -> 0 < group_size ->
  (forall j, 0 <= j < group_size -> finite (w j)) ->
  round_trip_amended bits group_size w.
Proof.
  intros Hb Hg Hfin. unfold round_trip_amended.
  destruct (exact_group_min_max w 0 group_size Hg) as (a & b & ->).
  { intros j Hj. rewrite Z.add_0_l. now apply Hfin. }
  assert (Hb1 : 1 <= bits <= 64) by (unfold valid_bits in Hb; lia).
  destruct (exact_group_scale_bias bits a b ltac:(lia))
    as (s & beta & -> & Hs & Hedge).
  split.
  - intros Hq0. rewrite <- (Hedge Hq0).
    apply exact_edge_round_trip; [lia | exact Hs].
  - intros j Hj Hun. destruct (Hfin j Hj) as (u & Hu).
    rewrite Hu in *. apply exact_round_trip_error; trivial. lia.
Qed.

Lemma round_trip_exact_witness : round_trip_amended 4 32 skewed_group.
Proof.
  apply (round_trip_exact 4 32 skewed_group).
  - unfold valid_bits. lia.
  - lia.
  - intros j _. unfold skewed_group, finite.
    destruct (j =? 0); [eauto |]. destruct (j =? 1); eauto.
Defined.

(** A group of values too small for [q0] to leave zero is stored with
    bias [0] and dequantized to [0]: its extremum does not come back. *)
Lemma tiny_group_refutes_round_trip : ~ round_trip_claim 4 32 tiny_group.
Proof.
  unfold round_trip_claim.
  assert (Hmm : group_min_max (CV := conv_id xreal) tiny_group 0 32
                = (XFin (1 # 1073741824), XFin (1 # 1073741824)))
    by (vm_compute; reflexivity).
  rewrite Hmm.
  assert (Hsb : group_scale_bias 4 (XFin (1 # 1073741824))
                  (XFin (1 # 1073741824))
                = (XFin (- (1 # 10000000)), XFin (inject_Z 0)))
    by (vm_compute; reflexivity).
  rewrite Hsb.
  intros [Hedge _]. vm_compute in Hedge. discriminate Hedge.
Qed.

(** The maximum of the skewed group gets the clamped code [15] and comes
    back as [6.671875], further than half a step from [7.375]. *)
Lemma skewed_group_refutes_half_step :
  ~ round_trip_claim 4 32 skewed_group.
Proof.
  unfold round_trip_claim.
  assert (Hmm : group_min_max (CV := conv_id xreal) skewed_group 0 32
                = (XFin (-61 # 8), XFin (59 # 8)))
    by (vm_compute; reflexivity).
  rewrite Hmm.
  assert (Hsb : group_scale_bias 4 (XFin (-61 # 8)) (XFin (59 # 8))
                = (XFin (61 # 64), XFin (-61 # 8)))
    by (vm_compute; reflexivity).
  rewrite Hsb.
  intros [_ Hall]. specialize (Hall 1 ltac:(lia)).
  vm_compute in Hall. discriminate Hall.
Qed.

(** ** The quantizer in binary32 *)

(** *** Mantissas *)

Lemma digits2_pos_bound (m : positive) :
  2 ^ (Zpos (digits2_pos m) - 1) <= Zpos m < 2 ^ Zpos (digits2_pos m).
Proof.
  induction m as [m IH | m IH |]; cbn [digits2_pos].
  - rewrite Pos2Z.inj_succ, Pos2Z.inj_xI.
    replace (Z.succ (Zpos (digits2_pos m)) - 1)
      with (Z.succ (Zpos (digits2_pos m) - 1)) by lia.
    rewrite !Z.pow_succ_r by lia.
    revert IH. generalize (2 ^ (Zpos (digits2_pos m) - 1)).
    generalize (2 ^ Zpos (digits2_pos m)). intros a b [H1 H2]. split; lia.
  - rewrite Pos2Z.inj_succ, (Pos2Z.inj_xO m).
    replace (Z.succ (Zpos (digits2_pos m)) - 1)
      with (Z.succ (Zpos (digits2_pos m) - 1)) by lia.
    rewrite !Z.pow_succ_r by lia.
    revert IH. generalize (2 ^ (Zpos (digits2_pos m) - 1)).
    generalize (2 ^ Zpos (digits2_pos m)). intros a b [H1 H2]. split; lia.
  - cbn. lia.
Qed.

Lemma iter_xO_value (m p : positive) :
  Zpos (Pos.iter xO m p) = Zpos m * 2 ^ Zpos p.
Proof.
  induction p as [| p IH] using Pos.peano_ind.
  - cbn [Pos.iter]. rewrite (Pos2Z.inj_xO m). change (2 ^ 1) with 2. lia.
  - rewrite Pos.iter_succ, (Pos2Z.inj_xO (Pos.iter xO m p)), IH,
      Pos2Z.inj_succ, Z.pow_succ_r by lia.
    lia.
Qed.

Lemma iter_xO_digits (m p : positive) :
  Zpos (digits2_pos (Pos.iter xO m p)) = Zpos (digits2_pos m) + Zpos p.
Proof.
  induction p as [| p IH] using Pos.peano_ind.
  - cbn [Pos.iter digits2_pos]. lia.
  - rewrite Pos.iter_succ. cbn [digits2_pos].
    rewrite !Pos2Z.inj_succ, IH. lia.
Qed.

(** A canonical mantissa has at most 24 bits. *)
Lemma bounded_mantissa (m : positive) (e : Z) :
  bounded B32.prec B32.emax m e = true -> Zpos m < 2 ^ 24.
Proof.
  unfold bounded, canonical_mantissa, fexp, emin, B32.prec, B32.emax.
  intros H. apply andb_prop in H. destruct H as [H _].
  apply Z.eqb_eq in H.
  pose proof (digits2_pos_bound m) as [_ Hm].
  assert (Hd : Zpos (digits2_pos m) <= 24) by lia.
  pose proof (Z.pow_le_mono_r 2 _ _ ltac:(lia) Hd). lia.
Qed.

(** *** Integers below [2^24] are converted exactly *)

(** A mantissa of 24 bits with an exponent of the format is not
    rounded. *)
Lemma round_aux_canonical (s : bool) (n : positive) (e : Z) :
  Zpos (digits2_pos n) = 24 -> -149 <= e <= 104 ->
  binary_round_aux B32.prec B32.emax s (Zpos n) e loc_Exact
  = S754_finite s n e.
Proof.
  intros Hd He.
  assert (Hs : shr_fexp B32.prec B32.emax (Zpos n) e loc_Exact
               = ({| shr_m := Zpos n; shr_r := false; shr_s := false |}, e)).
  { unfold shr_fexp, fexp, emin, Zdigits2, B32.prec, B32.emax. rewrite Hd.
    replace (Z.max (24 + e - 24) (3 - 128 - 24) - e) with 0 by lia.
    reflexivity. }
  unfold binary_round_aux. rewrite Hs.
  cbn [shr_m loc_of_shr_record round_nearest_even]. rewrite Hs.
  cbn [shr_m]. unfold B32.emax, B32.prec.
  replace (e <=? 128 - 24) with true by (symmetry; apply Z.leb_le; lia).
  reflexivity.
Qed.

Lemma round_small_int (s : bool) (n : positive) :
  Zpos n < 2 ^ 24 ->
  exists n' e',
    binary_round B32.prec B32.emax s n 0 = S754_finite s n' e'
    /\ B32.to_u64 (S754_finite false n' e') = Zpos n.
Proof.
  intros Hn.
  pose proof (digits2_pos_bound n) as [Hlo Hhi].
  set (d := Zpos (digits2_pos n)) in *.
  assert (Hd : 1 <= d <= 24).
  { split; [subst d; lia |].
    destruct (Z.le_gt_cases d 24) as [| Hgt]; trivial.
    assert (2 ^ 24 <= 2 ^ (d - 1)) by (apply Z.pow_le_mono_r; lia). lia. }
  assert (H64 : forall z, z < 2 ^ 24 -> (z <? 2 ^ 64) = true).
  { intros z Hz. apply Z.ltb_lt.
    assert (2 ^ 24 < 2 ^ 64) by (apply Z.pow_lt_mono_r; lia). lia. }
  unfold binary_round, fexp, emin, B32.prec, B32.emax. fold d.
  rewrite Z.add_0_r.
  replace (Z.max (d - 24) (3 - 128 - 24)) with (d - 24) by lia.
  unfold shl_align. rewrite Z.sub_0_r.
  destruct (d - 24) as [| p | p] eqn:Hp; try lia.
  - (* 24 digits *)
    exists n, 0. split.
    + apply round_aux_canonical; [subst d; lia | lia].
    + cbn [B32.to_u64]. rewrite Z.mul_1_r, H64 by exact Hn. reflexivity.
  - (* fewer digits: the mantissa is shifted left *)
    set (n' := Pos.iter xO n p).
    assert (Hd' : Zpos (digits2_pos n') = 24)
      by (subst n'; rewrite iter_xO_digits; fold d; lia).
    exists n', (Zneg p). split.
    + apply round_aux_canonical; [exact Hd' | lia].
    + cbn [B32.to_u64]. subst n'. rewrite iter_xO_value.
      rewrite Z.div_mul by (apply Z.pow_nonzero; lia).
      rewrite H64 by exact Hn. reflexivity.
Qed.

(** *** Rounding to an integer *)

Lemma nearest_even_error (m d : Z) :
  0 <= m -> 0 < d ->
  0 <= B32.nearest_even m d
  /\ 2 * Z.abs (B32.nearest_even m d * d - m) <= d.
Proof.
  intros Hm Hd. unfold B32.nearest_even. cbv zeta.
  pose proof (Z.div_mod m d ltac:(lia)) as Hdm.
  pose proof (Z.mod_pos_bound m d Hd) as Hr.
  pose proof (Z.div_pos m d Hm Hd) as Hq.
  set (q := m / d) in *. set (r := m mod d) in *.
  destruct (Z.compare_spec (2 * r) d) as [He | Hl | Hg];
    [destruct (Z.even q) |..]; split; nia.
Qed.

Lemma nearest_even_le (m d : Z) :
  0 <= m -> 2 <= d -> B32.nearest_even m d <= m / 2 + 1.
Proof.
  intros Hm Hd.
  assert (Hq : m / d <= m / 2)
    by (apply Z.div_le_compat_l; lia).
  unfold B32.nearest_even. cbv zeta.
  destruct (2 * (m mod d) ?= d); [destruct (Z.even (m / d)) |..]; lia.
Qed.

(** The conversion of zero. *)
Lemma b32_of_Z_0 : of_Z (F := spec_float) 0 = S754_zero false.
Proof. reflexivity. Qed.

(** [n_bins] is a positive number with a negative exponent. *)
Lemma b32_n_bins (bits : Z) :
  valid_bits bits ->
  exists m k, n_bins (F := spec_float) bits = S754_finite false m (Zneg k).
Proof.
  intros [-> | [-> | [-> | [-> | [-> | ->]]]]];
    eexists; eexists; vm_compute; reflexivity.
Qed.

(** [rint] of a number with a negative exponent and a rounded
    magnitude [n] below [2^24]: a zero, or a number of the sign of the
    argument that converts back to [n]. *)
Lemma rint_small (s : bool) (m k : positive) :
  Zpos m < 2 ^ 24 ->
  let n := B32.nearest_even (Zpos m) (2 ^ Zpos k) in
  (n = 0 /\ B32.rint (S754_finite s m (Zneg k)) = S754_zero s)
  \/ (0 < n
      /\ exists n' e',
           B32.rint (S754_finite s m (Zneg k)) = S754_finite s n' e'
           /\ B32.to_u64 (S754_finite false n' e') = n).
Proof.
  intros Hm n.
  assert (Hd : 2 <= 2 ^ Zpos k).
  { change 2 with (2 ^ 1) at 1. apply Z.pow_le_mono_r; lia. }
  destruct (nearest_even_error (Zpos m) (2 ^ Zpos k) ltac:(lia) ltac:(lia))
    as [Hn0 _].
  pose proof (nearest_even_le (Zpos m) (2 ^ Zpos k) ltac:(lia) Hd) as Hle.
  fold n in Hn0, Hle.
  assert (Hn : n < 2 ^ 24).
  { assert (Zpos m / 2 < 2 ^ 23)
      by (apply Z.div_lt_upper_bound; [lia |];
          change (2 * 2 ^ 23) with (2 ^ 24); exact Hm).
    change (2 ^ 24) with (2 * 2 ^ 23). change (2 ^ 23) with 8388608 in *.
    lia. }
  unfold B32.rint. fold n.
  destruct n as [| np | np] eqn:En; [left | right | lia].
  - split; [reflexivity |]. destruct s; reflexivity.
  - split; [lia |].
    destruct (round_small_int s np Hn) as (n' & e' & Hr & Hu).
    exists n', e'. split; [| exact Hu].
    destruct s; cbn [cond_Zopp Z.opp binary_normalize]; exact Hr.
Qed.

Section B32Quantizer.
Context {T : Type} {CV : Conv T spec_float}.
Variable bits : Z.
Hypothesis Hbits : valid_bits bits.

(** The code of a value the clamp leaves alone is the conversion of
    its rounded quotient. *)
Lemma unclamped_code (scale bias : spec_float) (v : T) :
  unclamped bits scale bias (to_float v) ->
  quantize_el bits scale bias v
  = B32.to_u64 (B32.rint (fdiv (fsub (to_float v) bias) scale)).
Proof.
  intros [Hlo Hhi]. unfold raw_code in Hlo, Hhi.
  unfold quantize_el, std_min, std_max.
  cbn [frint binary32_arith] in *.
  rewrite Hlo, Hhi. reflexivity.
Qed.

(** The code of a value the clamp leaves alone is within one half of
    the quotient. *)
Lemma code_near_quotient (scale bias : spec_float) (v : T) :
  let y := fdiv (fsub (to_float v) bias) scale in
  b32_number y -> unclamped bits scale bias (to_float v) ->
  (Qabs (inject_Z (quantize_el bits scale bias v) - b32_value y)
   <= 1 # 2)%Q.
Proof.
  intros y [Hval Hnum] Hun.
  rewrite (unclamped_code _ _ _ Hun). fold y.
  destruct Hun as [Hlo Hhi]. unfold raw_code in Hlo, Hhi. fold y in Hlo, Hhi.
  cbn [frint fltb binary32_arith] in Hlo, Hhi.
  rewrite b32_of_Z_0 in Hlo.
  destruct (b32_n_bins bits Hbits) as (mn & kn & Hn). rewrite Hn in Hhi.
  clearbody y.
  destruct y as [sy | sy | | s m e]; try contradiction.
  - (* zero *) cbn. discriminate.
  - cbn [valid_binary] in Hval.
    destruct e as [| pe | k].
    + (* an integer: above [n_bins] or negative *)
      exfalso. destruct s; cbn in Hlo, Hhi; discriminate.
    + exfalso. destruct s; cbn in Hlo, Hhi; discriminate.
    + pose proof (bounded_mantissa m (Zneg k) Hval) as Hm.
      assert (Hd : 0 < 2 ^ Zpos k) by (apply Z.pow_pos_nonneg; lia).
      destruct (nearest_even_error (Zpos m) (2 ^ Zpos k)
                  ltac:(lia) Hd) as [_ Herr].
      destruct (rint_small s m k Hm) as [[Hz Hr] | [Hp (n' & e' & Hr & Hu)]].
      * rewrite Hr. cbn [B32.to_u64 b32_value]. rewrite Hz in Herr.
        apply Qabs_Qle_condition. unfold Qle, Qminus, Qplus, Qopp, inject_Z.
        cbn [Qnum Qden]. rewrite Pos2Z.inj_pow.
        destruct s; cbn [cond_Zopp]; lia.
      * rewrite Hr in *. destruct s.
        { exfalso. cbn in Hlo. discriminate. }
        rewrite Hu. cbn [b32_value cond_Zopp].
        apply Qabs_Qle_condition. unfold Qle, Qminus, Qplus, Qopp, inject_Z.
        cbn [Qnum Qden]. rewrite Pos2Z.inj_pow.
        set (n := B32.nearest_even (Zpos m) (2 ^ Zpos k)) in *.
        set (d := 2 ^ Zpos k) in *. lia.
Qed.

(** A finite number minus itself is [+0]. *)
Lemma b32_sub_diag (s : bool) (m : positive) (e : Z) :
  fsub (S754_finite s m e) (S754_finite s m e) = S754_zero false.
Proof.
  cbn [fsub binary32_arith]. unfold SFsub. cbv zeta.
  rewrite Z.sub_diag. reflexivity.
Qed.

(** The extremum the bias is anchored at comes back exactly when the
    scale [edge / q0] is a finite number other than zero. *)
Lemma edge_round_trip (edge q0 : spec_float) :
  b32_nonzero (fdiv edge q0) ->
  round_trip bits (fdiv edge q0) edge edge = edge.
Proof.
  intros (ss & ms & es & Hs). rewrite Hs.
  assert (He : exists s m e, edge = S754_finite s m e).
  { cbn [fdiv binary32_arith] in Hs.
    destruct edge as [se | se | | se me ee]; [| | | eauto];
      destruct q0; cbn in Hs; discriminate. }
  destruct He as (se & me & ee & ->).
  destruct (b32_n_bins bits Hbits) as (mn & kn & Hn).
  unfold round_trip, quantize_el, dequantize. cbn [to_float conv_id].
  rewrite b32_sub_diag, Hn, b32_of_Z_0. reflexivity.
Qed.

End B32Quantizer.

(** *** The round trip as worded, on [float]s *)

(** The two groups that refute the property in exact arithmetic refute
    it in binary32 in the same way. *)
Lemma tiny_floats_refute_round_trip : ~ round_trip_claim 4 32 tiny_floats.
Proof.
  unfold round_trip_claim.
  assert (Hmm : group_min_max (CV := conv_id spec_float) tiny_floats 0 32
                = (S754_finite false 8388608 (-53),
                   S754_finite false 8388608 (-53)))
    by (vm_compute; reflexivity).
  rewrite Hmm.
  assert (Hsb : group_scale_bias 4 (S754_finite false 8388608 (-53))
                  (S754_finite false 8388608 (-53))
                = (S754_finite true 14073749 (-47), S754_zero false))
    by (vm_compute; reflexivity).
  rewrite Hsb.
  intros [Hedge _]. vm_compute in Hedge. discriminate Hedge.
Qed.

Lemma skewed_floats_refute_half_step : ~ round_trip_claim 4 32 skewed_floats.
Proof.
  unfold round_trip_claim.
  assert (Hmm : group_min_max (CV := conv_id spec_float) skewed_floats 0 32
                = (S754_finite true 15990784 (-21),
                   S754_finite false 15466496 (-21)))
    by (vm_compute; reflexivity).
  rewrite Hmm.
  assert (Hsb : group_scale_bias 4 (S754_finite true 15990784 (-21))
                  (S754_finite false 15466496 (-21))
                = (S754_finite false 15990784 (-24),
                   S754_finite true 15990784 (-21)))
    by (vm_compute; reflexivity).
  rewrite Hsb.
  intros [_ Hall]. specialize (Hall 1 ltac:(lia)).
  vm_compute in Hall. discriminate Hall.
Qed.

(** In binary32 a value the clamp leaves alone can come back further
    than half a step from where it was: [w - bias] is rounded to
    [9.0546875], the quotient by the scale [0.953125] is [9.5], the
    code is [10] and the dequantized value [1.90625] is
    [0.4765625 + 2^-23] away.  The bound of half a step on the
    dequantized value holds in exact arithmetic only. *)
Lemma near_tie_exceeds_half_step :
  ~ round_trip_amended 4 32 near_tie_group.
Proof.
  unfold round_trip_amended.
  assert (Hmm : group_min_max (CV := conv_id spec_float) near_tie_group 0 32
                = (S754_finite true 15990784 (-21),
                   S754_finite false 15466496 (-21)))
    by (vm_compute; reflexivity).
  rewrite Hmm.
  assert (Hsb : group_scale_bias 4 (S754_finite true 15990784 (-21))
                  (S754_finite false 15466496 (-21))
                = (S754_finite false 15990784 (-24),
                   S754_finite true 15990784 (-21)))
    by (vm_compute; reflexivity).
  rewrite Hsb.
  intros [_ Hall].
  specialize (Hall 2 ltac:(lia) ltac:(split; vm_compute; reflexivity)).
  vm_compute in Hall. discriminate Hall.
Qed.

Lemma near_tie_refutes_half_step : ~ round_trip_claim 4 32 near_tie_group.
Proof.
  unfold round_trip_claim.
  assert (Hmm : group_min_max (CV := conv_id spec_float) near_tie_group 0 32
                = (S754_finite true 15990784 (-21),
                   S754_finite false 15466496 (-21)))
    by (vm_compute; reflexivity).
  rewrite Hmm.
  assert (Hsb : group_scale_bias 4 (S754_finite true 15990784 (-21))
                  (S754_finite false 15466496 (-21))
                = (S754_finite false 15990784 (-24),
                   S754_finite true 15990784 (-21)))
    by (vm_compute; reflexivity).
  rewrite Hsb.
  intros [_ Hall]. specialize (Hall 2 ltac:(lia)).
  vm_compute in Hall. discriminate Hall.
Qed.


(** ** The kernels: what they compute, and from what *)

Section KernelClaims.
Context {T F : Type} {AT : Arith T} {AF : Arith F} {CV : Conv T F}.
Variable simd_sum : list F -> F.
Variable max_size : Z.
Variables (bits group_size : Z).
Variables (x : buf T) (w : buf Z) (scales biases : buf T).

(** C3.  With the grouped dimension a multiple of [group_size], [_qmm]
    and [_qmm_t] write at row [m], column [n] of the output the sum
    over [k], taken from zero in increasing [k], of
    [x[m,k] * (scale * code + bias)], where [code] is the packed code
    decoded at element [(k, n)] of the [K x N] weights (at [(n, k)] of
    the [N x K] weights when transposed) and [scale], [bias] are those
    of the group of that element. *)
Theorem kernels_compute_dequantized_product (res : buf T) (rp M N K : Z) :
  valid_bits bits -> valid_group_size group_size -> 0 <= K ->
  (N mod group_size = 0 ->
   forall m n, 0 <= m < M -> 0 <= n < N ->
     _qmm bits group_size res rp x w scales biases M N K (rp + m * N + n)
     = sum_from (of_Z 0) (Z.to_nat K)
         (fun k =>
            fmul (x (m * K + k))
              (fadd
                 (fmul (scales ((k * N + n) / group_size))
                    (of_Z (code_at bits (bytes_of_words w) (k * N + n))))
                 (biases ((k * N + n) / group_size)))))
  /\ (K mod group_size = 0 ->
      forall m n, 0 <= m < M -> 0 <= n < N ->
        _qmm_t bits group_size res rp x w scales biases M N K
          (rp + m * N + n)
        = sum_from (of_Z 0) (Z.to_nat K)
            (fun k =>
               fmul (x (m * K + k))
                 (fadd
                    (fmul (scales ((n * K + k) / group_size))
                       (of_Z (code_at bits (bytes_of_words w)
                                (n * K + k))))
                    (biases ((n * K + k) / group_size))))).
Proof.
  intros Hb Hg HK. split; intros Hdiv m n Hm Hn.
  - now apply qmm_computes.
  - now apply qmm_t_computes.
Qed.

(** C10.  Two runs of a kernel on the same inputs and on output
    buffers [res1] and [res2] of arbitrary contents leave the same
    value in each of the [M * N] output elements: [_qmm] and [_qmm_t]
    always, and [_qmm_t_simd] likewise, its two runs either both
    returning or both throwing; on the pairs its decoder is written
    for it returns. *)
Theorem output_independent_of_initial_contents
    (res1 res2 : buf T) (rp M N K : Z) :
  0 <= M -> 0 <= N ->
  (forall j, 0 <= j < M * N ->
     _qmm bits group_size res1 rp x w scales biases M N K (rp + j)
     = _qmm bits group_size res2 rp x w scales biases M N K (rp + j))
  /\ (forall j, 0 <= j < M * N ->
        _qmm_t bits group_size res1 rp x w scales biases M N K (rp + j)
        = _qmm_t bits group_size res2 rp x w scales biases M N K (rp + j))
  /\ outcome_rel
       (fun o1 o2 => forall j, 0 <= j < M * N -> o1 (rp + j) = o2 (rp + j))
       (_qmm_t_simd simd_sum max_size bits group_size
          res1 rp x w scales biases M N K)
       (_qmm_t_simd simd_sum max_size bits group_size
          res2 rp x w scales biases M N K)
  /\ (simd_supported bits max_size ->
      is_done (_qmm_t_simd simd_sum max_size bits group_size
                 res1 rp x w scales biases M N K) = true).
Proof.
  intros HM HN.
  assert (Hag : forall o1 o2 : buf T,
             agree_on (fun p => rp <= p < rp + M * N) (rp - rp) o1 o2 ->
             forall j, 0 <= j < M * N -> o1 (rp + j) = o2 (rp + j)).
  { intros o1 o2 H j Hj. rewrite <- (H (rp + j)) by lia. f_equal. lia. }
  repeat split.
  - apply Hag. now apply qmm_two_runs.
  - apply Hag. now apply qmm_t_two_runs.
  - pose proof (qmm_t_simd_two_runs simd_sum max_size bits group_size
                  x w scales biases M N K res1 res2 rp rp HM HN) as H.
    destruct (_qmm_t_simd _ _ _ _ res1 _ _ _ _ _ _ _ _),
      (_qmm_t_simd _ _ _ _ res2 _ _ _ _ _ _ _ _);
      cbn [outcome_rel] in H |- *; trivial.
    apply Hag. apply H.
  - apply qmm_t_simd_done.
Qed.
End KernelClaims.

(** ** The statements at concrete inputs *)

Lemma valid_bits_4 : valid_bits 4.
Proof. unfold valid_bits. lia. Defined.

Lemma valid_group_size_32 : valid_group_size 32.
Proof. unfold valid_group_size. lia. Defined.

Lemma simd_width_ok_8 : simd_width_ok 8.
Proof. intros _. reflexivity. Defined.

Lemma entry_points_run_configured_kernel_witness :
  is_done
    (QuantizedMatmul_eval_cpu lane_sum elem_to_loc_std exact_arith_of
       exact_conv_of max_size_example copy_example row_major ex_prim
       ex_x ex_w ex_scales ex_biases ex_out (fun _ => XNaN)) = true
  /\ is_done
       (GatherQMM_eval_cpu lane_sum elem_to_loc_std exact_arith_of
          exact_conv_of max_size_example copy_example row_major ex_prim
          ex_x ex_w ex_scales ex_biases ex_lhs ex_rhs ex_out
          (fun _ => XNaN)) = true.
Proof.
  destruct (entry_points_run_configured_kernel lane_sum elem_to_loc_std
              exact_arith_of exact_conv_of max_size_example copy_example
              row_major ex_prim ex_x ex_w ex_scales ex_biases ex_lhs ex_rhs
              ex_out (fun _ => XNaN)
              valid_bits_4 valid_group_size_32
              (or_introl eq_refl) simd_width_ok_8)
    as [(_ & _ & Hd) (_ & _ & Hg)].
  split; assumption.
Defined.

Lemma not_valid_bits_7 : ~ valid_bits 7.
Proof. unfold valid_bits. lia. Defined.

Lemma invalid_configuration_rejected_witness :
  (exists msg,
     _qmm_dispatch_typed (AT := exact_arith) (CV := conv_id xreal)
       lane_sum 8 (fun _ => XNaN) 0
       (data ex_x) (data ex_w) (data ex_scales) (data ex_biases)
       1 1 32 32 7 true
     = Throw (invalid_argument msg) (fun _ => XNaN))
  /\ (exists msg,
        QuantizedMatmul_eval_cpu lane_sum elem_to_loc_std exact_arith_of
          exact_conv_of max_size_example copy_example row_major
          ex_prim_bits7 ex_x ex_w ex_scales ex_biases ex_out
          (fun _ => XNaN)
        = Throw (invalid_argument msg) (fun _ => XNaN)).
Proof.
  destruct (invalid_configuration_rejected lane_sum elem_to_loc_std
              exact_arith_of exact_conv_of max_size_example copy_example
              row_major ex_prim_bits7 ex_x ex_w ex_scales ex_biases ex_out
              (fun _ => XNaN)
              (or_introl not_valid_bits_7))
    as [Hptr Hentry].
  split.
  - exact (Hptr float32 (fun _ => XNaN) 0
             (data ex_x) (data ex_w) (data ex_scales) (data ex_biases)
             1 1 32).
  - exact (Hentry (or_introl eq_refl) eq_refl).
Defined.

(** C2 as worded fails when there is no batch to run: the dense matmul
    on an activation with an empty leading dimension returns without
    an error although the bit width is 7. *)
Lemma invalid_configuration_unchecked_without_batch :
  ~ valid_bits (bits_ ex_prim_bits7)
  /\ is_floating (dtype ex_x_empty)
  /\ QuantizedMatmul_eval_cpu lane_sum elem_to_loc_std exact_arith_of
       exact_conv_of max_size_example copy_example row_major
       ex_prim_bits7 ex_x_empty ex_w ex_scales ex_biases ex_out
       (fun _ => XNaN)
     = Done (fun _ => XNaN).
Proof.
  split; [| split].
  - exact not_valid_bits_7.
  - left. reflexivity.
  - reflexivity.
Qed.

(** A group size of 100 is rejected in the same way. *)
Lemma group_size_100_rejected :
  _qmm_dispatch_typed (AT := exact_arith) (CV := conv_id xreal)
    lane_sum 8 (fun _ => XNaN) 0
    (data ex_x) (data ex_w) (data ex_scales) (data ex_biases)
    1 1 32 100 4 true
  = Throw (invalid_argument "Quantization group size must be 32, 64 or 128.")
      (fun _ => XNaN).
Proof. reflexivity. Qed.

Lemma kernels_compute_dequantized_product_witness :
  _qmm (T := xreal) 4 32 (fun _ => XNaN) 0
    (data ex_x) (data ex_w) (data ex_scales) (data ex_biases) 1 32 1 31
  = XFin (5 # 2)
  /\ exists q,
       _qmm_t (T := xreal) 4 32 (fun _ => XNaN) 0
         (data ex_x) (data ex_w) (data ex_scales) (data ex_biases) 1 1 32 0
       = XFin q /\ (q == 480 # 1)%Q.
Proof.
  destruct (kernels_compute_dequantized_product (T := xreal) 4 32
              (data ex_x) (data ex_w) (data ex_scales) (data ex_biases)
              (fun _ => XNaN) 0 1 32 1
              valid_bits_4 valid_group_size_32 ltac:(lia)) as [Hq _].
  destruct (kernels_compute_dequantized_product (T := xreal) 4 32
              (data ex_x) (data ex_w) (data ex_scales) (data ex_biases)
              (fun _ => XNaN) 0 1 1 32
              valid_bits_4 valid_group_size_32 ltac:(lia)) as [_ Ht].
  split.
  - change 31 with (0 + 0 * 32 + 31).
    rewrite (Hq eq_refl 0 31 ltac:(lia) ltac:(lia)). reflexivity.
  - change 0 with (0 + 0 * 1 + 0) at 2.
    rewrite (Ht eq_refl 0 0 ltac:(lia) ltac:(lia)).
    eexists. split; [vm_compute; reflexivity | reflexivity].
Defined.

Lemma quantize_scale_bias_witness :
  let q := quantize (CV := conv_id xreal) u32 skewed_group (fun _ => 0)
             (fun _ => XNaN) (fun _ => XNaN) 4 32 32 in
  q_scales q 0 = XFin (61 # 64) /\ q_biases q 0 = XFin (-61 # 8).
Proof.
  destruct (quantize_scale_bias (CV := conv_id xreal) u32 skewed_group
              (fun _ => 0) (fun _ => XNaN) (fun _ => XNaN) 4 32 32 0
              ltac:(lia) (conj (Z.le_refl 0) eq_refl)) as [Hs Hb].
  cbv zeta. rewrite Hs, Hb. split; vm_compute; reflexivity.
Defined.


Lemma gathered_selection_witness :
  exists res',
    _bs_qmm_dispatch_typed (AT := exact_arith) (CV := conv_id xreal)
      lane_sum elem_to_loc_std 8 ex_out ex_x ex_w ex_scales ex_biases
      ex_lhs ex_rhs 32 4 true = Done res'
    /\ forall i, 0 <= i < 3 ->
         res' i
         = state_of
             (batch_matmul (AT := exact_arith) (CV := conv_id xreal)
                lane_sum elem_to_loc_std 8 (fun _ => XNaN)
                ex_x ex_w ex_scales ex_biases 1
                (nth (Z.to_nat i) [0; 0; 1] 0)
                (nth (Z.to_nat i) [1; 0; 0] 0)
                32 4 true) 0.
Proof.
  destruct (gathered_selection (AT := exact_arith) (CV := conv_id xreal)
              lane_sum elem_to_loc_std 8 ex_out ex_x ex_w ex_scales
              ex_biases ex_lhs ex_rhs 4 32 true
              valid_bits_4 valid_group_size_32 simd_width_ok_8
              ltac:(vm_compute; discriminate)
              ltac:(vm_compute; discriminate)) as (res' & Hrun & Hsel).
  exists res'. split; [exact Hrun |].
  intros i Hi.
  change (size ex_lhs) with 3 in Hsel.
  change (shape_at ex_x (-2)) with 1 in Hsel.
  change (shape_at ex_out (-1)) with 1 in Hsel.
  specialize (Hsel i 0 (fun _ => XNaN) Hi ltac:(lia)).
  replace (i * 1 * 1 + 0) with i in Hsel by lia.
  rewrite Hsel.
  assert (Hcases : i = 0 \/ i = 1 \/ i = 2) by lia.
  destruct Hcases as [-> | [-> | ->]]; reflexivity.
Defined.

Lemma kernel_selection_witness :
  _qmm_dispatch_transpose (AT := exact_arith) (CV := conv_id xreal)
    lane_sum 8 4 32 (fun _ => XNaN) 0
    (data ex_x) (data ex_w) (data ex_scales) (data ex_biases) 1 1 32 true
  = _qmm_t_simd (CV := conv_id xreal)
      lane_sum 8 4 32 (fun _ => XNaN) 0
      (data ex_x) (data ex_w) (data ex_scales) (data ex_biases) 1 1 32
  /\ _qmm_dispatch_transpose (AT := exact_arith) (CV := conv_id xreal)
       lane_sum 8 3 32 (fun _ => XNaN) 0
       (data ex_x) (data ex_w) (data ex_scales) (data ex_biases) 1 1 32 true
     = Done (_qmm_t 3 32 (fun _ => XNaN) 0
               (data ex_x) (data ex_w) (data ex_scales) (data ex_biases)
               1 1 32)
  /\ _qmm_dispatch_transpose (AT := exact_arith) (CV := conv_id xreal)
       lane_sum 8 4 32 (fun _ => XNaN) 0
       (data ex_x) (data ex_w) (data ex_scales) (data ex_biases) 1 32 1 false
     = Done (_qmm 4 32 (fun _ => XNaN) 0
               (data ex_x) (data ex_w) (data ex_scales) (data ex_biases)
               1 32 1).
Proof.
  split; [| split].
  - apply (proj1 (kernel_selection (AT := exact_arith) (CV := conv_id xreal)
                    lane_sum 8 (fun _ => XNaN) 0
                    (data ex_x) (data ex_w) (data ex_scales) (data ex_biases)
                    1 1 32 4 32 true)).
    + reflexivity.
    + split; reflexivity.
  - apply (proj1 (proj2 (kernel_selection (AT := exact_arith)
                           (CV := conv_id xreal)
                           lane_sum 8 (fun _ => XNaN) 0
                           (data ex_x) (data ex_w) (data ex_scales)
                           (data ex_biases) 1 1 32 3 32 true))).
    + reflexivity.
    + intros [H _]. vm_compute in H. discriminate H.
  - apply (proj2 (proj2 (kernel_selection (AT := exact_arith)
                           (CV := conv_id xreal)
                           lane_sum 8 (fun _ => XNaN) 0
                           (data ex_x) (data ex_w) (data ex_scales)
                           (data ex_biases) 1 32 1 4 32 false))).
    reflexivity.
Defined.

Lemma extract_bits_total_in_range_witness :
  extract_bits (T := xreal) 5 (fun _ => 255)
  = map of_Z [31; 31; 31; 31; 31; 31; 31; 31]
  /\ extract_bits (T := xreal) 3 (fun i => 16 * i + 7)
     = map of_Z [7; 0; 4; 3; 1; 6; 1; 1].
Proof.
  destruct (extract_bits_total_in_range xreal exact_arith 5 (fun _ => 255)
              ltac:(lia)) as (_ & H5 & _).
  destruct (extract_bits_total_in_range xreal exact_arith 3
              (fun i => 16 * i + 7) ltac:(lia)) as (_ & H3 & _).
  rewrite H5, H3. split; reflexivity.
Defined.

Lemma output_independent_of_initial_contents_witness :
  _qmm (T := xreal) 4 32 (fun _ => XNaN) 0
    (data ex_x) (data ex_w) (data ex_scales) (data ex_biases) 1 32 1
    (0 + 5)
  = _qmm (T := xreal) 4 32 (fun i => XFin (inject_Z i)) 0
      (data ex_x) (data ex_w) (data ex_scales) (data ex_biases) 1 32 1
      (0 + 5).
Proof.
  exact (proj1 (output_independent_of_initial_contents
                  (AT := exact_arith) (CV := conv_id xreal) lane_sum 8 4 32
                  (data ex_x) (data ex_w) (data ex_scales) (data ex_biases)
                  (fun _ => XNaN) (fun i => XFin (inject_Z i)) 0 1 32 1
                  ltac:(lia) ltac:(lia))
           5 ltac:(lia)).
Defined.

(** * Further properties of the dispatch layer and the drivers *)

Section DispatchErrors.
Context {T F : Type} {AT : Arith T} {AF : Arith F} {CV : Conv T F}.
Variable simd_sum : list F -> F.
Variable max_size : Z.
Variables (res : buf T) (rp : Z) (x : buf T) (w : buf Z).
Variables (scales biases : buf T) (M N K : Z).

(** X1.  [_qmm_dispatch_typed] looks at the bit width before the group
    size: an unsupported width is reported with the message about the
    bits whatever the group size is, and the message about the group
    size is only seen with a supported width.  In both cases the output
    buffer is the one given. *)
Theorem dispatch_error_order (bits group_size : Z) (transposed_w : bool) :
  (~ valid_bits bits ->
   _qmm_dispatch_typed simd_sum max_size
     res rp x w scales biases M N K group_size bits transposed_w
   = Throw (invalid_argument "Quantization bits must be 2, 3, 4, 6 or 8.")
       res)
  /\ (valid_bits bits -> ~ valid_group_size group_size ->
      _qmm_dispatch_typed simd_sum max_size
        res rp x w scales biases M N K group_size bits transposed_w
      = Throw
          (invalid_argument "Quantization group size must be 32, 64 or 128.")
          res).
Proof.
  split.
  - intros Hb. now apply dispatch_typed_invalid_bits.
  - intros Hb Hg. rewrite dispatch_typed_valid by exact Hb.
    now apply dispatch_group_invalid.
Qed.
End DispatchErrors.

Section EntryErrors.
Context {V F : Type} {AF : Arith F}.
Variable simd_sum : list F -> F.
Variable elem_to_loc : Z -> list Z -> list Z -> Z.
Variable arith_of : Dtype -> Arith V.
Variable conv_of : Dtype -> Conv V F.
Variable max_size_of : Dtype -> Z.
Variable copy_cpu : forall A : Type, array A -> buf A.
Variable default_strides : list Z -> list Z.

(** X2.  An activation whose element type is not one of the three
    floats makes both entry points throw the invalid-argument error of
    [_qmm_dispatch] and [_bs_qmm_dispatch], whatever the bit width and
    the group size are; the allocation given to the output is as it
    was. *)
Theorem non_floating_rejected (prim : quantized_prim)
    (x_pre : array V) (w_pre : array Z) (scales_pre biases_pre : array V)
    (lhs_indices rhs_indices : array Z) (out : array V) (mem : buf V) :
  ~ is_floating (dtype x_pre) ->
  QuantizedMatmul_eval_cpu simd_sum elem_to_loc arith_of conv_of
    max_size_of copy_cpu default_strides prim
    x_pre w_pre scales_pre biases_pre out mem
  = Throw
      (invalid_argument "[quantized_matmul] only floating types are supported")
      mem
  /\ GatherQMM_eval_cpu simd_sum elem_to_loc arith_of conv_of
       max_size_of copy_cpu default_strides prim
       x_pre w_pre scales_pre biases_pre lhs_indices rhs_indices out mem
     = Throw
         (invalid_argument
            "[quantized_matmul] only floating types are supported")
         mem.
Proof.
  intros Hf.
  unfold QuantizedMatmul_eval_cpu, GatherQMM_eval_cpu,
    _qmm_dispatch, _bs_qmm_dispatch.
  rewrite ensure_row_contiguous_dtype, ensure_row_contiguous_last_dims_dtype.
  unfold is_floating in Hf.
  destruct (dtype x_pre); try (split; reflexivity);
    exfalso; apply Hf; auto.
Qed.

Lemma dispatch_typed_rejects (d : Dtype) (bits group_size : Z)
    (res : buf V) (rp : Z) (x : buf V) (w : buf Z) (scales biases : buf V)
    (M N K : Z) (transposed_w : bool) :
  ~ valid_bits bits \/ ~ valid_group_size group_size ->
  exists msg,
    _qmm_dispatch_typed (AT := arith_of d) (CV := conv_of d)
      simd_sum (max_size_of d) res rp x w scales biases M N K
      group_size bits transposed_w
    = Throw (invalid_argument msg) res.
Proof.
  intros Hinv.
  assert (Hdec : valid_bits bits \/ ~ valid_bits bits)
    by (unfold valid_bits; lia).
  destruct Hdec as [Hb | Hb].
  - destruct Hinv as [Hinv | Hinv]; [contradiction |].
    rewrite dispatch_typed_valid by exact Hb.
    rewrite dispatch_group_invalid by exact Hinv. eauto.
  - rewrite dispatch_typed_invalid_bits by exact Hb. eauto.
Qed.

(** X3.  On floating inputs, a bit width or a group size that is not
    supported reaches the caller of either entry point as an
    invalid-argument error as soon as one batch is dispatched: the
    dense entry point when [x.size() / (K * M)] is positive, the
    gathered one when the index array is not empty.  The allocation
    given to the output is as it was. *)
Theorem invalid_configuration_at_entry_points (prim : quantized_prim)
    (x_pre : array V) (w_pre : array Z) (scales_pre biases_pre : array V)
    (lhs_indices rhs_indices : array Z) (out : array V) (mem : buf V) :
  ~ valid_bits (bits_ prim) \/ ~ valid_group_size (group_size_ prim) ->
  is_floating (dtype x_pre) ->
  let K := shape_at x_pre (-1) in
  let M := if ndim x_pre >? 1 then shape_at x_pre (-2) else 1 in
  (0 < Z.quot (size x_pre) (K * M) ->
   exists msg,
     QuantizedMatmul_eval_cpu simd_sum elem_to_loc arith_of conv_of
       max_size_of copy_cpu default_strides prim
       x_pre w_pre scales_pre biases_pre out mem
     = Throw (invalid_argument msg) mem)
  /\ (0 < size lhs_indices ->
      exists msg,
        GatherQMM_eval_cpu simd_sum elem_to_loc arith_of conv_of
          max_size_of copy_cpu default_strides prim
          x_pre w_pre scales_pre biases_pre lhs_indices rhs_indices out mem
        = Throw (invalid_argument msg) mem).
Proof.
  intros Hinv Hf K M. split.
  - intros Hbatch.
    apply dense_entry_rejects_invalid; trivial.
    unfold size, ndim, shape_at.
    rewrite ensure_row_contiguous_shape. exact Hbatch.
  - intros Hidx.
    unfold GatherQMM_eval_cpu.
    rewrite bs_qmm_dispatch_floating
      by (rewrite ensure_row_contiguous_last_dims_dtype; exact Hf).
    unfold _bs_qmm_dispatch_typed, for_lt_o.
    match goal with
    | |- exists msg, for_from_o _ _ _ ?body ?s = _ =>
        assert (Hm : exists msg, body 0 s = Throw (invalid_argument msg) s)
          by (cbv beta; apply dispatch_typed_rejects; exact Hinv)
    end.
    destruct Hm as (msg & Hmsg).
    exists msg. apply for_from_o_throw; [lia | exact Hmsg].
Qed.

(** X4.  With no batch to run neither entry point looks at the bit
    width or the group size: on floating inputs the dense entry point
    with [x.size() / (K * M)] not positive, and the gathered one with
    an empty index array, return the allocation given to the output
    untouched, whatever the configuration is. *)
Theorem no_batch_no_check (prim : quantized_prim)
    (x_pre : array V) (w_pre : array Z) (scales_pre biases_pre : array V)
    (lhs_indices rhs_indices : array Z) (out : array V) (mem : buf V) :
  is_floating (dtype x_pre) ->
  let K := shape_at x_pre (-1) in
  let M := if ndim x_pre >? 1 then shape_at x_pre (-2) else 1 in
  (Z.quot (size x_pre) (K * M) <= 0 ->
   QuantizedMatmul_eval_cpu simd_sum elem_to_loc arith_of conv_of
     max_size_of copy_cpu default_strides prim
     x_pre w_pre scales_pre biases_pre out mem
   = Done mem)
  /\ (size lhs_indices <= 0 ->
      GatherQMM_eval_cpu simd_sum elem_to_loc arith_of conv_of
        max_size_of copy_cpu default_strides prim
        x_pre w_pre scales_pre biases_pre lhs_indices rhs_indices out mem
      = Done mem).
Proof.
  intros Hf K M. split.
  - intros Hbatch. unfold QuantizedMatmul_eval_cpu.
    rewrite qmm_dispatch_floating
      by (rewrite ensure_row_contiguous_dtype; exact Hf).
    unfold _qmm_dispatch_typed_arr, for_lt_o, size, ndim, shape_at.
    rewrite ensure_row_contiguous_shape.
    fold (size x_pre) (ndim x_pre) (shape_at x_pre (-1))
      (shape_at x_pre (-2)).
    fold K. fold M.
    replace (Z.to_nat (Z.quot (size x_pre) (K * M))) with O by lia.
    reflexivity.
  - intros Hidx. unfold GatherQMM_eval_cpu.
    rewrite bs_qmm_dispatch_floating
      by (rewrite ensure_row_contiguous_last_dims_dtype; exact Hf).
    unfold _bs_qmm_dispatch_typed, for_lt_o.
    replace (Z.to_nat (size lhs_indices)) with O by lia.
    reflexivity.
Qed.
End EntryErrors.

Section DenseBatches.
Context {V F : Type} {AF : Arith F} {AT : Arith V} {CV : Conv V F}.
Variable simd_sum : list F -> F.
Variable elem_to_loc : Z -> list Z -> list Z -> Z.
Variable max_size : Z.
Variables (out x : array V) (w : array Z) (scales biases : array V).
Variables (bits group_size : Z) (transposed_w : bool).

(** X5.  On a supported configuration the dense driver returns, and
    batch [i] of the output (at offset [i * M * N]) is the matmul of
    activation batch [i] against the weight, scales and biases located
    by [elem_to_loc] at [i * w_els] and [i * g_els]; a weight of at most
    two dimensions has [w_els = g_els = 0], so that every batch is
    multiplied with the weight, scales and biases at the location of
    element 0.  The driver receives the group size and the bit width
    in this order, as [QuantizedMatmul::eval_cpu] passes them. *)
Theorem dense_batches :
  let K := shape_at x (-1) in
  let M := if ndim x >? 1 then shape_at x (-2) else 1 in
  let N := shape_at out (-1) in
  let w_els := if ndim w >? 2 then shape_at w (-1) * shape_at w (-2)
               else 0 in
  let g_els := if ndim w >? 2
               then shape_at scales (-1) * shape_at scales (-2) else 0 in
  valid_bits bits -> valid_group_size group_size ->
  simd_width_ok max_size -> 0 <= M -> 0 <= N ->
  (exists res',
     _qmm_dispatch_typed_arr simd_sum elem_to_loc max_size
       out x w scales biases group_size bits transposed_w = Done res'
     /\ forall i j ref,
          0 <= i < Z.quot (size x) (K * M) -> 0 <= j < M * N ->
          res' (i * M * N + j)
          = state_of
              (_qmm_dispatch_typed simd_sum max_size ref 0
                 (batch_of elem_to_loc x (M * K) i)
                 (batch_of elem_to_loc w w_els i)
                 (batch_of elem_to_loc scales g_els i)
                 (batch_of elem_to_loc biases g_els i)
                 M N K group_size bits transposed_w) j)
  /\ (ndim w <= 2 ->
      forall i,
        batch_of elem_to_loc w w_els i = batch_of elem_to_loc w 0 0
        /\ batch_of elem_to_loc scales g_els i
           = batch_of elem_to_loc scales 0 0
        /\ batch_of elem_to_loc biases g_els i
           = batch_of elem_to_loc biases 0 0).
Proof.
  intros K M N w_els g_els Hb Hg Hok HM HN. split.
  - rewrite qmm_dispatch_typed_arr_shape.
    unfold dense_with, for_lt_o. fold K M N w_els g_els.
    destruct (batch_loop simd_sum max_size bits group_size transposed_w
                M N K
                (fun i => batch_of elem_to_loc x (M * K) i)
                (fun i => batch_of elem_to_loc w w_els i)
                (fun i => batch_of elem_to_loc scales g_els i)
                (fun i => batch_of elem_to_loc biases g_els i)
                Hb Hg Hok (Z.to_nat (Z.quot (size x) (K * M))) (data out)
                HM HN) as (res' & Hrun & Hsel).
    exists res'. split; [exact Hrun |].
    intros i j ref Hi Hj. apply Hsel; lia.
  - intros Hw i. subst w_els g_els.
    replace (ndim w >? 2) with false
      by (symmetry; rewrite Z.gtb_ltb; apply Z.ltb_ge; lia).
    unfold batch_of. rewrite !Z.mul_0_r. auto.
Qed.
End DenseBatches.

(** * The kernels write their output region and nothing else *)

(** Invariant of a loop whose body may throw: [P] after each completed
    iteration, [Q] on the state left by a [throw]. *)
Lemma for_from_o_inv_throw {St : Type} (P : nat -> St -> Prop)
    (Q : St -> Prop) (body : Z -> St -> outcome St)
    (n : nat) (i0 step : Z) (s0 : St) :
  P O s0 ->
  (forall k s, (k < n)%nat -> P k s ->
     match body (i0 + Z.of_nat k * step) s with
     | Done s' => P (S k) s'
     | Throw _ s' => Q s'
     end) ->
  match for_from_o n i0 step body s0 with
  | Done s' => P n s'
  | Throw _ s' => Q s'
  end.
Proof.
  revert P i0 s0. induction n as [| n IH]; intros P i0 s0 H0 Hstep.
  - exact H0.
  - cbn [for_from_o].
    pose proof (Hstep O s0 ltac:(lia) H0) as H1.
    cbn [Z.of_nat] in H1. rewrite Z.mul_0_l, Z.add_0_r in H1.
    destruct (body i0 s0) as [s1 | e s1]; trivial.
    apply (IH (fun k s => P (S k) s)); trivial.
    intros k s Hk HP.
    replace (i0 + step + Z.of_nat k * step)
      with (i0 + Z.of_nat (S k) * step) by lia.
    apply Hstep; [lia | exact HP].
Qed.

Section KernelFrames.
Context {T F : Type} {AT : Arith T} {AF : Arith F} {CV : Conv T F}.
Variable simd_sum : list F -> F.
Variable max_size : Z.
Variables (bits group_size : Z).
Variables (x : buf T) (w : buf Z) (scales biases : buf T).

Lemma qmm_t_frame (res : buf T) (rp M N K : Z) (p : Z) :
  0 <= N -> ~ (rp <= p < rp + M * N) ->
  _qmm_t bits group_size res rp x w scales biases M N K p = res p.
Proof.
  intros HN Hp. unfold _qmm_t, for_lt.
  pose (P := fun (i : nat) (s : kernel_m T) =>
               km_result s = rp + Z.of_nat i * N
               /\ forall q, ~ (rp <= q < rp + Z.of_nat i * N) ->
                    km_res s q = res q).
  match goal with
  | |- km_res ?s _ = _ => assert (HP : P (Z.to_nat M) s)
  end.
  { apply for_from_inv.
    - unfold P. cbn [km_result km_res]. split; [lia | trivial].
    - intros i s _ [Hres Hout]. cbv zeta.
      pose (Q := fun (j : nat) (row : qmm_t_row T) =>
                   qt_result row = km_result s + Z.of_nat j
                   /\ forall q, ~ (rp <= q < km_result s + Z.of_nat j) ->
                        qt_res row q = res q).
      match goal with
      | |- P _ (mk_kernel_m (qt_res ?r) _ _) =>
          set (row := r); assert (HQ : Q (Z.to_nat N) row); subst row
      end.
      { apply for_from_inv.
        - unfold Q. cbn [qt_result qt_res]. split; [lia |].
          intros q Hq. apply Hout. lia.
        - intros j row _ [Hr Ho].
          destruct (for_lt_step K group_size _ _) as [[d sl] bl].
          unfold Q. cbn [qt_result qt_res]. split; [rewrite Nat2Z.inj_succ; lia |].
          intros q Hq. rewrite upd_other by lia. apply Ho. lia. }
      match type of HQ with Q _ ?r => set (row := r) in * end.
      destruct HQ as [Hr Ho]. unfold P. cbn [km_result km_res].
      rewrite Z2Nat.id in Hr, Ho by lia.
      split; [lia |]. intros q Hq. apply Ho. lia. }
  destruct HP as [_ Hout]. apply Hout.
  destruct (Z.lt_ge_cases M 0).
  - replace (Z.to_nat M) with O by lia. lia.
  - rewrite Z2Nat.id by lia. exact Hp.
Qed.

Lemma qmm_frame (res : buf T) (rp M N K : Z) (p : Z) :
  valid_bits bits -> valid_group_size group_size ->
  0 <= N -> N mod group_size = 0 -> ~ (rp <= p < rp + M * N) ->
  _qmm bits group_size res rp x w scales biases M N K p = res p.
Proof.
  intros Hbits Hgroup HN Hdiv Hp.
  assert (Hgpos : 0 < group_size)
    by (unfold valid_group_size in Hgroup; lia).
  assert (HNG : Z.of_nat (trip_count N group_size) * group_size = N)
    by (apply trip_count_exact; lia).
  unfold _qmm. unfold for_lt at 1.
  pose (P := fun (i : nat) (s : kernel_m T) =>
               km_result s = rp + Z.of_nat i * N
               /\ forall q, ~ (rp <= q < rp + Z.of_nat i * N) ->
                    km_res s q = res q).
  match goal with
  | |- km_res ?s _ = _ => assert (HP : P (Z.to_nat M) s)
  end.
  { apply for_from_inv.
    - unfold P. cbn [km_result km_res]. split; [lia | trivial].
    - intros i s _ [Hres Hout]. cbv zeta.
      pose proof (fill_spec (km_res s) (km_result s) N ltac:(lia)) as Hfill.
      set (filled := for_lt N _ (km_res s)) in *.
      pose proof (qmm_rows_spec bits group_size Hbits Hgroup x
                    (bytes_of_words w) scales biases filled (km_result s)
                    (km_x s) (trip_count N group_size) (Z.to_nat K)
                    group_size) as Hrows.
      cbv zeta in Hrows. rewrite HNG in Hrows.
      destruct Hrows as [_ Hrows].
      unfold P. cbn [km_result km_res].
      unfold for_lt at 1. unfold for_lt_step.
      split; [lia |].
      intros q Hq. rewrite Hrows, Hfill.
      replace ((km_result s <=? q) && (q <? km_result s + N)) with false
        by (symmetry; apply andb_false_iff;
            destruct (Z.lt_ge_cases q (km_result s));
            [left; apply Z.leb_gt | right; apply Z.ltb_ge]; lia).
      apply Hout. lia. }
  destruct HP as [_ Hout]. apply Hout.
  destruct (Z.lt_ge_cases M 0).
  - replace (Z.to_nat M) with O by lia. lia.
  - rewrite Z2Nat.id by lia. exact Hp.
Qed.

Lemma qmm_t_simd_frame (res : buf T) (rp M N K : Z) (p : Z) :
  0 <= N -> ~ (rp <= p < rp + M * N) ->
  state_of (_qmm_t_simd simd_sum max_size bits group_size
              res rp x w scales biases M N K) p = res p.
Proof.
  intros HN Hp. unfold _qmm_t_simd, for_lt_o.
  set (Mn := Z.to_nat M).
  assert (Hp' : ~ (rp <= p < rp + Z.of_nat Mn * N))
    by (subst Mn; destruct (Z.lt_ge_cases M 0);
        [replace (Z.to_nat M) with O by lia; lia
        | rewrite Z2Nat.id by lia; exact Hp]).
  pose (Fr := fun (hi : Z) (r : buf T) =>
                forall q, ~ (rp <= q < hi) -> r q = res q).
  pose (P := fun (i : nat) (s : kernel_m T) =>
               km_result s = rp + Z.of_nat i * N
               /\ Fr (rp + Z.of_nat i * N) (km_res s)).
  pose (Q := fun (s : kernel_m T) =>
               Fr (rp + Z.of_nat Mn * N) (km_res s)).
  match goal with
  | |- state_of (match ?run with _ => _ end) _ = _ =>
      assert (H : match run with
                  | Done s => P Mn s
                  | Throw _ s => Q s
                  end)
  end.
  { apply for_from_o_inv_throw.
    - unfold P, Fr. cbn [km_result km_res]. split; [lia | trivial].
    - intros i s Hi [Hres Hout].
      pose (P2 := fun (j : nat) (row : qmm_t_row T) =>
                    qt_result row = km_result s + Z.of_nat j
                    /\ Fr (km_result s + Z.of_nat j) (qt_res row)).
      pose (Q2 := fun (row : qmm_t_row T) =>
                    Fr (rp + Z.of_nat Mn * N) (qt_res row)).
      match goal with
      | |- match (match ?rows with _ => _ end) with _ => _ end =>
          assert (H2 : match rows with
                       | Done row => P2 (Z.to_nat N) row
                       | Throw _ row => Q2 row
                       end)
      end.
      { apply for_from_o_inv_throw.
        - unfold P2, Fr. cbn [qt_result qt_res]. split; [lia |].
          intros q Hq. apply Hout. lia.
        - intros j row Hj [Hr Ho].
          destruct (for_lt_step_o K group_size _ _)
            as [[[d sl] bl] | e s'].
          + unfold P2, Fr. cbn [qt_result qt_res]. split; [lia |].
            intros q Hq. rewrite upd_other by lia. apply Ho. lia.
          + unfold Q2, Fr. intros q Hq. apply Ho. nia. }
      match type of H2 with
      | match ?rows with _ => _ end => destruct rows as [row | e row]
      end.
      + destruct H2 as [Hr Ho]. unfold P, Fr. cbn [km_result km_res].
        rewrite Z2Nat.id in Hr, Ho by lia.
        split; [lia |]. intros q Hq. apply Ho. lia.
      + exact H2. }
  match type of H with
  | match ?run with _ => _ end => destruct run as [s | e s]
  end; cbn [state_of].
  - destruct H as [_ Hout]. now apply Hout.
  - now apply H.
Qed.

(** X6.  No kernel writes outside the [M * N] elements of its output:
    every position of the buffer outside [rp, rp + M * N) holds after
    the call what it held before.  For [_qmm] this needs [N] to be a
    multiple of the group size; for [_qmm_t_simd] it holds of the
    buffer left by a [throw] as well. *)
Theorem kernels_write_only_output (res : buf T) (rp M N K : Z) (p : Z) :
  0 <= N -> ~ (rp <= p < rp + M * N) ->
  (valid_bits bits -> valid_group_size group_size ->
   N mod group_size = 0 ->
   _qmm bits group_size res rp x w scales biases M N K p = res p)
  /\ _qmm_t bits group_size res rp x w scales biases M N K p = res p
  /\ state_of (_qmm_t_simd simd_sum max_size bits group_size
                 res rp x w scales biases M N K) p = res p.
Proof.
  intros HN Hp. split; [| split].
  - intros Hb Hg Hdiv. now apply qmm_frame.
  - now apply qmm_t_frame.
  - now apply qmm_t_simd_frame.
Qed.
End KernelFrames.

(** * The SIMD decoder and the SIMD kernel *)

(** The lanes of the SIMD decoder. *)
Lemma extract_bits_simd_lanes (bits : Z) (w : buf Z) :
  bits = 4 \/ bits = 8 ->
  extract_bits_simd bits 8 w
  = Ok (map (code_at bits (bytes_of_words w)) [0; 1; 2; 3; 4; 5; 6; 7]).
Proof.
  intros [-> | ->]; unfold extract_bits_simd, code_at, decode_pack,
    bytes_of_words, shift; codec_eval.
  - f_equal. generalize (w 0). intros W.
    list_eq ltac:(bits_to_arith land_mask; divmod_lia).
  - f_equal. generalize (w 0), (w 1). intros W0 W1.
    list_eq ltac:(bits_to_arith land_mask; divmod_lia).
Qed.

(** X7.  On the two pairs it is written for, the SIMD decoder yields
    the eight codes the scalar kernels decode from the same words: lane
    [i] is the code of element [i] of the packed weights at [w]. *)
Theorem extract_bits_simd_codes (bits : Z) (w : buf Z) :
  bits = 4 \/ bits = 8 ->
  extract_bits_simd bits 8 w
  = Ok (map (code_at bits (bytes_of_words w)) [0; 1; 2; 3; 4; 5; 6; 7]).
Proof. exact (extract_bits_simd_lanes bits w). Qed.

Lemma extract_bits_simd_raises (bits S : Z) (w : buf Z) :
  ~ simd_supported bits S ->
  extract_bits_simd bits S w
  = Raise (runtime_error "Unsupported combination for simd qmm.").
Proof.
  intros Hn. unfold extract_bits_simd, simd_supported in *.
  destruct (Z.eqb_spec bits 4), (Z.eqb_spec bits 8), (Z.eqb_spec S 8);
    cbn [andb]; trivial; exfalso; apply Hn; auto.
Qed.

Lemma trip_count_pos (hi step : Z) :
  0 < hi -> 0 < step -> (0 < trip_count hi step)%nat.
Proof.
  intros Hh Hs. unfold trip_count.
  assert (1 <= (hi + step - 1) / step)
    by (apply Z.div_le_lower_bound; lia).
  lia.
Qed.

Section SimdUnsupported.
Context {T F : Type} {AF : Arith F} {CV : Conv T F}.
Variable simd_sum : list F -> F.
Variable max_size : Z.
Variables (bits group_size : Z).
Variables (x : buf T) (w : buf Z) (scales biases : buf T).

(** X8.  On any other pair of bit width and SIMD width the decoder
    raises its runtime error, and a call of [_qmm_t_simd] that has a
    chunk to decode throws it before anything is written: the output
    buffer at the throw is the one given. *)
Theorem simd_unsupported_throws (res : buf T) (rp M N K : Z) :
  ~ simd_supported bits max_size ->
  (forall wl, extract_bits_simd bits max_size wl
              = Raise (runtime_error "Unsupported combination for simd qmm."))
  /\ (0 < M -> 0 < N -> 0 < K -> 0 < group_size ->
      0 < Z.quot group_size (Z.quot 32 bits) ->
      0 < Z.quot max_size (Z.quot 32 bits) ->
      _qmm_t_simd simd_sum max_size bits group_size
        res rp x w scales biases M N K
      = Throw (runtime_error "Unsupported combination for simd qmm.") res).
Proof.
  intros Hn. split; [intros wl; now apply extract_bits_simd_raises |].
  intros HM HN HK Hg Hpig Hpps.
  unfold _qmm_t_simd, for_lt_o.
  rewrite (for_from_o_throw _
             (runtime_error "Unsupported combination for simd qmm."));
    [reflexivity | lia |].
  cbn [km_res km_result km_x].
  rewrite (for_from_o_throw _
             (runtime_error "Unsupported combination for simd qmm."));
    [reflexivity | lia |].
  cbn [qt_res qt_result qt_w_local qt_scales_local qt_biases_local].
  unfold for_lt_step_o.
  rewrite (for_from_o_throw _
             (runtime_error "Unsupported combination for simd qmm."));
    [reflexivity | now apply trip_count_pos |].
  rewrite (for_from_o_throw _
             (runtime_error "Unsupported combination for simd qmm."));
    [reflexivity | now apply trip_count_pos |].
  unfold qmm_t_simd_step.
  now rewrite extract_bits_simd_raises.
Qed.
End SimdUnsupported.

(** ** What the SIMD kernel computes *)

Lemma bytes_of_words_shift (w : buf Z) (wl i : Z) :
  bytes_of_words (shift w wl) i = bytes_of_words w (4 * wl + i).
Proof.
  unfold bytes_of_words, shift.
  replace ((4 * wl + i) / 4) with (wl + i / 4)
    by (Z.to_euclidean_division_equations; lia).
  replace ((4 * wl + i) mod 4) with (i mod 4)
    by (Z.to_euclidean_division_equations; lia).
  reflexivity.
Qed.

(** The code of element [l] of the weights at word [wl] is the code of
    element [wl * (32 / bits) + l] of the whole buffer. *)
Lemma code_at_words (bits : Z) (w : buf Z) (wl l : Z) :
  bits = 4 \/ bits = 8 ->
  code_at bits (bytes_of_words (shift w wl)) l
  = code_at bits (bytes_of_words w) (wl * Z.quot 32 bits + l).
Proof.
  intros [-> | ->]; unfold code_at, decode_pack;
    change (get_pack_factor 4 8) with 2;
    change (get_pack_factor 8 8) with 1;
    change (get_bytes_per_pack 4 8) with 1;
    change (get_bytes_per_pack 8 8) with 1;
    change (Z.quot 32 4) with 8; change (Z.quot 32 8) with 4;
    cbn [Z.eqb Pos.eqb orb]; rewrite !Z.mul_1_r; unfold shift at 1 3;
    rewrite bytes_of_words_shift.
  - replace ((wl * 8 + l) mod 2) with (l mod 2)
      by (Z.to_euclidean_division_equations; lia).
    replace (4 * wl + (l / 2 + 0)) with ((wl * 8 + l) / 2 + 0)
      by (Z.to_euclidean_division_equations; lia).
    reflexivity.
  - rewrite !Z.mod_1_r.
    replace (4 * wl + (l / 1 + 0)) with ((wl * 4 + l) / 1 + 0)
      by (rewrite !Z.div_1_r; lia).
    reflexivity.
Qed.

Section SimdComputes.
Context {T F : Type} {AF : Arith F} {CV : Conv T F}.
Variable simd_sum : list F -> F.
Variables (bits group_size : Z).
Hypothesis Hbits : bits = 4 \/ bits = 8.
Hypothesis Hgroup : valid_group_size group_size.
Variables (x : buf T) (w : buf Z) (scales biases : buf T).

Lemma simd_step_spec (scale bias : T) (pps : Z) (d : simd_dot F)
    (A : Z -> F) :
  sd_acc d = map A [0; 1; 2; 3; 4; 5; 6; 7] ->
  qmm_t_simd_step 8 bits x w scale bias pps d
  = Done
      (mk_simd_dot
         (map (fun l =>
                 fadd (A l)
                   (lane_term bits x (bytes_of_words w) scale bias
                      (sd_x_local d + l)
                      (sd_w_local d * Z.quot 32 bits + l)))
            [0; 1; 2; 3; 4; 5; 6; 7])
         (sd_x_local d + 8) (sd_w_local d + pps)).
Proof.
  intros Hacc. unfold qmm_t_simd_step.
  rewrite (extract_bits_simd_lanes bits _ Hbits), Hacc.
  unfold simd_load, lane_term.
  change (Z.to_nat 8) with 8%nat.
  cbn [map seq zip_with Z.of_nat Pos.of_succ_nat Pos.succ].
  rewrite !(code_at_words bits w _ _ Hbits).
  reflexivity.
Qed.

(** [C] chunks of eight elements with one scale and one bias. *)
Lemma simd_chunks_spec (scale bias : T) (C : nat) (pps : Z)
    (d : simd_dot F) (A : Z -> F) :
  sd_acc d = map A [0; 1; 2; 3; 4; 5; 6; 7] ->
  exists d',
    for_from_o C 0 pps
      (fun kw d => qmm_t_simd_step 8 bits x w scale bias pps d) d
    = Done d'
    /\ sd_acc d'
       = map (fun l =>
                sum_from (A l) C
                  (fun c =>
                     lane_term bits x (bytes_of_words w) scale bias
                       (sd_x_local d + 8 * c + l)
                       ((sd_w_local d + c * pps) * Z.quot 32 bits + l)))
           [0; 1; 2; 3; 4; 5; 6; 7]
    /\ sd_x_local d' = sd_x_local d + 8 * Z.of_nat C
    /\ sd_w_local d' = sd_w_local d + Z.of_nat C * pps.
Proof.
  intros Hacc.
  apply (for_from_o_inv
           (fun (t : nat) (d' : simd_dot F) =>
              sd_acc d'
              = map (fun l =>
                       sum_from (A l) t
                         (fun c =>
                            lane_term bits x (bytes_of_words w) scale bias
                              (sd_x_local d + 8 * c + l)
                              ((sd_w_local d + c * pps) * Z.quot 32 bits
                               + l)))
                  [0; 1; 2; 3; 4; 5; 6; 7]
              /\ sd_x_local d' = sd_x_local d + 8 * Z.of_nat t
              /\ sd_w_local d' = sd_w_local d + Z.of_nat t * pps)).
  - repeat split; try lia. exact Hacc.
  - intros t d' _ (Ha & Hx & Hw).
    rewrite (simd_step_spec scale bias pps d' _ Ha).
    eexists. split; [reflexivity |].
    cbn [sd_acc sd_x_local sd_w_local].
    repeat split; try lia.
    apply map_ext. intros l.
    rewrite sum_from_S, Hx, Hw. reflexivity.
Qed.

(** The chunks of a group: [group_size = 8 * C], and a chunk is
    [packs_per_simd] words of [32 / bits] codes. *)
Lemma simd_layout :
  let pf := Z.quot 32 bits in
  let pps := Z.quot 8 pf in
  let C := trip_count (Z.quot group_size pf) pps in
  pps * pf = 8 /\ 8 * Z.of_nat C = group_size /\ (0 < C)%nat.
Proof.
  destruct Hbits as [-> | ->], Hgroup as [-> | [-> | ->]];
    cbv zeta; repeat split; try reflexivity; vm_compute; lia.
Qed.

(** [G] groups of one row of the weights. *)
Lemma simd_groups_spec (G : nat) (step : Z) (d : simd_dot F) (sl bl : Z) :
  let pf := Z.quot 32 bits in
  let pps := Z.quot 8 pf in
  let pig := Z.quot group_size pf in
  sd_acc d = repeat (of_Z 0) 8 ->
  exists d',
    for_from_o G 0 step
      (fun k '(d, sl, bl) =>
         let scale := scales sl in
         let bias := biases bl in
         match
           for_lt_step_o pig pps
             (fun kw d => qmm_t_simd_step 8 bits x w scale bias pps d) d
         with
         | Done d => Done (d, sl + 1, bl + 1)
         | Throw e d => Throw e (d, sl, bl)
         end)
      (d, sl, bl)
    = Done (d', sl + Z.of_nat G, bl + Z.of_nat G)
    /\ sd_acc d'
       = map (fun l =>
                sum_from (of_Z 0) (Z.to_nat (Z.of_nat G * group_size / 8))
                  (fun c =>
                     lane_term bits x (bytes_of_words w)
                       (scales (sl + (8 * c + l) / group_size))
                       (biases (bl + (8 * c + l) / group_size))
                       (sd_x_local d + 8 * c + l)
                       (sd_w_local d * pf + 8 * c + l)))
           [0; 1; 2; 3; 4; 5; 6; 7]
    /\ sd_x_local d' = sd_x_local d + Z.of_nat G * group_size
    /\ sd_w_local d' * pf = sd_w_local d * pf + Z.of_nat G * group_size.
Proof.
  intros pf pps pig Hacc.
  destruct simd_layout as (Hpps & HC & HCpos).
  fold pf pps pig in Hpps, HC, HCpos.
  set (C := trip_count pig pps) in *.
  assert (Hgpos : 0 < group_size) by lia.
  set (term := fun l c =>
                 lane_term bits x (bytes_of_words w)
                   (scales (sl + (8 * c + l) / group_size))
                   (biases (bl + (8 * c + l) / group_size))
                   (sd_x_local d + 8 * c + l)
                   (sd_w_local d * pf + 8 * c + l)).
  pose (P := fun (t : nat) (s : simd_dot F * Z * Z) =>
               sd_acc (fst (fst s))
               = map (fun l => sum_from (of_Z 0) (t * C) (term l))
                   [0; 1; 2; 3; 4; 5; 6; 7]
               /\ sd_x_local (fst (fst s))
                  = sd_x_local d + Z.of_nat t * group_size
               /\ sd_w_local (fst (fst s)) * pf
                  = sd_w_local d * pf + Z.of_nat t * group_size
               /\ snd (fst s) = sl + Z.of_nat t
               /\ snd s = bl + Z.of_nat t).
  destruct (for_from_o_inv P
              (fun k '(d, sl, bl) =>
                 let scale := scales sl in
                 let bias := biases bl in
                 match
                   for_lt_step_o pig pps
                     (fun kw d =>
                        qmm_t_simd_step 8 bits x w scale bias pps d) d
                 with
                 | Done d => Done (d, sl + 1, bl + 1)
                 | Throw e d => Throw e (d, sl, bl)
                 end)
              G 0 step (d, sl, bl)) as ([[d' sl'] bl'] & Hrun & HP).
  - unfold P. cbn [fst snd Nat.mul]. repeat split; try lia. exact Hacc.
  - intros t [[d1 sl1] bl1] _ (Ha & Hx & Hw & Hsl & Hbl).
    cbn [fst snd] in *. cbv zeta. unfold for_lt_step_o. fold C.
    destruct (simd_chunks_spec (scales sl1) (biases bl1) C pps d1 _ Ha)
      as (d2 & -> & Ha2 & Hx2 & Hw2).
    eexists. split; [reflexivity |].
    unfold P. cbn [fst snd]. repeat split; try lia; [| nia].
    rewrite Ha2. apply map_ext_in. intros l Hl.
    assert (Hl8 : 0 <= l < 8) by (cbn in Hl; lia).
    replace (S t * C)%nat with (t * C + C)%nat by lia.
    symmetry. rewrite <- sum_from_block with (V' := fun c =>
      lane_term bits x (bytes_of_words w) (scales sl1) (biases bl1)
        (sd_x_local d1 + 8 * c + l)
        ((sd_w_local d1 + c * pps) * Z.quot 32 bits + l)); trivial.
    intros c Hc. unfold term. fold pf.
    rewrite Hsl, Hbl, Hx.
    replace ((8 * (Z.of_nat (t * C) + c) + l) / group_size)
      with (Z.of_nat t).
    2:{ apply Z.div_unique with (8 * c + l); nia. }
    f_equal; nia.
  - unfold P in HP. cbn [fst snd] in HP.
    destruct HP as (Ha & Hx & Hw & Hsl & Hbl).
    subst sl' bl'. exists d'. split; [exact Hrun |].
    repeat split; trivial.
    rewrite Ha.
    replace (Z.to_nat (Z.of_nat G * group_size / 8)) with (G * C)%nat.
    + reflexivity.
    + rewrite <- HC.
      replace (Z.of_nat G * (8 * Z.of_nat C))
        with (Z.of_nat (G * C) * 8) by nia.
      rewrite Z.div_mul by lia. lia.
Qed.

(** The output of [_qmm_t_simd] on a supported pair. *)
Lemma qmm_t_simd_spec (res : buf T) (rp M N K : Z) :
  0 <= K -> K mod group_size = 0 -> 0 <= N ->
  exists res',
    _qmm_t_simd simd_sum 8 bits group_size res rp x w scales biases M N K
    = Done res'
    /\ forall m n, 0 <= m < M -> 0 <= n < N ->
         res' (rp + m * N + n)
         = of_float
             (simd_sum
                (simd_lanes bits group_size x (bytes_of_words w)
                   scales biases K m n)).
Proof.
  intros HK Hdiv HN.
  assert (Hgpos : 0 < group_size)
    by (unfold valid_group_size in Hgroup; lia).
  assert (HKG : Z.of_nat (trip_count K group_size) * group_size = K)
    by (apply trip_count_exact; lia).
  set (G := trip_count K group_size) in *.
  set (pf := Z.quot 32 bits) in *.
  set (entry := fun m' n' =>
                  of_float
                    (simd_sum
                       (simd_lanes bits group_size x (bytes_of_words w)
                          scales biases K m' n'))).
  unfold _qmm_t_simd, for_lt_o, for_lt_step_o. fold G pf.
  pose (P := fun (i : nat) (s : kernel_m T) =>
               km_result s = rp + Z.of_nat i * N
               /\ km_x s = Z.of_nat i * K
               /\ forall m' n', 0 <= m' < Z.of_nat i -> 0 <= n' < N ->
                    km_res s (rp + m' * N + n') = entry m' n').
  match goal with
  | |- exists res', match ?run with _ => _ end = _ /\ _ =>
      assert (H : exists s, run = Done s /\ P (Z.to_nat M) s)
  end.
  { apply for_from_o_inv.
    - unfold P. cbn [km_result km_x km_res]. repeat split; try lia.
    - intros i s _ (Hres & Hx & Hout).
      pose (R := fun (j : nat) (row : qmm_t_row T) =>
                   qt_result row = km_result s + Z.of_nat j
                   /\ qt_w_local row * pf = Z.of_nat j * K
                   /\ qt_scales_local row = Z.of_nat j * Z.of_nat G
                   /\ qt_biases_local row = Z.of_nat j * Z.of_nat G
                   /\ forall p,
                        qt_res row p
                        = if (km_result s <=? p)
                             && (p <? km_result s + Z.of_nat j)
                          then entry (Z.of_nat i) (p - km_result s)
                          else km_res s p).
      match goal with
      | |- exists s', match ?rows with _ => _ end = _ /\ _ =>
          assert (HR : exists row, rows = Done row /\ R (Z.to_nat N) row)
      end.
      { apply for_from_o_inv.
        - unfold R.
          cbn [qt_result qt_w_local qt_scales_local qt_biases_local qt_res].
          repeat split; try lia.
          intros p. cbn [Z.of_nat].
          destruct (Z.leb_spec (km_result s) p),
            (Z.ltb_spec p (km_result s + 0)); cbn [andb]; trivial; lia.
        - intros j row _ (Hr & Hw & Hs & Hb & Hrow).
          change (Z.to_nat 8) with 8%nat.
          destruct (simd_groups_spec G group_size
                      (mk_simd_dot (repeat (of_Z 0) 8) (km_x s)
                         (qt_w_local row))
                      (qt_scales_local row) (qt_biases_local row)
                      eq_refl) as (d' & Hrun & Ha & _ & Hwl).
          cbv zeta in Hrun. unfold for_lt_step_o in Hrun.
          fold pf in Hrun, Ha, Hwl.
          cbn [sd_x_local sd_w_local] in Ha, Hwl.
          rewrite Hrun.
          eexists. split; [reflexivity |].
          unfold R.
          cbn [qt_result qt_w_local qt_scales_local qt_biases_local qt_res].
          repeat split; try lia.
          intros p. unfold upd. rewrite Hrow.
          destruct (Z.eqb_spec p (qt_result row)) as [-> | Hne].
          + replace ((km_result s <=? qt_result row)
                     && (qt_result row <? km_result s + Z.of_nat (S j)))
              with true
              by (symmetry; apply andb_true_iff; split;
                  [apply Z.leb_le | apply Z.ltb_lt]; lia).
            unfold entry, simd_lanes. rewrite Ha. do 2 f_equal.
            apply map_ext_in. intros l Hl.
            assert (Hl8 : 0 <= l < 8) by (cbn in Hl; lia).
            unfold simd_lane. rewrite HKG.
            apply sum_from_ext. intros c Hc. cbv zeta.
            rewrite Hs, Hb, Hx, Hw.
            replace (qt_result row - km_result s) with (Z.of_nat j) by lia.
            replace ((Z.of_nat j * K + 8 * c + l) / group_size)
              with (Z.of_nat j * Z.of_nat G + (8 * c + l) / group_size).
            2:{ rewrite <- HKG.
                replace (Z.of_nat j * (Z.of_nat G * group_size) + 8 * c + l)
                  with (8 * c + l + Z.of_nat j * Z.of_nat G * group_size)
                  by lia.
                rewrite Z.div_add by lia. lia. }
            reflexivity.
          + destruct (Z.leb_spec (km_result s) p),
              (Z.ltb_spec p (km_result s + Z.of_nat j)),
              (Z.ltb_spec p (km_result s + Z.of_nat (S j)));
              cbn [andb]; trivial; lia. }
      destruct HR as (row & -> & Hr & _ & _ & _ & Hrow).
      eexists. split; [reflexivity |].
      unfold P. cbn [km_result km_x km_res].
      repeat split; try lia.
      intros m' n' Hm' Hn'. rewrite Hrow.
      destruct (Z.eq_dec m' (Z.of_nat i)) as [-> | Hne].
      + replace ((km_result s <=? rp + Z.of_nat i * N + n')
                 && (rp + Z.of_nat i * N + n'
                     <? km_result s + Z.of_nat (Z.to_nat N)))
          with true
          by (symmetry; apply andb_true_iff; split;
              [apply Z.leb_le | apply Z.ltb_lt]; lia).
        f_equal. lia.
      + replace ((km_result s <=? rp + m' * N + n')
                 && (rp + m' * N + n'
                     <? km_result s + Z.of_nat (Z.to_nat N)))
          with false.
        * apply Hout; lia.
        * symmetry. apply andb_false_iff. left. apply Z.leb_gt. nia. }
  destruct H as (s & -> & _ & _ & Hout).
  exists (km_res s). split; [reflexivity |].
  intros m n Hm Hn. apply Hout; lia.
Qed.

(** X9.  On a supported pair (a bit width of 4 or 8 with a SIMD width
    of 8) and with [K] a multiple of the group size, [_qmm_t_simd]
    returns, and output element [(m, n)] is the conversion to [T] of
    the horizontal sum of eight lanes; lane [l] has accumulated, from
    zero and in increasing order, the products
    [x[m, k] * (code(n, k) * scale + bias)] of the elements
    [k = l, 8 + l, 16 + l, ...], computed in [float]. *)
Theorem qmm_t_simd_computes (res : buf T) (rp M N K : Z) :
  0 <= K -> K mod group_size = 0 -> 0 <= N ->
  exists res',
    _qmm_t_simd simd_sum 8 bits group_size res rp x w scales biases M N K
    = Done res'
    /\ forall m n, 0 <= m < M -> 0 <= n < N ->
         res' (rp + m * N + n)
         = of_float
             (simd_sum
                (simd_lanes bits group_size x (bytes_of_words w)
                   scales biases K m n)).
Proof. exact (qmm_t_simd_spec res rp M N K). Qed.
End SimdComputes.

(** * The output of the quantizer *)

(** Two loops whose bodies agree on the indices they visit. *)
Lemma for_from_ext_range {St : Type} (body1 body2 : Z -> St -> St)
    (n : nat) (i0 step : Z) (s0 : St) :
  (forall k s, (k < n)%nat ->
     body1 (i0 + Z.of_nat k * step) s = body2 (i0 + Z.of_nat k * step) s) ->
  for_from n i0 step body1 s0 = for_from n i0 step body2 s0.
Proof.
  intros Hb.
  apply (for_from_rel (fun _ a b => a = b)); trivial.
  intros k a b Hk ->. now apply Hb.
Qed.

(** The layout of a group in [out]. *)
Lemma quantizer_layout (bits group_size : Z) :
  valid_bits bits -> valid_group_size group_size ->
  let epi := get_pack_factor bits 32 in
  let bpp := get_bytes_per_pack bits 8 in
  let upg := Z.quot group_size epi in
  0 < epi /\ 0 < unit_stride bits /\ 0 < upg
  /\ group_size = upg * epi
  /\ Z.quot (group_size * bpp) epi = unit_stride bits * upg
  /\ Z.quot (unit_stride bits * upg) bpp = upg
  /\ epi * bits <= 64.
Proof.
  intros [-> | [-> | [-> | [-> | [-> | ->]]]]] [-> | [-> | ->]];
    cbv zeta; repeat split; vm_compute; congruence.
Qed.

(** A store of [store_el] writes, at its unit, what it writes at the
    start of an array of zeros. *)
Lemma store_el_at (bits : Z) (out : buf Z) (out_idx j E p : Z) :
  valid_bits bits ->
  let base := out_idx + unit_stride bits * j in
  store_el bits (get_bytes_per_pack bits 8) (is_power_of_2 bits)
    (castU_of bits) out out_idx j E p
  = if (base <=? p) && (p <? base + unit_stride bits)
    then unit_store bits E (p - base)
    else out p.
Proof.
  intros Hb. cbv zeta. unfold unit_store, store_el.
  destruct Hb as [-> | [-> | [-> | [-> | [-> | ->]]]]];
    eval_layout; eval_closed; cbn iota; unfold upd.
  all: repeat match goal with
       | |- context [Z.eqb ?a ?b] => destruct (Z.eqb_spec a b)
       | |- context [Z.leb ?a ?b] => destruct (Z.leb_spec a b)
       | |- context [Z.ltb ?a ?b] => destruct (Z.ltb_spec a b)
       end; cbn [andb]; trivial; try lia.
Qed.

Section QuantizeOut.
Context {T F : Type} {AF : Arith F} {CV : Conv T F}.
Variables (bits group_size : Z).
Hypothesis Hbits : valid_bits bits.
Hypothesis Hgroup : valid_group_size group_size.
Variables (w : buf T) (out : buf Z) (scales biases : buf T).

Lemma pack_el_ext (epi : Z) (c1 c2 : Z -> Z) :
  (forall k, 0 <= k < epi -> c1 k = c2 k) ->
  pack_el bits epi c1 = pack_el bits epi c2.
Proof.
  intros H. unfold pack_el, for_lt. apply for_from_ext_range.
  intros k s Hk. rewrite H by lia. reflexivity.
Qed.

(** The array [out] after [quantize]: unit [u] of the output holds the
    packed codes of the elements [u * el_per_int ...], and the elements
    of [out] past the last unit are as they were. *)
Lemma quantize_out_spec (w_size : Z) (p : Z) :
  0 <= w_size ->
  q_out (quantize (castU_of bits) w out scales biases bits group_size w_size)
    p
  = if (0 <=? p)
       && (p <? unit_stride bits
                * (Z.quot w_size group_size
                   * Z.quot group_size (get_pack_factor bits 32)))
    then unit_store bits
           (unit_value bits group_size w (p / unit_stride bits))
           (p mod unit_stride bits)
    else out p.
Proof.
  intros Hw.
  destruct (quantizer_layout bits group_size Hbits Hgroup)
    as (Hepi & Hst & Hupg & Hgs & Hipg & Hcnt & _).
  cbv zeta in Hepi, Hst, Hupg, Hgs, Hipg, Hcnt.
  unfold quantize. cbv zeta. rewrite Hipg, Hcnt.
  set (epi := get_pack_factor bits 32) in *.
  set (bpp := get_bytes_per_pack bits 8) in *.
  set (upg := Z.quot group_size epi) in *.
  set (st := unit_stride bits) in *.
  assert (Hgpos : 0 < group_size) by nia.
  assert (Hng : 0 <= Z.quot w_size group_size)
    by (apply Z.quot_pos; lia).
  set (ng := Z.quot w_size group_size) in *.
  set (content := fun p =>
                    unit_store bits (unit_value bits group_size w (p / st))
                      (p mod st)).
  pose (P := fun (i : nat) (q : quantized T) =>
               forall p, q_out q p
                         = if (0 <=? p) && (p <? st * (Z.of_nat i * upg))
                           then content p else out p).
  unfold for_lt at 1.
  match goal with
  | |- q_out ?q _ = _ => assert (HP : P (Z.to_nat ng) q)
  end.
  { apply for_from_inv.
    - intros q. cbn [q_out Z.of_nat].
      destruct (Z.leb_spec 0 q), (Z.ltb_spec q (st * (0 * upg)));
        cbn [andb]; trivial; lia.
    - intros i q _ HPi.
      replace (0 + Z.of_nat i * 1) with (Z.of_nat i) by lia.
      destruct (group_min_max w (Z.of_nat i * group_size) group_size)
        as [w_min w_max] eqn:Hmm.
      destruct (group_scale_bias bits w_min w_max) as [scale bias] eqn:Hsb.
      unfold P. cbn [q_out].
      pose (Q := fun (j : nat) (o : buf Z) =>
                   forall p, o p
                             = if (0 <=? p)
                                  && (p <? st * (Z.of_nat i * upg
                                                 + Z.of_nat j))
                               then content p else out p).
      unfold for_lt.
      match goal with
      | |- forall p, ?o p = _ => assert (HQ : Q (Z.to_nat upg) o)
      end.
      { apply for_from_inv.
        - intros p'. rewrite HPi. cbn [Z.of_nat].
          rewrite Z.add_0_r. reflexivity.
        - intros j o Hj HQj p'.
          replace (0 + Z.of_nat j * 1) with (Z.of_nat j) by lia.
          fold bpp. rewrite store_el_at by exact Hbits. cbv zeta. fold st.
          rewrite HQj.
          set (u := Z.of_nat i * upg + Z.of_nat j).
          replace (Z.of_nat i * (st * upg) + st * Z.of_nat j)
            with (st * u) by (subst u; lia).
          replace (st * (Z.of_nat i * upg + Z.of_nat (S j)))
            with (st * u + st) by (subst u; lia).
          destruct (Z.leb_spec (st * u) p'), (Z.ltb_spec p' (st * u + st)),
            (Z.leb_spec 0 p'), (Z.ltb_spec p' (st * u));
            cbn [andb]; trivial; try lia.
          unfold content.
          assert (Hdiv : p' / st = u)
            by (symmetry; apply Z.div_unique with (p' - st * u); lia).
          assert (Hmod : p' mod st = p' - st * u)
            by (symmetry; apply Z.mod_unique with u; lia).
          rewrite Hdiv, Hmod. f_equal.
          unfold unit_value. fold epi. apply pack_el_ext.
          intros k Hk. unfold element_code, group_params.
          assert (Hj' : 0 <= Z.of_nat j < upg) by lia.
          replace ((u * epi + k) / group_size) with (Z.of_nat i).
          2:{ apply Z.div_unique with (Z.of_nat j * epi + k);
              subst u; nia. }
          rewrite Hmm, Hsb. f_equal. f_equal. subst u. nia. }
      intros p'. rewrite (HQ p'). rewrite Z2Nat.id by lia.
      replace (st * (Z.of_nat (S i) * upg))
        with (st * (Z.of_nat i * upg + upg)) by lia.
      reflexivity. }
  rewrite (HP p). rewrite Z2Nat.id by lia. reflexivity.
Qed.
End QuantizeOut.

(** ** Decoding the output of the quantizer *)

Lemma nth_flat_map_uniform {A : Type} (f : nat -> list A) (n : nat) (d : A)
    (m s a r : nat) :
  (forall i, List.length (f i) = n) -> (r < n)%nat -> (a < m)%nat ->
  nth (a * n + r) (flat_map f (seq s m)) d = nth r (f (s + a)%nat) d.
Proof.
  intros Hlen Hr. revert s a.
  induction m as [| m IH]; intros s a Ha; [lia |].
  cbn [seq flat_map]. destruct a as [| a].
  - cbn [Nat.mul Nat.add]. rewrite app_nth1 by (rewrite Hlen; exact Hr).
    now rewrite Nat.add_0_r.
  - rewrite app_nth2 by (rewrite Hlen; lia).
    rewrite Hlen.
    replace (S a * n + r - n)%nat with (a * n + r)%nat by lia.
    rewrite IH by lia. f_equal. f_equal. lia.
Qed.

(** A pack is decoded from its [bytes_per_pack] bytes alone. *)
Lemma decode_pack_ext (bits : Z) (w1 w2 : buf Z) :
  valid_bits bits ->
  (forall b, 0 <= b < get_bytes_per_pack bits 8 -> w1 b = w2 b) ->
  decode_pack bits w1 = decode_pack bits w2.
Proof.
  intros [-> | [-> | [-> | [-> | [-> | ->]]]]] H;
    unfold decode_pack, extract_bits_int; cbn [Z.eqb Pos.eqb orb];
    change (get_bytes_per_pack 2 8) with 1 in H;
    change (get_bytes_per_pack 3 8) with 3 in H;
    change (get_bytes_per_pack 4 8) with 1 in H;
    change (get_bytes_per_pack 5 8) with 5 in H;
    change (get_bytes_per_pack 6 8) with 3 in H;
    change (get_bytes_per_pack 8 8) with 1 in H;
    rewrite ?(H 0), ?(H 1), ?(H 2), ?(H 3), ?(H 4) by lia; reflexivity.
Qed.

(** The bytes a storage unit of the quantizer takes. *)
Lemma unit_bytes_layout (bits : Z) :
  valid_bits bits ->
  let epi := get_pack_factor bits 32 in
  let pf := get_pack_factor bits 8 in
  let bpp := get_bytes_per_pack bits 8 in
  let ub := if is_power_of_2 bits then 4 else bpp in
  0 < pf /\ 0 < bpp /\ 0 < Z.quot epi pf
  /\ epi = Z.quot epi pf * pf /\ ub = Z.quot epi pf * bpp.
Proof.
  intros [-> | [-> | [-> | [-> | [-> | ->]]]]]; cbv zeta;
    repeat split; reflexivity.
Qed.

(** The code of element [e] is element [e mod el_per_int] of the
    storage unit [e / el_per_int]. *)
Lemma code_at_unit (bits : Z) (wb : buf Z) (e : Z) :
  valid_bits bits ->
  let epi := get_pack_factor bits 32 in
  let ub := if is_power_of_2 bits then 4
            else get_bytes_per_pack bits 8 in
  code_at bits wb e
  = nth (Z.to_nat (e mod epi))
        (decode_unit bits (shift wb (e / epi * ub))) 0.
Proof.
  intros Hb epi ub.
  destruct (unit_bytes_layout bits Hb) as (Hpf & Hbpp & Hm & Hepi & Hub).
  destruct (pack_layout bits Hb) as (_ & _ & Hlen).
  cbv zeta in Hpf, Hbpp, Hm, Hepi, Hub. fold epi ub in Hm, Hepi, Hub.
  unfold decode_unit, code_at. cbv zeta. fold epi.
  set (pf := get_pack_factor bits 8) in *.
  set (bpp := get_bytes_per_pack bits 8) in *.
  set (m := Z.quot epi pf) in *.
  assert (Hr : 0 <= e mod epi < epi) by (apply Z.mod_pos_bound; lia).
  set (a := (e mod epi) / pf).
  assert (Ha : 0 <= a < m)
    by (subst a; split;
        [apply Z.div_pos; lia | apply Z.div_lt_upper_bound; lia]).
  assert (Hdvd : (pf | epi)) by (exists m; exact Hepi).
  assert (Hsplit : e mod epi = a * pf + e mod pf).
  { subst a. rewrite <- (Z.mod_mod_divide e epi pf Hdvd).
    pose proof (Z.div_mod (e mod epi) pf ltac:(lia)). lia. }
  assert (Hrr : 0 <= e mod pf < pf) by (apply Z.mod_pos_bound; lia).
  replace (Z.to_nat (e mod epi))
    with (Z.to_nat a * Z.to_nat pf + Z.to_nat (e mod pf))%nat
    by (rewrite Hsplit; nia).
  rewrite (nth_flat_map_uniform _ (Z.to_nat pf)); try lia.
  2:{ intros i. apply Hlen. }
  cbn [Nat.add]. rewrite Z2Nat.id by lia.
  f_equal. apply decode_pack_ext; trivial.
  intros b Hbb. unfold shift. f_equal.
  assert (Hq : e / pf = e / epi * m + a).
  { subst a. rewrite (Z.div_mod e epi) at 1 by lia.
    replace (epi * (e / epi) + e mod epi)
      with (e / epi * m * pf + e mod epi) by nia.
    now rewrite Z.div_add_l by lia. }
  rewrite Hq, Hub. fold bpp. lia.
Qed.

(** A storage unit is decoded from its own bytes alone. *)
Lemma decode_unit_ext (bits : Z) (w1 w2 : buf Z) :
  valid_bits bits ->
  (forall b, 0 <= b < (if is_power_of_2 bits then 4
                       else get_bytes_per_pack bits 8) ->
             w1 b = w2 b) ->
  decode_unit bits w1 = decode_unit bits w2.
Proof.
  intros Hb H. unfold decode_unit.
  destruct (unit_bytes_layout bits Hb) as (Hpf & Hbpp & Hm & _ & Hub).
  cbv zeta in Hpf, Hbpp, Hm, Hub. rewrite Hub in H.
  set (m := Z.quot (get_pack_factor bits 32) (get_pack_factor bits 8)) in *.
  set (bpp := get_bytes_per_pack bits 8) in *.
  assert (Hin : forall i, In i (seq 0 (Z.to_nat m)) ->
                  decode_pack bits (shift w1 (Z.of_nat i * bpp))
                  = decode_pack bits (shift w2 (Z.of_nat i * bpp))).
  { intros i Hi. apply in_seq in Hi.
    apply decode_pack_ext; trivial.
    intros b Hbb. unfold shift. apply H. fold bpp in Hbb. nia. }
  induction (seq 0 (Z.to_nat m)) as [| i l IH]; [reflexivity |].
  cbn [flat_map]. rewrite Hin by (left; reflexivity).
  f_equal. apply IH. intros j Hj. apply Hin. now right.
Qed.

Lemma nth_map_seq {A : Type} (f : nat -> A) (n k : nat) (d : A) :
  (k < n)%nat -> nth k (map f (seq 0 n)) d = f k.
Proof.
  intros Hk. rewrite (nth_indep _ d (f O))
    by (rewrite length_map, length_seq; exact Hk).
  rewrite (map_nth f), seq_nth by exact Hk. reflexivity.
Qed.

Section QuantizeDecodes.
Context {T F : Type} {AF : Arith F} {CV : Conv T F}.
Variables (bits group_size : Z).
Hypothesis Hbits : valid_bits bits.
Hypothesis Hgroup : valid_group_size group_size.
Variables (w : buf T) (out : buf Z) (scales biases : buf T).

(** The value of a storage unit whose codes are in range is their
    positional value. *)
Lemma unit_value_codes (u : Z) :
  let epi := get_pack_factor bits 32 in
  let codes :=
    map (fun k => element_code bits group_size w (u * epi + Z.of_nat k))
      (seq 0 (Z.to_nat epi)) in
  (forall k, 0 <= k < epi ->
     in_range bits (element_code bits group_size w (u * epi + k))) ->
  unit_value bits group_size w u = pack_value bits codes
  /\ List.length codes = Z.to_nat epi
  /\ Forall (in_range bits) codes.
Proof.
  intros epi codes Hr.
  destruct (quantizer_layout bits group_size Hbits Hgroup)
    as (Hepi & _ & _ & _ & _ & _ & H64).
  cbv zeta in Hepi, H64. fold epi in Hepi, H64.
  assert (Hlen : List.length codes = Z.to_nat epi)
    by (subst codes; now rewrite length_map, length_seq).
  assert (Hall : Forall (in_range bits) codes).
  { subst codes. apply Forall_forall. intros c Hc.
    apply in_map_iff in Hc. destruct Hc as (k & <- & Hk).
    apply in_seq in Hk. apply Hr. lia. }
  repeat split; trivial.
  assert (Hb0 : 0 <= bits) by (unfold valid_bits in Hbits; lia).
  rewrite <- (pack_el_value bits codes Hb0 Hall) by (rewrite Hlen; lia).
  rewrite Hlen, Z2Nat.id by lia.
  unfold unit_value. fold epi. apply pack_el_ext.
  intros k Hk. subst codes.
  rewrite nth_map_seq by lia. rewrite Z2Nat.id by lia.
  reflexivity.
Qed.

(** Decoding the output of [quantize] gives back the codes. *)
Lemma quantize_decodes (w_size : Z) :
  0 <= w_size ->
  let q := quantize (castU_of bits) w out scales biases
             bits group_size w_size in
  let n := Z.quot w_size group_size * group_size in
  (forall e, 0 <= e < n ->
     in_range bits (element_code bits group_size w e)) ->
  forall e, 0 <= e < n ->
    code_at bits (as_bytes bits (q_out q)) e
    = element_code bits group_size w e.
Proof.
  intros Hw q n Hr e He.
  destruct (quantizer_layout bits group_size Hbits Hgroup)
    as (Hepi & Hst & Hupg & Hgs & _ & _ & _).
  cbv zeta in Hepi, Hst, Hupg, Hgs.
  set (epi := get_pack_factor bits 32) in *.
  set (upg := Z.quot group_size epi) in *.
  set (ng := Z.quot w_size group_size) in *.
  set (u := e / epi).
  assert (Hu : 0 <= u < ng * upg).
  { subst u. split; [apply Z.div_pos; lia |].
    apply Z.div_lt_upper_bound; [lia |]. subst n. nia. }
  assert (Hem : 0 <= e mod epi < epi) by (apply Z.mod_pos_bound; lia).
  assert (Hue : u * epi + e mod epi = e)
    by (subst u; pose proof (Z.div_mod e epi ltac:(lia)); lia).
  destruct (unit_value_codes u) as (Hval & Hlen & Hall).
  { intros k Hk. apply Hr. subst n. nia. }
  fold epi in Hval, Hlen, Hall.
  set (codes := map _ (seq 0 (Z.to_nat epi))) in *.
  rewrite (code_at_unit bits _ e Hbits). cbv zeta. fold epi. fold u.
  rewrite (decode_unit_ext bits _
             (as_bytes bits
                (unit_store bits (unit_value bits group_size w u)))
             Hbits).
  - unfold unit_store. rewrite decode_store; trivial.
    + fold epi. rewrite Hval, <- Hlen.
      rewrite digits_pack_value by (trivial; unfold valid_bits in Hbits; lia).
      subst codes.
      rewrite nth_map_seq by lia. rewrite Z2Nat.id by lia.
      now rewrite Hue.
    + fold epi. rewrite Hval.
      pose proof (pack_value_range bits codes
                    ltac:(unfold valid_bits in Hbits; lia) Hall) as Hpv.
      rewrite Hlen, Z2Nat.id in Hpv by lia. exact Hpv.
  - intros b Hb. unfold shift, as_bytes.
    subst q.
    destruct (is_power_of_2 bits) eqn:Hp2.
    + unfold bytes_of_words.
      replace ((u * 4 + b) / 4) with u
        by (Z.to_euclidean_division_equations; lia).
      replace ((u * 4 + b) mod 4) with b
        by (Z.to_euclidean_division_equations; lia).
      rewrite (Z.div_small b 4), (Z.mod_small b 4) by lia.
      rewrite quantize_out_spec by assumption.
      unfold unit_stride. rewrite Hp2. fold epi upg ng.
      rewrite Z.div_1_r, Z.mod_1_r.
      replace ((0 <=? u) && (u <? 1 * (ng * upg))) with true
        by (symmetry; apply andb_true_iff; split;
            [apply Z.leb_le | apply Z.ltb_lt]; lia).
      reflexivity.
    + rewrite quantize_out_spec by assumption.
      unfold unit_stride in *. rewrite Hp2 in *. fold epi upg ng.
      set (bpp := get_bytes_per_pack bits 8) in *.
      replace ((u * bpp + b) / bpp) with u
        by (apply Z.div_unique with b; lia).
      replace ((u * bpp + b) mod bpp) with b
        by (apply Z.mod_unique with u; lia).
      replace ((0 <=? u * bpp + b) && (u * bpp + b <? bpp * (ng * upg)))
        with true
        by (symmetry; apply andb_true_iff; split;
            [apply Z.leb_le | apply Z.ltb_lt]; nia).
      reflexivity.
Qed.

(** X10.  The packed weights [quantize] writes are the ones the matmul
    kernels read: whenever the codes are within their [bits] bits,
    decoding element [e] of the output, seen through
    [(const uint8_t* )], gives the code [quantize] computed for [w[e]],
    for every element of the [w_size / group_size] whole groups. *)
Theorem quantize_output_decodes (w_size : Z) :
  0 <= w_size ->
  let q := quantize (castU_of bits) w out scales biases
             bits group_size w_size in
  let n := Z.quot w_size group_size * group_size in
  (forall e, 0 <= e < n ->
     in_range bits (element_code bits group_size w e)) ->
  forall e, 0 <= e < n ->
    code_at bits (as_bytes bits (q_out q)) e
    = element_code bits group_size w e.
Proof. exact (quantize_decodes w_size). Qed.
End QuantizeDecodes.

(** ** What the quantizer leaves alone *)

Section QuantizeFrame.
Context {T F : Type} {AF : Arith F} {CV : Conv T F}.
Variables (bits group_size : Z).
Hypothesis Hbits : valid_bits bits.
Hypothesis Hgroup : valid_group_size group_size.

(** X11.  [quantize] writes the scales and biases of the
    [n_groups = w_size / group_size] whole groups and the
    [n_groups * int_per_group] elements of [out] that hold their codes,
    and nothing else: every other element of the three arrays is as it
    was.  An input shorter than one group therefore leaves the three
    arrays untouched. *)
Theorem quantize_writes_whole_groups (w : buf T) (out : buf Z)
    (scales biases : buf T) (w_size : Z) :
  0 <= w_size ->
  let q := quantize (castU_of bits) w out scales biases
             bits group_size w_size in
  let n_groups := Z.quot w_size group_size in
  let int_per_group :=
    Z.quot (group_size * get_bytes_per_pack bits 8)
      (get_pack_factor bits 32) in
  (forall p, ~ (0 <= p < n_groups * int_per_group) -> q_out q p = out p)
  /\ (forall g, ~ (0 <= g < n_groups) ->
        q_scales q g = scales g /\ q_biases q g = biases g)
  /\ (w_size < group_size ->
      forall p, q_out q p = out p
                /\ q_scales q p = scales p /\ q_biases q p = biases p).
Proof.
  intros Hw q n_groups int_per_group.
  destruct (quantizer_layout bits group_size Hbits Hgroup)
    as (Hepi & Hst & Hupg & Hgs & Hipg & _ & _).
  cbv zeta in Hepi, Hst, Hupg, Hgs, Hipg.
  assert (Hgpos : 0 < group_size) by nia.
  assert (Hng : 0 <= n_groups) by (apply Z.quot_pos; lia).
  assert (Hout : forall p, ~ (0 <= p < n_groups * int_per_group) ->
                   q_out q p = out p).
  { intros p Hp. subst q. rewrite quantize_out_spec by assumption.
    fold n_groups. subst int_per_group. rewrite Hipg in Hp.
    destruct (Z.leb_spec 0 p), (Z.ltb_spec p
      (unit_stride bits
       * (n_groups * Z.quot group_size (get_pack_factor bits 32))));
      cbn [andb]; trivial; lia. }
  assert (Hsb : forall g, ~ (0 <= g < n_groups) ->
                  q_scales q g = scales g /\ q_biases q g = biases g).
  { intros g Hg. subst q. unfold quantize, for_lt. fold n_groups.
    pose (P := fun (k : nat) (q : quantized T) =>
                 forall j, ~ (0 <= j < Z.of_nat k) ->
                   q_scales q j = scales j /\ q_biases q j = biases j).
    match goal with
    | |- q_scales ?q g = _ /\ _ => assert (HP : P (Z.to_nat n_groups) q)
    end.
    { apply for_from_inv.
      - intros j _. split; reflexivity.
      - intros k q _ HPk j Hj.
        replace (0 + Z.of_nat k * 1) with (Z.of_nat k) by lia.
        destruct (group_min_max w (Z.of_nat k * group_size) group_size)
          as [w_min w_max].
        destruct (group_scale_bias bits w_min w_max) as [scale bias].
        cbn [q_scales q_biases].
        rewrite !upd_other by lia. apply HPk. lia. }
    apply HP. lia. }
  split; [exact Hout |]. split; [exact Hsb |].
  intros Hshort p.
  assert (Hz : n_groups = 0)
    by (subst n_groups; apply Z.quot_small; lia).
  split; [apply Hout | apply Hsb]; lia.
Qed.

(** X12.  [quantize] reads the elements of the whole groups only: two
    inputs that agree on the first [n_groups * group_size] elements
    give the same three arrays, whatever the remaining
    [w_size mod group_size] elements are. *)
Theorem quantize_ignores_tail (castU : Z -> Z) (w1 w2 : buf T)
    (out : buf Z) (scales biases : buf T) (w_size : Z) :
  0 <= w_size ->
  (forall e, 0 <= e < Z.quot w_size group_size * group_size ->
     w1 e = w2 e) ->
  quantize castU w1 out scales biases bits group_size w_size
  = quantize castU w2 out scales biases bits group_size w_size.
Proof.
  intros Hw Hag.
  destruct (quantizer_layout bits group_size Hbits Hgroup)
    as (Hepi & Hst & Hupg & Hgs & Hipg & Hcnt & _).
  cbv zeta in Hepi, Hst, Hupg, Hgs, Hipg, Hcnt.
  assert (Hgpos : 0 < group_size) by nia.
  assert (Hng : 0 <= Z.quot w_size group_size)
    by (apply Z.quot_pos; lia).
  unfold quantize. cbv zeta. rewrite Hipg, Hcnt.
  unfold for_lt at 1 3. apply for_from_ext_range.
  intros i q Hi.
  replace (0 + Z.of_nat i * 1) with (Z.of_nat i) by lia.
  assert (Hmm : group_min_max w1 (Z.of_nat i * group_size) group_size
                = group_min_max w2 (Z.of_nat i * group_size) group_size).
  { unfold group_min_max, for_lt. apply for_from_ext_range.
    intros j [mn mx] Hj. rewrite Hag by nia. reflexivity. }
  rewrite Hmm.
  destruct (group_min_max w2 (Z.of_nat i * group_size) group_size)
    as [w_min w_max].
  destruct (group_scale_bias bits w_min w_max) as [scale bias].
  f_equal. unfold for_lt. apply for_from_ext_range.
  intros j o Hj. f_equal. apply pack_el_ext.
  intros k Hk. rewrite Hag by nia. reflexivity.
Qed.
End QuantizeFrame.

(** * From the quantizer to the matmul kernels *)

(** The bytes of the words assembled from an array of bytes are those
    bytes. *)
Lemma bytes_of_load_u32 (out : buf Z) (b : Z) :
  (forall p, 0 <= out p < 256) ->
  bytes_of_words (load_u32 out) b = out b.
Proof.
  intros Hbyte. unfold bytes_of_words, load_u32.
  pose proof (Hbyte (4 * (b / 4))) as H0.
  pose proof (Hbyte (4 * (b / 4) + 1)) as H1.
  pose proof (Hbyte (4 * (b / 4) + 2)) as H2.
  pose proof (Hbyte (4 * (b / 4) + 3)) as H3.
  assert (Hm : 0 <= b mod 4 < 4) by (apply Z.mod_pos_bound; lia).
  replace (out b) with (out (4 * (b / 4) + b mod 4))
    by (f_equal; symmetry; apply Z.div_mod; lia).
  set (q := b / 4) in *. set (r := b mod 4) in *.
  assert (Hr : r = 0 \/ r = 1 \/ r = 2 \/ r = 3) by lia.
  destruct Hr as [-> | [-> | [-> | ->]]]; rewrite ?Z.add_0_r;
    generalize dependent (out (4 * q + 3)); intros b3 H3;
    generalize dependent (out (4 * q + 2)); intros b2 H2;
    generalize dependent (out (4 * q + 1)); intros b1 H1;
    generalize dependent (out (4 * q)); intros b0 H0;
    eval_closed; bits_to_arith land_mask; divmod_lia.
Qed.



Lemma unit_store_byte (bits E b : Z) :
  valid_bits bits -> is_power_of_2 bits = false ->
  0 <= unit_store bits E b < 256.
Proof.
  intros Hb Hp.
  destruct Hb as [-> | [-> | [-> | [-> | [-> | ->]]]]];
    try discriminate Hp;
    unfold unit_store, store_el; eval_layout; eval_closed; cbn iota;
    unfold upd, castU_of; eval_layout; cbn iota;
    repeat match goal with
    | |- context [Z.eqb ?a ?c] => destruct (Z.eqb_spec a c)
    end; unfold u8; try lia; apply Z.mod_pos_bound; lia.
Qed.

Section QuantizedWords.
Context {T F : Type} {AF : Arith F} {CV : Conv T F}.
Variables (bits group_size : Z).
Hypothesis Hbits : valid_bits bits.
Hypothesis Hgroup : valid_group_size group_size.
Variables (w : buf T) (out : buf Z) (scales biases : buf T).

(** The bytes the kernels see in the words made of the output of
    [quantize] are the bytes of that output. *)
Lemma quantized_words_bytes (w_size b : Z) :
  0 <= w_size ->
  (is_power_of_2 bits = false -> forall p, 0 <= out p < 256) ->
  let q := quantize (castU_of bits) w out scales biases
             bits group_size w_size in
  bytes_of_words (as_words bits (q_out q)) b = as_bytes bits (q_out q) b.
Proof.
  intros Hw Hbyte q. unfold as_words, as_bytes.
  destruct (is_power_of_2 bits) eqn:Hp; [reflexivity |].
  apply bytes_of_load_u32. intros p. subst q.
  rewrite quantize_out_spec by assumption.
  destruct (_ && _); [now apply unit_store_byte | now apply Hbyte].
Qed.

(** The scale and the bias stored for a whole group. *)
Lemma quantize_params_spec (castU : Z -> Z) (w_size g : Z) :
  0 <= g < Z.quot w_size group_size ->
  let q := quantize castU w out scales biases bits group_size w_size in
  q_scales q g = of_float (fst (group_params bits group_size w g))
  /\ q_biases q g = of_float (snd (group_params bits group_size w g)).
Proof.
  intros Hg. cbv zeta. unfold quantize, for_lt.
  set (n_groups := Z.quot w_size group_size) in *.
  pose (P := fun (k : nat) (q : quantized T) =>
               forall j, 0 <= j < Z.of_nat k ->
                 q_scales q j
                 = of_float (fst (group_params bits group_size w j))
                 /\ q_biases q j
                    = of_float (snd (group_params bits group_size w j))).
  match goal with
  | |- q_scales ?q g = _ /\ _ => assert (HP : P (Z.to_nat n_groups) q)
  end.
  { apply for_from_inv.
    - intros j Hj. lia.
    - intros k q _ HPk j Hj.
      replace (0 + Z.of_nat k * 1) with (Z.of_nat k) by lia.
      destruct (group_min_max w (Z.of_nat k * group_size) group_size)
        as [w_min w_max] eqn:Hmm.
      destruct (group_scale_bias bits w_min w_max) as [scale bias] eqn:Hsb.
      cbn [q_scales q_biases]. unfold upd.
      destruct (Z.eqb_spec j (Z.of_nat k)) as [-> | Hne].
      + unfold group_params. rewrite Hmm, Hsb. split; reflexivity.
      + apply HPk. lia. }
  apply HP. lia.
Qed.
End QuantizedWords.

(** The code of an element depends on the bytes alone. *)
Lemma code_at_ext (bits : Z) (wb1 wb2 : buf Z) (e : Z) :
  valid_bits bits -> (forall b, wb1 b = wb2 b) ->
  code_at bits wb1 e = code_at bits wb2 e.
Proof.
  intros Hb H. unfold code_at. cbv zeta. f_equal.
  apply decode_pack_ext; trivial. intros b _. unfold shift. apply H.
Qed.

Section Pipeline.
Context {T F : Type} {AT : Arith T} {AF : Arith F} {CV : Conv T F}.
Variables (bits group_size : Z).
Hypothesis Hbits : valid_bits bits.
Hypothesis Hgroup : valid_group_size group_size.
Variables (w : buf T) (out : buf Z) (scales biases : buf T) (x : buf T).

(** What the kernels dequantize from the output of [quantize]. *)
Lemma dequant_of_quantized (n e : Z) :
  0 <= n -> n mod group_size = 0 ->
  (is_power_of_2 bits = false -> forall p, 0 <= out p < 256) ->
  (forall e, 0 <= e < n ->
     in_range bits (element_code bits group_size w e)) ->
  0 <= e < n ->
  let q := quantize (castU_of bits) w out scales biases
             bits group_size n in
  dequant_at bits group_size (bytes_of_words (as_words bits (q_out q)))
    (q_scales q) (q_biases q) e
  = stored_weight bits group_size w e.
Proof.
  intros Hn Hdiv Hbyte Hr He q.
  assert (Hgpos : 0 < group_size)
    by (unfold valid_group_size in Hgroup; lia).
  assert (Hq : Z.quot n group_size * group_size = n).
  { rewrite Z.quot_div_nonneg by lia.
    pose proof (Z.div_mod n group_size ltac:(lia)). lia. }
  unfold dequant_at, stored_weight.
  rewrite (code_at_ext bits _ (as_bytes bits (q_out q))) by
    (trivial; intros b; subst q; now apply quantized_words_bytes).
  subst q. rewrite quantize_decodes by (trivial; rewrite ?Hq; trivial).
  assert (Hg : 0 <= e / group_size < Z.quot n group_size).
  { split; [apply Z.div_pos; lia |].
    apply Z.div_lt_upper_bound; lia. }
  destruct (quantize_params_spec bits group_size w out scales biases
              (castU_of bits) n (e / group_size) Hg) as [-> ->].
  destruct (group_params bits group_size w (e / group_size)).
  reflexivity.
Qed.

(** X13.  The kernels on the output of the quantizer: when [N * K]
    weights are quantized and the three arrays are handed to [_qmm_t]
    (rows of [K] weights, [K] a multiple of the group size) or to
    [_qmm] (rows of [N] weights, [N] a multiple of the group size),
    output element [(m, n)] is the sum over [k] of [x[m, k]] times the
    stored weight of element [(n, k)], resp. [(k, n)]: its code times
    the stored scale plus the stored bias of its group.  The codes are
    assumed to be within their [bits] bits, and an [out] of bytes to
    hold bytes. *)
Theorem kernels_on_quantized_weights (res : buf T) (rp M N K : Z) :
  0 <= K -> 0 <= N ->
  (is_power_of_2 bits = false -> forall p, 0 <= out p < 256) ->
  (forall e, 0 <= e < N * K ->
     in_range bits (element_code bits group_size w e)) ->
  let q := quantize (castU_of bits) w out scales biases
             bits group_size (N * K) in
  let wq := as_words bits (q_out q) in
  (K mod group_size = 0 ->
   forall m n, 0 <= m < M -> 0 <= n < N ->
     _qmm_t bits group_size res rp x wq (q_scales q) (q_biases q) M N K
       (rp + m * N + n)
     = sum_from (of_Z 0) (Z.to_nat K)
         (fun k =>
            fmul (x (m * K + k))
              (stored_weight bits group_size w (n * K + k))))
  /\ (N mod group_size = 0 ->
      forall m n, 0 <= m < M -> 0 <= n < N ->
        _qmm bits group_size res rp x wq (q_scales q) (q_biases q) M N K
          (rp + m * N + n)
        = sum_from (of_Z 0) (Z.to_nat K)
            (fun k =>
               fmul (x (m * K + k))
                 (stored_weight bits group_size w (k * N + n)))).
Proof.
  intros HK HN Hbyte Hr q wq.
  assert (Hgpos : 0 < group_size)
    by (unfold valid_group_size in Hgroup; lia).
  split; intros Hdiv m n Hm Hn.
  - rewrite qmm_t_computes by assumption.
    unfold matmul_entry. apply sum_from_ext. intros k Hk. f_equal.
    apply dequant_of_quantized; trivial; try nia.
    rewrite Z.mul_comm, Z.mul_mod, Hdiv, Z.mul_0_l by lia.
    apply Z.mod_0_l. lia.
  - rewrite qmm_computes by assumption.
    unfold matmul_entry. apply sum_from_ext. intros k Hk. f_equal.
    apply dequant_of_quantized; trivial; try nia.
    rewrite Z.mul_mod, Hdiv, Z.mul_0_l by lia.
    apply Z.mod_0_l. lia.
Qed.
End Pipeline.

(** * The quantizer in exact arithmetic *)

(** With a finite non-zero scale the code of a finite value is the
    rounded quotient, clamped. *)
Lemma exact_quantize_el (bits : Z) (s b u : Q) :
  0 <= bits <= 64 -> ~ (s == 0)%Q ->
  quantize_el (CV := conv_id xreal) bits (XFin s) (XFin b) (XFin u)
  = Z.min (Z.max (Exact.rint_Q ((u + - b) / s)) 0) (2 ^ bits - 1).
Proof.
  intros Hb Hs. unfold quantize_el.
  cbn [to_float conv_id fsub fdiv frint exact_arith Exact.sub Exact.add
       Exact.neg Exact.div Exact.rint].
  rewrite is_zero_false by exact Hs. cbn [Exact.rint].
  set (c := Exact.rint_Q ((u + - b) / s)).
  rewrite n_bins_exact.
  rewrite Z.shiftl_mul_pow2, Z.mul_1_l by lia.
  assert (Hpow : 0 < 2 ^ bits <= 2 ^ 64).
  { split; [apply Z.pow_pos_nonneg; lia | apply Z.pow_le_mono_r; lia]. }
  set (n := 2 ^ bits - 1) in *.
  unfold std_min, std_max. cbn [fltb of_Z exact_arith].
  destruct (Exact.ltb (XFin (inject_Z c)) (XFin (inject_Z 0))) eqn:E0.
  - apply exact_ltb_true in E0. rewrite <- Zlt_Qlt in E0.
    destruct (Exact.ltb (XFin (inject_Z n)) (XFin (inject_Z 0))) eqn:En.
    + apply exact_ltb_true in En. rewrite <- Zlt_Qlt in En. lia.
    + cbn [to_u64 exact_arith Exact.to_u64]. rewrite Qfloor_Z.
      cbn [Z.leb Z.ltb Z.compare andb]. change (0 <? 2 ^ 64) with true.
      cbn iota. lia.
  - apply exact_ltb_false in E0. rewrite <- Zle_Qle in E0.
    destruct (Exact.ltb (XFin (inject_Z n)) (XFin (inject_Z c))) eqn:En.
    + apply exact_ltb_true in En. rewrite <- Zlt_Qlt in En.
      cbn [to_u64 exact_arith Exact.to_u64]. rewrite Qfloor_Z.
      replace ((0 <=? n) && (n <? 2 ^ 64))%bool with true
        by (symmetry; apply andb_true_iff; split;
            [apply Z.leb_le | apply Z.ltb_lt]; lia).
      lia.
    + apply exact_ltb_false in En. rewrite <- Zle_Qle in En.
      cbn [to_u64 exact_arith Exact.to_u64]. rewrite Qfloor_Z.
      replace ((0 <=? c) && (c <? 2 ^ 64))%bool with true
        by (symmetry; apply andb_true_iff; split;
            [apply Z.leb_le | apply Z.ltb_lt]; lia).
      lia.
Qed.

Section ExactQuantizer.
Variables (bits group_size : Z).
Hypothesis Hbits : valid_bits bits.
Hypothesis Hgroup : valid_group_size group_size.
Variable w : buf xreal.

(** The scale, bias and code of an element of a finite group. *)
Lemma exact_element_code (e : Z) :
  0 <= e ->
  (forall j, 0 <= j < group_size ->
     finite (w (e / group_size * group_size + j))) ->
  exists s b u,
    group_params (CV := conv_id xreal) bits group_size w (e / group_size)
    = (XFin s, XFin b)
    /\ ~ (s == 0)%Q /\ w e = XFin u
    /\ element_code (CV := conv_id xreal) bits group_size w e
       = Z.min (Z.max (Exact.rint_Q ((u + - b) / s)) 0) (2 ^ bits - 1).
Proof.
  intros He Hfin.
  assert (Hgpos : 0 < group_size)
    by (unfold valid_group_size in Hgroup; lia).
  assert (Hb : 1 <= bits <= 64) by (unfold valid_bits in Hbits; lia).
  destruct (exact_group_min_max w (e / group_size * group_size) group_size
              Hgpos Hfin) as (a & b' & Hmm).
  destruct (exact_group_scale_bias bits a b' ltac:(lia))
    as (s & b & Hsb & Hs & _).
  destruct (Hfin (e mod group_size)
              ltac:(apply Z.mod_pos_bound; lia)) as (u & Hu).
  replace (e / group_size * group_size + e mod group_size) with e in Hu
    by (pose proof (Z.div_mod e group_size ltac:(lia)); lia).
  exists s, b, u.
  assert (Hgp : group_params (CV := conv_id xreal) bits group_size w
                  (e / group_size) = (XFin s, XFin b))
    by (unfold group_params; now rewrite Hmm, Hsb).
  repeat split; trivial.
  unfold element_code. rewrite Hgp, Hu.
  apply exact_quantize_el; trivial. lia.
Qed.
End ExactQuantizer.

Section ExactPipeline.
Variables (bits group_size : Z).
Hypothesis Hbits : valid_bits bits.
Hypothesis Hgroup : valid_group_size group_size.
Variable w : buf xreal.
Variable n : Z.
Hypothesis Hdiv : n mod group_size = 0.
Hypothesis Hfin : forall e, 0 <= e < n -> finite (w e).

Lemma exact_group_finite (e : Z) :
  0 <= e < n ->
  forall j, 0 <= j < group_size ->
    finite (w (e / group_size * group_size + j)).
Proof.
  intros He j Hj. apply Hfin.
  assert (Hgpos : 0 < group_size)
    by (unfold valid_group_size in Hgroup; lia).
  assert (Hng : n = group_size * (n / group_size))
    by (apply Z.div_exact; lia).
  assert (Hlt : e / group_size < n / group_size)
    by (apply Z.div_lt_upper_bound; lia).
  assert (0 <= e / group_size) by (apply Z.div_pos; lia).
  nia.
Qed.

Lemma exact_code_in_range (e : Z) :
  0 <= e < n ->
  in_range bits (element_code (CV := conv_id xreal) bits group_size w e).
Proof.
  intros He.
  destruct (exact_element_code bits group_size Hbits Hgroup w e
              ltac:(lia) (exact_group_finite e He))
    as (s & b & u & _ & _ & _ & ->).
  assert (0 < 2 ^ bits)
    by (apply Z.pow_pos_nonneg; unfold valid_bits in Hbits; lia).
  unfold in_range. lia.
Qed.
End ExactPipeline.

(** X16.  In exact arithmetic the first loop of [quantize] finds the
    extrema of a group of finite values: [w_min] and [w_max] are
    elements of the group, and every element lies between them. *)
Theorem exact_group_extrema (w : buf xreal) (w_idx group_size : Z) :
  0 < group_size ->
  (forall j, 0 <= j < group_size -> finite (w (w_idx + j))) ->
  exists a b,
    group_min_max (CV := conv_id xreal) w w_idx group_size
    = (XFin a, XFin b)
    /\ (exists j, 0 <= j < group_size /\ w (w_idx + j) = XFin a)
    /\ (exists j, 0 <= j < group_size /\ w (w_idx + j) = XFin b)
    /\ forall j v, 0 <= j < group_size -> w (w_idx + j) = XFin v ->
         (a <= v <= b)%Q.
Proof.
  intros Hg Hfin. unfold group_min_max, for_lt.
  pose (P := fun (k : nat) (s : xreal * xreal) =>
               (k = O /\ s = (XPinf, XNinf))
               \/ (k <> O
                   /\ exists a b,
                        s = (XFin a, XFin b)
                        /\ (exists j, 0 <= j < Z.of_nat k
                                      /\ w (w_idx + j) = XFin a)
                        /\ (exists j, 0 <= j < Z.of_nat k
                                      /\ w (w_idx + j) = XFin b)
                        /\ forall j v, 0 <= j < Z.of_nat k ->
                             w (w_idx + j) = XFin v -> (a <= v <= b)%Q)).
  match goal with
  | |- exists a b, ?r = _ /\ _ => assert (HP : P (Z.to_nat group_size) r)
  end.
  { apply for_from_inv.
    - left. split; reflexivity.
    - intros k [mn mx] Hk HPk. right. split; [lia |].
      replace (0 + Z.of_nat k * 1) with (Z.of_nat k) by lia.
      destruct (Hfin (Z.of_nat k) ltac:(lia)) as (v & Hv).
      cbn [to_float conv_id]. rewrite Hv. unfold std_max, std_min.
      destruct HPk as [[-> Hs] | [_ (a & b & Hs & Ha & Hb & Hall)]];
        injection Hs as -> ->; cbn [fltb exact_arith Exact.ltb].
      + exists v, v. split; [reflexivity |].
        split; [exists 0; split; [lia | exact Hv] |].
        split; [exists 0; split; [lia | exact Hv] |].
        intros j v' Hj Hv'. replace j with 0 in Hv' by lia.
        cbn [Z.of_nat] in Hv. rewrite Hv in Hv'. injection Hv' as ->.
        split; apply Qle_refl.
      + destruct Ha as (ja & Hja & Hwa), Hb as (jb & Hjb & Hwb).
        destruct (Qle_bool v b) eqn:Evb, (Qle_bool a v) eqn:Eav;
          cbn [negb].
        * apply Qle_bool_iff in Evb, Eav.
          exists a, b. split; [reflexivity |].
          split; [exists ja; split; [lia | exact Hwa] |].
          split; [exists jb; split; [lia | exact Hwb] |].
          intros j v' Hj Hv'.
          destruct (Z.eq_dec j (Z.of_nat k)) as [-> | Hne].
          -- rewrite Hv in Hv'. injection Hv' as <-. now split.
          -- apply (Hall j); trivial. lia.
        * apply Qle_bool_iff in Evb.
          assert (Hva : (v < a)%Q).
          { apply Qnot_le_lt. intros H. apply Qle_bool_iff in H.
            congruence. }
          exists v, b. split; [reflexivity |].
          split; [exists (Z.of_nat k); split; [lia | exact Hv] |].
          split; [exists jb; split; [lia | exact Hwb] |].
          intros j v' Hj Hv'.
          destruct (Z.eq_dec j (Z.of_nat k)) as [-> | Hne].
          -- rewrite Hv in Hv'. injection Hv' as <-.
             split; [apply Qle_refl | exact Evb].
          -- destruct (Hall j v' ltac:(lia) Hv'). split; lra.
        * apply Qle_bool_iff in Eav.
          assert (Hbv : (b < v)%Q).
          { apply Qnot_le_lt. intros H. apply Qle_bool_iff in H.
            congruence. }
          exists a, v. split; [reflexivity |].
          split; [exists ja; split; [lia | exact Hwa] |].
          split; [exists (Z.of_nat k); split; [lia | exact Hv] |].
          intros j v' Hj Hv'.
          destruct (Z.eq_dec j (Z.of_nat k)) as [-> | Hne].
          -- rewrite Hv in Hv'. injection Hv' as <-.
             split; [exact Eav | apply Qle_refl].
          -- destruct (Hall j v' ltac:(lia) Hv'). split; lra.
        * assert (Hva : (v < a)%Q).
          { apply Qnot_le_lt. intros H. apply Qle_bool_iff in H.
            congruence. }
          assert (Hbv : (b < v)%Q).
          { apply Qnot_le_lt. intros H. apply Qle_bool_iff in H.
            congruence. }
          destruct (Hall ja a ltac:(lia) Hwa). lra. }
  destruct HP as [[Hk _] | [_ (a & b & Hs & Ha & Hb & Hall)]]; [lia |].
  rewrite Z2Nat.id in Ha, Hb, Hall by lia.
  exists a, b. repeat split; trivial; now apply (Hall j v).
Qed.

(** * The drivers write their output batches and nothing else *)

Section DispatchFrame.
Context {T F : Type} {AT : Arith T} {AF : Arith F} {CV : Conv T F}.
Variable simd_sum : list F -> F.
Variable max_size : Z.

(** Whatever it dispatches to, and also when it throws, the dispatcher
    leaves the buffer outside the [M * N] output elements as it was. *)
Lemma dispatch_typed_frame (x : buf T) (w : buf Z) (scales biases : buf T)
    (res : buf T) (rp M N K : Z)
    (group_size bits : Z) (transposed_w : bool) (p : Z) :
  0 <= N -> (transposed_w = false -> N mod group_size = 0) ->
  ~ (rp <= p < rp + M * N) ->
  state_of (_qmm_dispatch_typed simd_sum max_size
              res rp x w scales biases M N K group_size bits transposed_w) p
  = res p.
Proof.
  intros HN Hdiv Hp.
  assert (Hb : valid_bits bits \/ ~ valid_bits bits)
    by (unfold valid_bits; lia).
  assert (Hg : valid_group_size group_size \/ ~ valid_group_size group_size)
    by (unfold valid_group_size; lia).
  destruct Hb as [Hb | Hb].
  - rewrite dispatch_typed_valid by assumption.
    destruct Hg as [Hg | Hg].
    + rewrite dispatch_group_valid by assumption.
      unfold _qmm_dispatch_transpose. destruct transposed_w.
      * destruct ((Z.rem 32 bits =? 0)
                  && (Z.rem max_size (Z.quot 32 bits) =? 0)).
        -- now apply qmm_t_simd_frame.
        -- cbn [state_of]. now apply qmm_t_frame.
      * cbn [state_of]. apply qmm_frame; auto.
    + rewrite dispatch_group_invalid by assumption. reflexivity.
  - rewrite dispatch_typed_invalid_bits by assumption. reflexivity.
Qed.

(** A loop of dispatched matmuls at the offsets [i * M * N]. *)
Lemma batch_loop_frame (group_size bits : Z) (transposed_w : bool)
    (M N K : Z) (xb : Z -> buf T) (wb : Z -> buf Z) (sb bb : Z -> buf T)
    (n : nat) (res0 : buf T) (p : Z) :
  0 <= M -> 0 <= N -> (transposed_w = false -> N mod group_size = 0) ->
  ~ (0 <= p < Z.of_nat n * M * N) ->
  state_of
    (for_from_o n 0 1
       (fun i res =>
          _qmm_dispatch_typed simd_sum max_size res (i * M * N)
            (xb i) (wb i) (sb i) (bb i)
            M N K group_size bits transposed_w) res0) p
  = res0 p.
Proof.
  intros HM HN Hdiv Hp.
  set (body := fun (i : Z) (res : buf T) =>
                 _qmm_dispatch_typed simd_sum max_size res (i * M * N)
                   (xb i) (wb i) (sb i) (bb i)
                   M N K group_size bits transposed_w).
  assert (Hbody : forall i r q,
             ~ (i * M * N <= q < i * M * N + M * N) ->
             state_of (body i r) q = r q)
    by (intros i r q Hq; now apply dispatch_typed_frame).
  clearbody body.
  pose (P := fun (k : nat) (r : buf T) =>
               forall q, ~ (0 <= q < Z.of_nat k * M * N) -> r q = res0 q).
  pose (Q := fun (r : buf T) =>
               forall q, ~ (0 <= q < Z.of_nat n * M * N) -> r q = res0 q).
  assert (H : match for_from_o n 0 1 body res0 with
              | Done s => P n s
              | Throw _ s => Q s
              end).
  { apply for_from_o_inv_throw.
    - intros q _. reflexivity.
    - intros k r Hk Hr.
      replace (0 + Z.of_nat k * 1) with (Z.of_nat k) by lia.
      assert (HMN : 0 <= M * N) by (apply Z.mul_nonneg_nonneg; lia).
      assert (Hk0 : 0 <= Z.of_nat k * M * N)
        by (rewrite <- Z.mul_assoc; apply Z.mul_nonneg_nonneg; lia).
      assert (Hk1 : Z.of_nat (S k) * M * N = Z.of_nat k * M * N + M * N)
        by (rewrite Nat2Z.inj_succ; ring).
      assert (Hkn : Z.of_nat (S k) * M * N <= Z.of_nat n * M * N).
      { rewrite <- !Z.mul_assoc. apply Z.mul_le_mono_nonneg_r; lia. }
      pose proof (Hbody (Z.of_nat k) r) as Hfr.
      destruct (body (Z.of_nat k) r) as [r' | e r'];
        cbn [state_of] in Hfr; intros q Hq;
        (rewrite Hfr by lia); apply Hr; lia. }
  destruct (for_from_o n 0 1 body res0); cbn [state_of]; now apply H.
Qed.
End DispatchFrame.

Section DriverFrames.
Context {V F : Type} {AF : Arith F} {AT : Arith V} {CV : Conv V F}.
Variable simd_sum : list F -> F.
Variable elem_to_loc : Z -> list Z -> list Z -> Z.
Variable max_size : Z.
Variables (out x : array V) (w : array Z) (scales biases : array V).
Variables (lhs_indices rhs_indices : array Z).
Variables (group_size bits : Z) (transposed_w : bool).

(** X18.  Neither driver writes outside the batches of its output:
    with [N] a multiple of the group size when the weight is not
    transposed, every element of the output buffer outside the first
    [batches * M * N] holds after the call what it held before, for any
    bit width and group size and also when the call throws.  [batches]
    is [x.size() / (K * M)] for the dense driver and the size of the
    index array for the gathered one. *)
Theorem drivers_write_only_output (p : Z) :
  let N := shape_at out (-1) in
  let K := shape_at x (-1) in
  let Md := if ndim x >? 1 then shape_at x (-2) else 1 in
  let Mg := shape_at x (-2) in
  0 <= N -> (transposed_w = false -> N mod group_size = 0) ->
  (0 <= Md ->
   ~ (0 <= p < Z.max 0 (Z.quot (size x) (K * Md)) * Md * N) ->
   state_of (_qmm_dispatch_typed_arr simd_sum elem_to_loc max_size
               out x w scales biases group_size bits transposed_w) p
   = data out p)
  /\ (0 <= Mg ->
      ~ (0 <= p < Z.max 0 (size lhs_indices) * Mg * N) ->
      state_of (_bs_qmm_dispatch_typed simd_sum elem_to_loc max_size
                  out x w scales biases lhs_indices rhs_indices
                  group_size bits transposed_w) p
      = data out p).
Proof.
  intros N K Md Mg HN Hdiv. split; intros HM Hp.
  - unfold _qmm_dispatch_typed_arr, for_lt_o. fold N K Md.
    apply (batch_loop_frame simd_sum max_size group_size bits
             transposed_w Md N K
             (fun i => shift (data x)
                         (elem_to_loc (i * Md * K) (shape x) (strides x)))
             (fun i => shift (data w) (elem_to_loc _ (shape w) (strides w)))
             (fun i => shift (data scales)
                         (elem_to_loc _ (shape scales) (strides scales)))
             (fun i => shift (data biases)
                         (elem_to_loc _ (shape biases) (strides biases))));
      trivial.
    rewrite ZifyInst.of_nat_to_nat_eq. exact Hp.
  - unfold _bs_qmm_dispatch_typed, for_lt_o. fold N K Mg.
    apply (batch_loop_frame simd_sum max_size group_size bits
             transposed_w Mg N K
             (fun i => shift (data x) (elem_to_loc _ (shape x) (strides x)))
             (fun i => shift (data w) (elem_to_loc _ (shape w) (strides w)))
             (fun i => shift (data scales)
                         (elem_to_loc _ (shape scales) (strides scales)))
             (fun i => shift (data biases)
                         (elem_to_loc _ (shape biases) (strides biases))));
      trivial.
    rewrite ZifyInst.of_nat_to_nat_eq. exact Hp.
Qed.
End DriverFrames.

(** * The entry point of the quantizer and the size of a group *)

(** X19.  The quantizer and the kernels agree on the storage of a
    group: for every supported bit width and group size a group is a
    whole number of packs, a pack a whole number of bytes, and the
    [int_per_group] elements of [U] the quantizer writes per group are
    the [packs_in_group * bytes_per_pack] bytes the kernels consume per
    group, [group_size * bits / 8] bytes without padding. *)
Theorem group_storage (bits group_size : Z) :
  valid_bits bits -> valid_group_size group_size ->
  let pf := get_pack_factor bits 8 in
  let bpp := get_bytes_per_pack bits 8 in
  let int_per_group :=
    Z.quot (group_size * bpp) (get_pack_factor bits 32) in
  let sizeof_U := if is_power_of_2 bits then 4 else 1 in
  pf * bits = 8 * bpp
  /\ packs_in_group bits group_size * pf = group_size
  /\ 8 * (packs_in_group bits group_size * bpp) = group_size * bits
  /\ int_per_group * sizeof_U = packs_in_group bits group_size * bpp.
Proof.
  intros [-> | [-> | [-> | [-> | [-> | ->]]]]] [-> | [-> | ->]];
    cbv zeta; repeat split; reflexivity.
Qed.

Section AffineQuantize.
Context {V F : Type} {AF : Arith F}.
Variable conv_of : Dtype -> Conv V F.
Variable copy_cpu : forall A : Type, array A -> buf A.
Variable default_strides : list Z -> list Z.
Variables (group_size_ bits_ : Z).
Variables (w_pre : array V) (out : array Z) (scales biases : array V).
Variables (mem_out : buf Z) (mem_scales mem_biases : buf V).

(** X20.  [AffineQuantize::eval_cpu] on an input that is not of one of
    the three floating types throws its runtime error, whatever the bit
    width and the group size are; the three allocations made for the
    outputs are untouched. *)
Theorem affine_quantize_rejects_non_floating :
  ~ is_floating (dtype w_pre) ->
  AffineQuantize_eval_cpu conv_of copy_cpu default_strides
    group_size_ bits_ w_pre out scales biases
    mem_out mem_scales mem_biases
  = Throw
      (runtime_error
         "[fast::AffineQuantize::eval_cpu] Only supports floating point inputs")
      (mk_quantized mem_out mem_scales mem_biases).
Proof.
  intros Hf. unfold AffineQuantize_eval_cpu, is_floating in *.
  assert (Hd : dtype (ensure_row_contiguous copy_cpu default_strides w_pre)
               = dtype w_pre)
    by (unfold ensure_row_contiguous;
        destruct (row_contiguous w_pre); reflexivity).
  rewrite Hd.
  destruct (dtype w_pre); try reflexivity; exfalso; apply Hf; auto.
Qed.

(** X21.  On a floating input and a supported configuration
    [AffineQuantize::eval_cpu] returns, and the storage type it picks
    for [out] ([uint32_t] for the bit widths 2, 4 and 8, [uint8_t] for
    3, 5 and 6) is the one under which the kernels decode, from the
    array it wrote, the code computed for each element of the whole
    groups of the (row contiguous) input; the codes are assumed to be
    within their [bits] bits. *)
Theorem affine_quantize_output_decodes :
  let w := ensure_row_contiguous copy_cpu default_strides w_pre in
  let n := Z.quot (size w) group_size_ * group_size_ in
  is_floating (dtype w_pre) ->
  valid_bits bits_ -> valid_group_size group_size_ -> 0 <= size w ->
  (forall e, 0 <= e < n ->
     in_range bits_
       (element_code (CV := conv_of (dtype w_pre)) bits_ group_size_
          (data w) e)) ->
  exists q,
    AffineQuantize_eval_cpu conv_of copy_cpu default_strides
      group_size_ bits_ w_pre out scales biases
      mem_out mem_scales mem_biases = Done q
    /\ forall e, 0 <= e < n ->
         code_at bits_ (as_bytes bits_ (q_out q)) e
         = element_code (CV := conv_of (dtype w_pre)) bits_ group_size_
             (data w) e.
Proof.
  intros w n Hf Hb Hg Hsz Hr.
  assert (Hd : dtype w = dtype w_pre)
    by (subst w; unfold ensure_row_contiguous;
        destruct (row_contiguous w_pre); reflexivity).
  exists (quantize (CV := conv_of (dtype w_pre)) (castU_of bits_)
            (data w) mem_out mem_scales mem_biases
            bits_ group_size_ (size w)).
  split.
  - unfold AffineQuantize_eval_cpu. fold w. rewrite Hd.
    unfold dispatch_quantize, castU_of. cbn [data set_data].
    destruct Hf as [-> | [-> | ->]];
      destruct (is_power_of_2 bits_); reflexivity.
  - intros e He.
    apply (quantize_decodes (CV := conv_of (dtype w_pre))
             bits_ group_size_ Hb Hg (data w) mem_out mem_scales
             mem_biases (size w) Hsz Hr e He).
Qed.
End AffineQuantize.

(** * The gathered driver on the indices of the dense driver *)

(** Two throwing loops whose bodies agree on the indices they visit
    run alike. *)
Lemma for_from_o_ext_range {St : Type}
    (body1 body2 : Z -> St -> outcome St) (n : nat) (i0 step : Z) (s0 : St) :
  (forall k s, (k < n)%nat ->
     body1 (i0 + Z.of_nat k * step) s = body2 (i0 + Z.of_nat k * step) s) ->
  for_from_o n i0 step body1 s0 = for_from_o n i0 step body2 s0.
Proof.
  revert i0 s0. induction n as [| n IH]; intros i0 s0 Hb.
  - reflexivity.
  - cbn [for_from_o].
    pose proof (Hb O s0 ltac:(lia)) as H0.
    cbn [Z.of_nat] in H0. rewrite Z.mul_0_l, Z.add_0_r in H0.
    rewrite H0. destruct (body2 i0 s0) as [s1 | e s1]; trivial.
    apply IH. intros k s Hk.
    replace (i0 + step + Z.of_nat k * step)
      with (i0 + Z.of_nat (S k) * step) by lia.
    apply Hb. lia.
Qed.

Section GatherDense.
Context {V F : Type} {AF : Arith F} {AT : Arith V} {CV : Conv V F}.
Variable simd_sum : list F -> F.
Variable elem_to_loc : Z -> list Z -> list Z -> Z.
Variable max_size : Z.
Variables (out x : array V) (w : array Z) (scales biases : array V).
Variables (lhs_indices rhs_indices : array Z).
Variables (bits group_size : Z) (transposed_w : bool).

(** X22.  The gathered driver with the indices the dense driver walks
    through is the dense driver: when the activation has at least two
    dimensions, there are as many indices as the dense driver has
    batches, [lhs_indices[i] = i], and [rhs_indices[i]] is [i] for a
    weight of more than two dimensions and [0] for a weight of at most
    two, the two drivers have the same outcome, the whole output buffer
    and a thrown error included, for any bit width and group size. *)
Theorem gather_identity_is_dense :
  let K := shape_at x (-1) in
  let M := shape_at x (-2) in
  1 < ndim x ->
  size lhs_indices = Z.quot (size x) (K * M) ->
  (forall i, 0 <= i < size lhs_indices ->
     index_at elem_to_loc lhs_indices i = i
     /\ index_at elem_to_loc rhs_indices i
        = if ndim w >? 2 then i else 0) ->
  _bs_qmm_dispatch_typed simd_sum elem_to_loc max_size
    out x w scales biases lhs_indices rhs_indices bits group_size transposed_w
  = _qmm_dispatch_typed_arr simd_sum elem_to_loc max_size
      out x w scales biases bits group_size transposed_w.
Proof.
  intros K M Hnd Hsize Hidx.
  unfold _bs_qmm_dispatch_typed, _qmm_dispatch_typed_arr, for_lt_o.
  fold K M.
  replace (ndim x >? 1) with true
    by (symmetry; rewrite Z.gtb_ltb; apply Z.ltb_lt; lia).
  fold M. rewrite <- Hsize.
  apply for_from_o_ext_range. intros k res Hk.
  rewrite Z.add_0_l, Z.mul_1_r.
  destruct (Hidx (Z.of_nat k) ltac:(lia)) as [Hl Hr].
  unfold index_at in Hl, Hr. cbv zeta. rewrite Hl, Hr.
  destruct (ndim w >? 2).
  - reflexivity.
  - rewrite !Z.mul_0_l, !Z.mul_0_r. reflexivity.
Qed.
End GatherDense.

(** ** Further statements at concrete inputs *)

Lemma not_valid_group_size_100 : ~ valid_group_size 100.
Proof. unfold valid_group_size. lia. Defined.

Lemma int32_not_floating : ~ is_floating int32.
Proof. intros [H | [H | H]]; discriminate H. Defined.

Lemma skewed_group_finite (e : Z) : finite (skewed_group e).
Proof.
  unfold skewed_group, finite.
  destruct (e =? 0); [| destruct (e =? 1)]; eexists; reflexivity.
Defined.

Lemma dispatch_error_order_witness :
  _qmm_dispatch_typed (AT := exact_arith) (CV := conv_id xreal)
    lane_sum 8 (fun _ => XNaN) 0
    (data ex_x) (data ex_w) (data ex_scales) (data ex_biases)
    1 1 32 100 7 true
  = Throw (invalid_argument "Quantization bits must be 2, 3, 4, 6 or 8.")
      (fun _ => XNaN)
  /\ _qmm_dispatch_typed (AT := exact_arith) (CV := conv_id xreal)
       lane_sum 8 (fun _ => XNaN) 0
       (data ex_x) (data ex_w) (data ex_scales) (data ex_biases)
       1 1 32 100 4 true
     = Throw
         (invalid_argument "Quantization group size must be 32, 64 or 128.")
         (fun _ => XNaN).
Proof.
  split.
  - exact (proj1 (dispatch_error_order (AT := exact_arith)
                    (CV := conv_id xreal) lane_sum 8 (fun _ => XNaN) 0
                    (data ex_x) (data ex_w) (data ex_scales)
                    (data ex_biases) 1 1 32 7 100 true)
             not_valid_bits_7).
  - exact (proj2 (dispatch_error_order (AT := exact_arith)
                    (CV := conv_id xreal) lane_sum 8 (fun _ => XNaN) 0
                    (data ex_x) (data ex_w) (data ex_scales)
                    (data ex_biases) 1 1 32 4 100 true)
             valid_bits_4 not_valid_group_size_100).
Defined.

Lemma non_floating_rejected_witness :
  QuantizedMatmul_eval_cpu lane_sum elem_to_loc_std exact_arith_of
    exact_conv_of max_size_example copy_example row_major ex_prim
    ex_x_int ex_w ex_scales ex_biases ex_out (fun _ => XNaN)
  = Throw
      (invalid_argument "[quantized_matmul] only floating types are supported")
      (fun _ => XNaN)
  /\ GatherQMM_eval_cpu lane_sum elem_to_loc_std exact_arith_of
       exact_conv_of max_size_example copy_example row_major ex_prim
       ex_x_int ex_w ex_scales ex_biases ex_lhs ex_rhs ex_out
       (fun _ => XNaN)
     = Throw
         (invalid_argument
            "[quantized_matmul] only floating types are supported")
         (fun _ => XNaN).
Proof.
  exact (non_floating_rejected lane_sum elem_to_loc_std exact_arith_of
           exact_conv_of max_size_example copy_example row_major ex_prim
           ex_x_int ex_w ex_scales ex_biases ex_lhs ex_rhs ex_out
           (fun _ => XNaN) int32_not_floating).
Defined.

Lemma invalid_configuration_at_entry_points_witness :
  (exists msg,
     QuantizedMatmul_eval_cpu lane_sum elem_to_loc_std exact_arith_of
       exact_conv_of max_size_example copy_example row_major ex_prim_bits7
       ex_x ex_w ex_scales ex_biases ex_out (fun _ => XNaN)
     = Throw (invalid_argument msg) (fun _ => XNaN))
  /\ (exists msg,
        GatherQMM_eval_cpu lane_sum elem_to_loc_std exact_arith_of
          exact_conv_of max_size_example copy_example row_major
          ex_prim_group100
          ex_x ex_w ex_scales ex_biases ex_lhs ex_rhs ex_out
          (fun _ => XNaN)
        = Throw (invalid_argument msg) (fun _ => XNaN)).
Proof.
  split.
  - exact (proj1 (invalid_configuration_at_entry_points lane_sum
                    elem_to_loc_std exact_arith_of exact_conv_of
                    max_size_example copy_example row_major ex_prim_bits7
                    ex_x ex_w ex_scales ex_biases ex_lhs ex_rhs ex_out
                    (fun _ => XNaN)
                    (or_introl not_valid_bits_7) (or_introl eq_refl))
             eq_refl).
  - exact (proj2 (invalid_configuration_at_entry_points lane_sum
                    elem_to_loc_std exact_arith_of exact_conv_of
                    max_size_example copy_example row_major
                    ex_prim_group100
                    ex_x ex_w ex_scales ex_biases ex_lhs ex_rhs ex_out
                    (fun _ => XNaN)
                    (or_intror not_valid_group_size_100)
                    (or_introl eq_refl))
             eq_refl).
Defined.

Lemma no_batch_no_check_witness :
  QuantizedMatmul_eval_cpu lane_sum elem_to_loc_std exact_arith_of
    exact_conv_of max_size_example copy_example row_major ex_prim_bits7
    ex_x_empty ex_w ex_scales ex_biases ex_out (fun _ => XNaN)
  = Done (fun _ => XNaN)
  /\ GatherQMM_eval_cpu lane_sum elem_to_loc_std exact_arith_of
       exact_conv_of max_size_example copy_example row_major
       ex_prim_group100
       ex_x ex_w ex_scales ex_biases ex_idx_empty ex_idx_empty ex_out
       (fun _ => XNaN)
     = Done (fun _ => XNaN).
Proof.
  split.
  - apply (proj1 (no_batch_no_check lane_sum elem_to_loc_std
                    exact_arith_of exact_conv_of max_size_example
                    copy_example row_major ex_prim_bits7
                    ex_x_empty ex_w ex_scales ex_biases
                    ex_idx_empty ex_idx_empty ex_out (fun _ => XNaN)
                    (or_introl eq_refl))).
    vm_compute. discriminate.
  - apply (proj2 (no_batch_no_check lane_sum elem_to_loc_std
                    exact_arith_of exact_conv_of max_size_example
                    copy_example row_major ex_prim_group100
                    ex_x ex_w ex_scales ex_biases
                    ex_idx_empty ex_idx_empty ex_out (fun _ => XNaN)
                    (or_introl eq_refl))).
    vm_compute. discriminate.
Defined.

Lemma dense_batches_witness :
  exists res',
    _qmm_dispatch_typed_arr (AT := exact_arith) (CV := conv_id xreal)
      lane_sum elem_to_loc_std 8 ex_out ex_x ex_w ex_scales ex_biases
      32 4 true = Done res'
    /\ res' 1
       = state_of
           (_qmm_dispatch_typed (AT := exact_arith) (CV := conv_id xreal)
              lane_sum 8 (fun _ => XNaN) 0
              (batch_of elem_to_loc_std ex_x 32 1)
              (batch_of elem_to_loc_std ex_w 4 1)
              (batch_of elem_to_loc_std ex_scales 1 1)
              (batch_of elem_to_loc_std ex_biases 1 1)
              1 1 32 32 4 true) 0.
Proof.
  destruct (dense_batches (AT := exact_arith) (CV := conv_id xreal)
              lane_sum elem_to_loc_std 8 ex_out ex_x ex_w ex_scales
              ex_biases 4 32 true
              valid_bits_4 valid_group_size_32 simd_width_ok_8
              ltac:(vm_compute; discriminate)
              ltac:(vm_compute; discriminate))
    as [(res' & Hrun & Hb) _].
  exists res'. split; [exact Hrun |].
  specialize (Hb 1 0 (fun _ => XNaN)).
  change (if ndim ex_x >? 1 then shape_at ex_x (-2) else 1) with 1 in Hb.
  change (shape_at ex_out (-1)) with 1 in Hb.
  change (shape_at ex_x (-1)) with 32 in Hb.
  change (if ndim ex_w >? 2 then shape_at ex_w (-1) * shape_at ex_w (-2)
          else 0) with 4 in Hb.
  change (if ndim ex_w >? 2
          then shape_at ex_scales (-1) * shape_at ex_scales (-2)
          else 0) with 1 in Hb.
  change (size ex_x) with 64 in Hb.
  change (1 * 1 * 1 + 0) with 1 in Hb.
  change (1 * 32) with 32 in Hb.
  apply Hb; [split; [lia | reflexivity] | lia].
Defined.

Lemma kernels_write_only_output_witness :
  _qmm (T := xreal) 4 32 (fun _ => XNaN) 0
    (data ex_x) (data ex_w) (data ex_scales) (data ex_biases) 1 32 1 40
  = XNaN
  /\ _qmm_t (T := xreal) 4 32 (fun _ => XNaN) 0
       (data ex_x) (data ex_w) (data ex_scales) (data ex_biases) 1 32 1 40
     = XNaN
  /\ state_of
       (_qmm_t_simd (CV := conv_id xreal) lane_sum 8 4 32 (fun _ => XNaN) 0
          (data ex_x) (data ex_w) (data ex_scales) (data ex_biases) 1 32 1)
       40
     = XNaN.
Proof.
  destruct (kernels_write_only_output (AT := exact_arith)
              (CV := conv_id xreal) lane_sum 8 4 32
              (data ex_x) (data ex_w) (data ex_scales) (data ex_biases)
              (fun _ => XNaN) 0 1 32 1 40
              ltac:(lia) ltac:(lia)) as (Hq & Ht & Hs).
  split; [| split].
  - exact (Hq valid_bits_4 valid_group_size_32 eq_refl).
  - exact Ht.
  - exact Hs.
Defined.

Lemma extract_bits_simd_codes_witness :
  extract_bits_simd 4 8 (data ex_w)
  = Ok (map (code_at 4 (bytes_of_words (data ex_w)))
          [0; 1; 2; 3; 4; 5; 6; 7]).
Proof.
  exact (extract_bits_simd_codes 4 (data ex_w) (or_introl eq_refl)).
Defined.

Lemma simd_unsupported_throws_witness :
  _qmm_t_simd (CV := conv_id xreal) lane_sum 16 2 32 (fun _ => XNaN) 0
    (data ex_x) (data ex_w) (data ex_scales) (data ex_biases) 1 1 32
  = Throw (runtime_error "Unsupported combination for simd qmm.")
      (fun _ => XNaN).
Proof.
  apply (proj2 (simd_unsupported_throws (CV := conv_id xreal) lane_sum 16
                  2 32 (data ex_x) (data ex_w) (data ex_scales)
                  (data ex_biases) (fun _ => XNaN) 0 1 1 32
                  ltac:(intros [[H | H] _]; discriminate H)));
    reflexivity.
Defined.

Lemma qmm_t_simd_computes_witness :
  exists res',
    _qmm_t_simd (CV := conv_id xreal) lane_sum 8 4 32 (fun _ => XNaN) 0
      (data ex_x) (data ex_w) (data ex_scales) (data ex_biases) 1 1 32
    = Done res'
    /\ res' 0
       = lane_sum
           (simd_lanes (CV := conv_id xreal) 4 32 (data ex_x)
              (bytes_of_words (data ex_w)) (data ex_scales)
              (data ex_biases) 32 0 0).
Proof.
  destruct (qmm_t_simd_computes (CV := conv_id xreal) lane_sum 4 32
              (or_introl eq_refl) valid_group_size_32
              (data ex_x) (data ex_w) (data ex_scales) (data ex_biases)
              (fun _ => XNaN) 0 1 1 32
              ltac:(lia) eq_refl ltac:(lia)) as (res' & Hrun & Hv).
  exists res'. split; [exact Hrun |].
  exact (Hv 0 0 ltac:(lia) ltac:(lia)).
Defined.

Lemma skewed_codes_in_range (e : Z) :
  0 <= e < 32 ->
  in_range 4 (element_code (CV := conv_id xreal) 4 32 skewed_group e).
Proof.
  apply (exact_code_in_range 4 32 valid_bits_4 valid_group_size_32
           skewed_group 32).
  - reflexivity.
  - intros j _. apply skewed_group_finite.
Defined.

Lemma quantize_output_decodes_witness :
  code_at 4
    (as_bytes 4
       (q_out (quantize (CV := conv_id xreal) (castU_of 4) skewed_group
                 (fun _ => 0) (fun _ => XNaN) (fun _ => XNaN) 4 32 32)))
    1
  = element_code (CV := conv_id xreal) 4 32 skewed_group 1.
Proof.
  exact (quantize_output_decodes (CV := conv_id xreal) 4 32
           valid_bits_4 valid_group_size_32 skewed_group
           (fun _ => 0) (fun _ => XNaN) (fun _ => XNaN) 32
           (ltac:(lia) : 0 <= 32) skewed_codes_in_range 1
           (conj Z.le_0_1 eq_refl)).
Defined.

Lemma quantize_writes_whole_groups_witness :
  let q := quantize (CV := conv_id xreal) (castU_of 4) skewed_group
             (fun _ => 7) (fun _ => XNaN) (fun _ => XNaN) 4 32 10 in
  q_out q 0 = 7 /\ q_scales q 0 = XNaN /\ q_biases q 0 = XNaN.
Proof.
  exact (proj2 (proj2 (quantize_writes_whole_groups (CV := conv_id xreal)
                         4 32 valid_bits_4 valid_group_size_32
                         skewed_group (fun _ => 7) (fun _ => XNaN)
                         (fun _ => XNaN) 10 (ltac:(lia) : 0 <= 10)))
           eq_refl 0).
Defined.

Lemma quantize_ignores_tail_witness :
  quantize (CV := conv_id xreal) u32 skewed_group
    (fun _ => 0) (fun _ => XNaN) (fun _ => XNaN) 4 32 40
  = quantize (CV := conv_id xreal) u32 skewed_tail
      (fun _ => 0) (fun _ => XNaN) (fun _ => XNaN) 4 32 40.
Proof.
  apply (quantize_ignores_tail (CV := conv_id xreal) 4 32
           valid_bits_4 valid_group_size_32 u32 skewed_group skewed_tail
           (fun _ => 0) (fun _ => XNaN) (fun _ => XNaN) 40
           (ltac:(lia) : 0 <= 40)).
  intros e He. change (Z.quot 40 32 * 32) with 32 in He.
  unfold skewed_tail. destruct (Z.ltb_spec e 32); [reflexivity | lia].
Defined.

Lemma kernels_on_quantized_weights_witness :
  let q := quantize (CV := conv_id xreal) (castU_of 4) skewed_group
             (fun _ => 0) (fun _ => XNaN) (fun _ => XNaN) 4 32 32 in
  _qmm_t (T := xreal) 4 32 (fun _ => XNaN) 0 (data ex_x)
    (as_words 4 (q_out q)) (q_scales q) (q_biases q) 1 1 32 0
  = sum_from (XFin 0) 32
      (fun k =>
         fmul (data ex_x k)
           (stored_weight (AT := exact_arith) (CV := conv_id xreal)
              4 32 skewed_group k)).
Proof.
  exact (proj1 (kernels_on_quantized_weights (AT := exact_arith)
                  (CV := conv_id xreal) 4 32
                  valid_bits_4 valid_group_size_32 skewed_group
                  (fun _ => 0) (fun _ => XNaN) (fun _ => XNaN) (data ex_x)
                  (fun _ => XNaN) 0 1 1 32
                  (ltac:(lia) : 0 <= 32) (ltac:(lia) : 0 <= 1)
                  (fun H : is_power_of_2 4 = false =>
                     ltac:(discriminate H))
                  skewed_codes_in_range)
           eq_refl 0 0
           (conj (Z.le_refl 0) eq_refl) (conj (Z.le_refl 0) eq_refl)).
Defined.

Lemma exact_group_extrema_witness :
  exists a b,
    group_min_max (CV := conv_id xreal) skewed_group 0 32
    = (XFin a, XFin b)
    /\ (exists j, 0 <= j < 32 /\ skewed_group (0 + j) = XFin a)
    /\ (exists j, 0 <= j < 32 /\ skewed_group (0 + j) = XFin b)
    /\ forall j v, 0 <= j < 32 -> skewed_group (0 + j) = XFin v ->
         (a <= v <= b)%Q.
Proof.
  exact (exact_group_extrema skewed_group 0 32 (ltac:(lia) : 0 < 32)
           (fun j _ => skewed_group_finite (0 + j))).
Defined.

Lemma drivers_write_only_output_witness :
  state_of
    (_qmm_dispatch_typed_arr (AT := exact_arith) (CV := conv_id xreal)
       lane_sum elem_to_loc_std 8 ex_out ex_x ex_w ex_scales ex_biases
       32 4 true) 100
  = XNaN
  /\ state_of
       (_bs_qmm_dispatch_typed (AT := exact_arith) (CV := conv_id xreal)
          lane_sum elem_to_loc_std 8 ex_out ex_x ex_w ex_scales ex_biases
          ex_lhs ex_rhs 32 4 true) 100
     = XNaN.
Proof.
  destruct (drivers_write_only_output (AT := exact_arith)
              (CV := conv_id xreal) lane_sum elem_to_loc_std 8
              ex_out ex_x ex_w ex_scales ex_biases ex_lhs ex_rhs
              32 4 true 100
              ltac:(vm_compute; discriminate)
              ltac:(discriminate)) as [Hd Hg].
  split.
  - apply Hd; vm_compute; [discriminate | intros [_ H]; discriminate H].
  - apply Hg; vm_compute; [discriminate | intros [_ H]; discriminate H].
Defined.

Lemma group_storage_witness :
  get_pack_factor 3 8 * 3 = 8 * get_bytes_per_pack 3 8
  /\ packs_in_group 3 64 * get_pack_factor 3 8 = 64
  /\ 8 * (packs_in_group 3 64 * get_bytes_per_pack 3 8) = 64 * 3
  /\ Z.quot (64 * get_bytes_per_pack 3 8) (get_pack_factor 3 32) * 1
     = packs_in_group 3 64 * get_bytes_per_pack 3 8.
Proof.
  apply (group_storage 3 64).
  - unfold valid_bits. lia.
  - unfold valid_group_size. lia.
Defined.

Lemma affine_quantize_rejects_non_floating_witness :
  AffineQuantize_eval_cpu exact_conv_of copy_example row_major 32 4
    ex_w_int ex_w ex_scales ex_biases
    (fun _ => 0) (fun _ => XNaN) (fun _ => XNaN)
  = Throw
      (runtime_error
         "[fast::AffineQuantize::eval_cpu] Only supports floating point inputs")
      (mk_quantized (fun _ => 0) (fun _ => XNaN) (fun _ => XNaN)).
Proof.
  exact (affine_quantize_rejects_non_floating exact_conv_of copy_example
           row_major 32 4 ex_w_int ex_w ex_scales ex_biases
           (fun _ => 0) (fun _ => XNaN) (fun _ => XNaN)
           int32_not_floating).
Defined.

Lemma affine_quantize_output_decodes_witness :
  exists q,
    AffineQuantize_eval_cpu exact_conv_of copy_example row_major 32 4
      ex_w_float ex_w ex_scales ex_biases
      (fun _ => 0) (fun _ => XNaN) (fun _ => XNaN) = Done q
    /\ code_at 4 (as_bytes 4 (q_out q)) 1
       = element_code (CV := conv_id xreal) 4 32 skewed_group 1.
Proof.
  destruct (affine_quantize_output_decodes exact_conv_of copy_example
              row_major 32 4 ex_w_float ex_w ex_scales ex_biases
              (fun _ => 0) (fun _ => XNaN) (fun _ => XNaN)
              (or_introl eq_refl) valid_bits_4 valid_group_size_32
              (ltac:(vm_compute; discriminate)
                : 0 <= size (ensure_row_contiguous copy_example row_major
                               ex_w_float))
              skewed_codes_in_range) as (q & Hrun & Hdec).
  exists q. split; [exact Hrun |].
  exact (Hdec 1 (conj Z.le_0_1 eq_refl)).
Defined.

Lemma gather_identity_is_dense_witness :
  _bs_qmm_dispatch_typed (AT := exact_arith) (CV := conv_id xreal)
    lane_sum elem_to_loc_std 8 ex_out ex_x ex_w ex_scales ex_biases
    ex_arange ex_arange 32 4 true
  = _qmm_dispatch_typed_arr (AT := exact_arith) (CV := conv_id xreal)
      lane_sum elem_to_loc_std 8 ex_out ex_x ex_w ex_scales ex_biases
      32 4 true.
Proof.
  apply (gather_identity_is_dense (AT := exact_arith)
           (CV := conv_id xreal) lane_sum elem_to_loc_std 8
           ex_out ex_x ex_w ex_scales ex_biases ex_arange ex_arange
           32 4 true).
  - reflexivity.
  - reflexivity.
  - intros i Hi. change (size ex_arange) with 2 in Hi.
    assert (Hc : i = 0 \/ i = 1) by lia.
    destruct Hc as [-> | ->]; split; reflexivity.
Defined.
